(** * hn-client: the item pipeline, the projection and the sorters

    A shallow embedding of [client.go] (records, [Timestamp], [Fetch],
    [ItemService.Get], [ItemService.List], the methods of [UserService]
    and of [LiveService]), of the converters ([To], [ToList], [ToStory],
    ...) and of the sorters ([Sort], [SortID], [SortScore], [SortTime],
    [SortType]).

    Go's [uint] is an [N], [int] and [int64] are [Z] (with the 64-bit
    wrap-around written out where the code does arithmetic), strings are
    [string], slices are lists, the [map[uint]Item] of [List] is a
    [gmap uint Item], and a [(T, error)] result is a sum or a pair with an
    [option error].  The goroutines of [List] are a labelled transition
    system: one transition per communication or blocking call. *)

From Stdlib Require Import ZArith Lia.
From stdpp Require Import gmap strings list fin_maps sorting pretty.

Open Scope Z_scope.

(** ** Machine integers *)

Definition uint := N.

Definition int64_min : Z := - 2 ^ 63.
Definition int64_max : Z := 2 ^ 63 - 1.

(** Two's complement wrap-around of [int64] arithmetic. *)
Definition wrap64 (z : Z) : Z := (z + 2 ^ 63) mod 2 ^ 64 - 2 ^ 63.

Definition in_int64 (z : Z) : bool := (int64_min <=? z) && (z <=? int64_max).

(** ** Errors

    One inductive for the values of Go's [error] that the package builds:
    [ErrNotFound], the four wrapped failures of [Fetch], the two errors of
    [To], and the error of [json.Unmarshal] into an [int64]. *)

Inductive cause := ContextCanceled | Failure.

Inductive error :=
  | ErrNotFound
  | ErrCreateRequest
  | ErrSendRequest (c : cause)
  | ErrReadResponse (c : cause)
  | ErrDecodeResponse
  | ErrUnmarshalInt64
  | ErrMismatchedTypes (expected got : string)
  | ErrUnsupportedType (got : string).

Global Instance cause_eq_dec : EqDecision cause.
Proof. solve_decision. Defined.

Global Instance error_eq_dec : EqDecision error.
Proof. solve_decision. Defined.

(** ** [time.Time] as far as [Timestamp] uses it

    The three fields of [time.Time] and the library functions the package
    calls: [time.Unix], [IsZero] (which the [omitzero] tag consults),
    [Unix] and [UnixNano]. *)

Inductive Location := LocationNil | Local.

Record Time := { wall : Z; ext : Z; loc : Location }.

Definition unixToInternal : Z :=
  (1969 * 365 + 1969 / 4 - 1969 / 100 + 1969 / 400) * 86400.
Definition internalToUnix : Z := - unixToInternal.
Definition wallToInternal : Z :=
  (1884 * 365 + 1884 / 4 - 1884 / 100 + 1884 / 400) * 86400.

Definition nsecMask : Z := 2 ^ 30 - 1.

Definition Time_nsec (t : Time) : Z := Z.land (wall t) nsecMask.

Definition Time_sec (t : Time) : Z :=
  if Z.testbit (wall t) 63
  then wallToInternal + Z.shiftr (Z.shiftl (wall t) 1 mod 2 ^ 64) 31
  else ext t.

Definition Time_unixSec (t : Time) : Z := wrap64 (Time_sec t + internalToUnix).

Definition Time_IsZero (t : Time) : bool :=
  (Time_sec t =? 0) && (Time_nsec t =? 0).

Definition Time_Unix (t : Time) : Z := Time_unixSec t.

Definition Time_UnixNano (t : Time) : Z :=
  wrap64 (Time_unixSec t * 1000000000 + Time_nsec t).

Definition unixTime (sec nsec : Z) : Time :=
  {| wall := nsec; ext := wrap64 (sec + unixToInternal); loc := Local |}.

(** [time.Unix(sec, nsec)]; the normalisation branch is the library's. *)
Definition time_Unix (sec nsec : Z) : Time :=
  if (nsec <? 0) || (1000000000 <=? nsec) then
    let n := Z.quot nsec 1000000000 in
    let sec := wrap64 (sec + n) in
    let nsec := nsec - n * 1000000000 in
    if nsec <? 0 then unixTime (wrap64 (sec - 1)) (nsec + 1000000000)
    else unixTime sec nsec
  else unixTime sec nsec.

(** The zero value [time.Time{}]. *)
Definition Time_zero : Time := {| wall := 0; ext := 0; loc := LocationNil |}.

(** ** Timestamp *)

Record Timestamp := { Timestamp_Time : Time }.

(** The zero value of [Timestamp]: what a field keeps when the decoder
    never calls [UnmarshalJSON] on it, and what [omitzero] omits. *)
Definition Timestamp_zero : Timestamp := {| Timestamp_Time := Time_zero |}.

Definition Timestamp_IsZero (t : Timestamp) : bool :=
  Time_IsZero (Timestamp_Time t).

(** The instant at epoch zero, 1970-01-01T00:00:00Z. *)
Definition epoch_instant : Timestamp := {| Timestamp_Time := time_Unix 0 0 |}.

(** The bytes handed to [UnmarshalJSON], as [json.Unmarshal] into an
    [int64] classifies them: the literal [null], an integer literal, or
    anything else (malformed text, a string, a fraction, ...). *)
Inductive JSONData :=
  | JSONNull
  | JSONInteger (n : Z)
  | JSONOther.

(** [json.Unmarshal(data, &v)] for [v : int64]: [null] leaves [v] as it
    is, an integer literal in range is stored, everything else fails. *)
Definition json_Unmarshal_int64 (data : JSONData) (v : Z) : Z + error :=
  match data with
  | JSONNull => inl v
  | JSONInteger n => if in_int64 n then inl n else inr ErrUnmarshalInt64
  | JSONOther => inr ErrUnmarshalInt64
  end.

(** [func (t *Timestamp) UnmarshalJSON(data []byte) error]: the new
    contents of [*t] and the returned error. *)
Definition Timestamp_UnmarshalJSON (t : Timestamp) (data : JSONData)
  : Timestamp * option error :=
  let timestamp := 0 in
  match json_Unmarshal_int64 data timestamp with
  | inr err => (t, Some err)
  | inl timestamp => ({| Timestamp_Time := time_Unix timestamp 0 |}, None)
  end.

(** Decoding the member of a JSON object that belongs to a [Timestamp]
    field: an absent member leaves the field as it is, a present one goes
    through [UnmarshalJSON]. *)
Definition decode_Timestamp_member (t : Timestamp) (member : option JSONData)
  : Timestamp * option error :=
  match member with
  | None => (t, None)
  | Some data => Timestamp_UnmarshalJSON t data
  end.

(** ** Records *)

Definition StoryType : string := "story".
Definition CommentType : string := "comment".
Definition AskType : string := "ask".
Definition JobType : string := "job".
Definition PollType : string := "poll".
Definition PollOptionType : string := "pollopt".

Record baseItem := {
  ID : uint;
  By : string;
  Score : Z;
  Time_ : Timestamp;
  Type_ : string
}.

Record Item := {
  Item_base : baseItem;
  Item_Descendants : Z;
  Item_Parts : list uint;
  Item_Parent : uint;
  Item_Kids : list uint;
  Item_Text : string;
  Item_Title : string;
  Item_Poll : uint;
  Item_URL : string
}.

Record Story := {
  Story_base : baseItem;
  Story_Descendants : Z;
  Story_Kids : list uint;
  Story_Text : string;
  Story_Title : string;
  Story_URL : string
}.

Record Comment := {
  Comment_base : baseItem;
  Comment_Kids : list uint;
  Comment_Parent : uint;
  Comment_Text : string
}.

Record Ask := {
  Ask_base : baseItem;
  Ask_Descendants : Z;
  Ask_Kids : list uint;
  Ask_Text : string;
  Ask_Title : string
}.

Record Job := {
  Job_base : baseItem;
  Job_Text : string;
  Job_Title : string;
  Job_URL : string
}.

Record Poll := {
  Poll_base : baseItem;
  Poll_Descendants : Z;
  Poll_Kids : list uint;
  Poll_Parts : list uint;
  Poll_Text : string;
  Poll_Title : string
}.

Record PollOption := {
  PollOption_base : baseItem;
  PollOption_Poll : uint;
  PollOption_Text : string
}.

Definition baseItem_zero : baseItem :=
  {| ID := 0%N; By := ""; Score := 0; Time_ := Timestamp_zero; Type_ := "" |}.

(** The promoted fields the pipeline reads on an [Item]. *)
Definition Item_ID (i : Item) : uint := ID (Item_base i).
Definition Item_Type (i : Item) : string := Type_ (Item_base i).

(** ** Converters *)

Definition ToComment (item : Item) : Comment :=
  {| Comment_base := Item_base item;
     Comment_Kids := Item_Kids item;
     Comment_Parent := Item_Parent item;
     Comment_Text := Item_Text item |}.

Definition ToStory (item : Item) : Story :=
  {| Story_base := Item_base item;
     Story_Descendants := Item_Descendants item;
     Story_Kids := Item_Kids item;
     Story_Text := Item_Text item;
     Story_Title := Item_Title item;
     Story_URL := Item_URL item |}.

Definition ToAsk (item : Item) : Ask :=
  {| Ask_base := Item_base item;
     Ask_Descendants := Item_Descendants item;
     Ask_Kids := Item_Kids item;
     Ask_Text := Item_Text item;
     Ask_Title := Item_Title item |}.

Definition ToJob (item : Item) : Job :=
  {| Job_base := Item_base item;
     Job_Text := Item_Text item;
     Job_Title := Item_Title item;
     Job_URL := Item_URL item |}.

Definition ToPoll (item : Item) : Poll :=
  {| Poll_base := Item_base item;
     Poll_Descendants := Item_Descendants item;
     Poll_Kids := Item_Kids item;
     Poll_Parts := Item_Parts item;
     Poll_Text := Item_Text item;
     Poll_Title := Item_Title item |}.

Definition ToPollOption (item : Item) : PollOption :=
  {| PollOption_base := Item_base item;
     PollOption_Poll := Item_Poll item;
     PollOption_Text := Item_Text item |}.

(** A value of the interface type [Convertible] as the converters build
    it: the dynamic type together with the value. *)
Inductive ConvertibleValue :=
  | OfStory (s : Story)
  | OfComment (c : Comment)
  | OfAsk (a : Ask)
  | OfJob (j : Job)
  | OfPoll (p : Poll)
  | OfPollOption (o : PollOption).

(** The package-level map [converters]. *)
Definition converters : gmap string (Item → ConvertibleValue) :=
  <[StoryType := λ i, OfStory (ToStory i)]>
  (<[CommentType := λ i, OfComment (ToComment i)]>
  (<[AskType := λ i, OfAsk (ToAsk i)]>
  (<[JobType := λ i, OfJob (ToJob i)]>
  (<[PollType := λ i, OfPoll (ToPoll i)]>
  (<[PollOptionType := λ i, OfPollOption (ToPollOption i)]> ∅))))).

(** A type parameter [C Convertible]: its method [Type()], its zero value
    (the named result [c] of [To] starts as it), and the type assertion
    [.(C)] on an interface value, which fails on another dynamic type. *)
Class Convertible (C : Type) := {
  Convertible_Type : C → string;
  Convertible_zero : C;
  Convertible_assert : ConvertibleValue → option C
}.

Global Instance Story_Convertible : Convertible Story := {
  Convertible_Type := λ _, StoryType;
  Convertible_zero :=
    {| Story_base := baseItem_zero; Story_Descendants := 0; Story_Kids := [];
       Story_Text := ""; Story_Title := ""; Story_URL := "" |};
  Convertible_assert := λ v, match v with OfStory s => Some s | _ => None end
}.

Global Instance Comment_Convertible : Convertible Comment := {
  Convertible_Type := λ _, CommentType;
  Convertible_zero :=
    {| Comment_base := baseItem_zero; Comment_Kids := [];
       Comment_Parent := 0%N; Comment_Text := "" |};
  Convertible_assert := λ v, match v with OfComment c => Some c | _ => None end
}.

Global Instance Ask_Convertible : Convertible Ask := {
  Convertible_Type := λ _, AskType;
  Convertible_zero :=
    {| Ask_base := baseItem_zero; Ask_Descendants := 0; Ask_Kids := [];
       Ask_Text := ""; Ask_Title := "" |};
  Convertible_assert := λ v, match v with OfAsk a => Some a | _ => None end
}.

Global Instance Job_Convertible : Convertible Job := {
  Convertible_Type := λ _, JobType;
  Convertible_zero :=
    {| Job_base := baseItem_zero; Job_Text := ""; Job_Title := "";
       Job_URL := "" |};
  Convertible_assert := λ v, match v with OfJob j => Some j | _ => None end
}.

Global Instance Poll_Convertible : Convertible Poll := {
  Convertible_Type := λ _, PollType;
  Convertible_zero :=
    {| Poll_base := baseItem_zero; Poll_Descendants := 0; Poll_Kids := [];
       Poll_Parts := []; Poll_Text := ""; Poll_Title := "" |};
  Convertible_assert := λ v, match v with OfPoll p => Some p | _ => None end
}.

Global Instance PollOption_Convertible : Convertible PollOption := {
  Convertible_Type := λ _, PollOptionType;
  Convertible_zero :=
    {| PollOption_base := baseItem_zero; PollOption_Poll := 0%N;
       PollOption_Text := "" |};
  Convertible_assert :=
    λ v, match v with OfPollOption o => Some o | _ => None end
}.

(** What a call leaves its caller with: the two results, or a run-time
    panic (a failed type assertion). *)
Inductive outcome (C : Type) :=
  | Return (c : C) (err : option error)
  | Panic.
Arguments Return {C} c err.
Arguments Panic {C}.

(** [func To[C Convertible](item Item) (c C, err error)]. *)
Definition To {C : Type} `{Convertible C} (item : Item) : outcome C :=
  let c : C := Convertible_zero in
  if decide (Item_Type item ≠ Convertible_Type c) then
    Return c (Some (ErrMismatchedTypes (Convertible_Type c) (Item_Type item)))
  else
    match converters !! Item_Type item with
    | None => Return c (Some (ErrUnsupportedType (Item_Type item)))
    | Some fn =>
        match Convertible_assert (fn item) with
        | Some c => Return c None
        | None => Panic
        end
    end.

(** [func ToList[C Convertible](items []Item) []C]; [None] when a call of
    [To] panics. *)
Fixpoint ToList {C : Type} `{Convertible C} (items : list Item)
  : option (list C) :=
  match items with
  | [] => Some []
  | item :: items =>
      match To item with
      | Panic => None
      | Return _ (Some _) => ToList items
      | Return val None => cons val <$> ToList items
      end
  end.

(** ** Sorters *)

(** The interface [Sortable]. *)
Class Sortable (S : Type) := {
  getID : S → uint;
  getBy : S → string;
  getScore : S → Z;
  getTime : S → Timestamp;
  getType : S → string
}.

Global Instance baseItem_Sortable : Sortable baseItem := {
  getID := ID; getBy := By; getScore := Score; getTime := Time_;
  getType := Type_
}.

(** Every record embeds [baseItem] and so has its methods. *)
Definition Sortable_embed {S : Type} (base : S → baseItem) : Sortable S := {|
  getID := λ x, ID (base x);
  getBy := λ x, By (base x);
  getScore := λ x, Score (base x);
  getTime := λ x, Time_ (base x);
  getType := λ x, Type_ (base x)
|}.

Global Instance Item_Sortable : Sortable Item := Sortable_embed Item_base.
Global Instance Story_Sortable : Sortable Story := Sortable_embed Story_base.
Global Instance Comment_Sortable : Sortable Comment :=
  Sortable_embed Comment_base.
Global Instance Ask_Sortable : Sortable Ask := Sortable_embed Ask_base.
Global Instance Job_Sortable : Sortable Job := Sortable_embed Job_base.
Global Instance Poll_Sortable : Sortable Poll := Sortable_embed Poll_base.
Global Instance PollOption_Sortable : Sortable PollOption :=
  Sortable_embed PollOption_base.

(** The constraint [cmp.Ordered] at the three key types the sorters use,
    and [cmp.Compare], which answers -1, 0 or +1. *)
Class Ordered (K : Type) := ordered_compare : K → K → comparison.

Global Instance uint_Ordered : Ordered uint := N.compare.
Global Instance int_Ordered : Ordered Z := Z.compare.
Global Instance string_Ordered : Ordered string := String.compare.

Definition cmp_Compare {K : Type} `{Ordered K} (x y : K) : Z :=
  match ordered_compare x y with
  | Lt => -1
  | Eq => 0
  | Gt => 1
  end.

(** [slices.SortStableFunc] is the standard library's.  Up to 20 elements
    its whole algorithm is the insertion sort below; on longer slices it
    insertion-sorts blocks of 20 and merges them stably, which yields the
    same arrangement for the comparators of this package: a stable sort by
    a key has one possible result ([stably_sorted_unique] below).  For a
    comparator that is not an order the two can arrange more than 20
    elements differently, so the properties below use comparators of a key,
    or at most 20 elements.  [bubble]
    is the inner loop: [x] moves left while it compares below its left
    neighbour ([left] is the sorted prefix, nearest neighbour first). *)
Fixpoint bubble {E : Type} (cmp : E → E → Z) (x : E) (left : list E) : list E :=
  match left with
  | [] => [x]
  | y :: left' => if cmp x y <? 0 then y :: bubble cmp x left' else x :: left
  end.

Definition insertionSortCmpFunc {E : Type} (data : list E) (cmp : E → E → Z)
  : list E :=
  rev (fold_left (λ left x, bubble cmp x left) data []).

Definition SortStableFunc {E : Type} (x : list E) (cmp : E → E → Z) : list E :=
  insertionSortCmpFunc x cmp.

(** [type Order int] and its two constants. *)
Definition Order := Z.
Definition Ascending : Order := 0.
Definition Descending : Order := 1.

(** What a sorter writes to standard output. *)
Inductive Printed := InvalidSortOrder (order : Order).

(** [func Sort[S Sortable](items []S, sort func(a, b S) int)]: the
    contents of [items] afterwards. *)
Definition Sort {S : Type} `{Sortable S} (items : list S) (sort : S → S → Z)
  : list S :=
  SortStableFunc items sort.

(** The four sorters: the contents of [items] afterwards, and the output
    of the [default] branch. *)
Definition SortID {S : Type} `{Sortable S} (items : list S) (order : Order)
  : list S * list Printed :=
  if order =? Ascending then
    (Sort items (λ a b, cmp_Compare (getID a) (getID b)), [])
  else if order =? Descending then
    (Sort items (λ a b, cmp_Compare (getID b) (getID a)), [])
  else (items, [InvalidSortOrder order]).

Definition SortScore {S : Type} `{Sortable S} (items : list S) (order : Order)
  : list S * list Printed :=
  if order =? Ascending then
    (Sort items (λ a b, cmp_Compare (getScore a) (getScore b)), [])
  else if order =? Descending then
    (Sort items (λ a b, cmp_Compare (getScore b) (getScore a)), [])
  else (items, [InvalidSortOrder order]).

Definition UnixNano (t : Timestamp) : Z := Time_UnixNano (Timestamp_Time t).

Definition SortTime {S : Type} `{Sortable S} (items : list S) (order : Order)
  : list S * list Printed :=
  if order =? Ascending then
    (Sort items
       (λ a b, cmp_Compare (UnixNano (getTime a)) (UnixNano (getTime b))), [])
  else if order =? Descending then
    (Sort items
       (λ a b, cmp_Compare (UnixNano (getTime b)) (UnixNano (getTime a))), [])
  else (items, [InvalidSortOrder order]).

Definition SortType {S : Type} `{Sortable S} (items : list S) (order : Order)
  : list S * list Printed :=
  if order =? Ascending then
    (Sort items (λ a b, cmp_Compare (getType a) (getType b)), [])
  else if order =? Descending then
    (Sort items (λ a b, cmp_Compare (getType b) (getType a)), [])
  else (items, [InvalidSortOrder order]).

(** ** The fetcher *)

(** What one HTTP round trip does, seen from [Fetch]: the request cannot
    be built, [client.Do] fails, [io.ReadAll] fails, or a body arrives. *)
Inductive Response :=
  | RequestRejected
  | SendFailed (c : cause)
  | ReadFailed (c : cause)
  | Body (body : string).

(** [func Fetch[T any](ctx, client, method, url) (T, error)] on the round
    trip's result; [unmarshal] is [json.Unmarshal] into a [T]. *)
Definition Fetch {T : Type} (unmarshal : string → option T) (resp : Response)
  : T + error :=
  match resp with
  | RequestRejected => inr ErrCreateRequest
  | SendFailed c => inr (ErrSendRequest c)
  | ReadFailed c => inr (ErrReadResponse c)
  | Body body =>
      if decide (body = "null") then inr ErrNotFound
      else match unmarshal body with
           | None => inr ErrDecodeResponse
           | Some t => inl t
           end
  end.

(** The collaborators of the item service: the upstream's answer to the
    request for an item while the context is live, [json.Unmarshal] into an
    [Item], and [html.UnescapeString]. *)
Record Upstream := {
  roundtrip : uint → Response;
  json_Unmarshal_Item : string → option Item;
  html_UnescapeString : string → string
}.

Definition set_Text (item : Item) (text : string) : Item :=
  {| Item_base := Item_base item; Item_Descendants := Item_Descendants item;
     Item_Parts := Item_Parts item; Item_Parent := Item_Parent item;
     Item_Kids := Item_Kids item; Item_Text := text;
     Item_Title := Item_Title item; Item_Poll := Item_Poll item;
     Item_URL := Item_URL item |}.

Definition set_Title (item : Item) (title : string) : Item :=
  {| Item_base := Item_base item; Item_Descendants := Item_Descendants item;
     Item_Parts := Item_Parts item; Item_Parent := Item_Parent item;
     Item_Kids := Item_Kids item; Item_Text := Item_Text item;
     Item_Title := title; Item_Poll := Item_Poll item;
     Item_URL := Item_URL item |}.

(** [func (s *ItemService) Get(ctx, id) (Item, error)] on the round trip's
    result. *)
Definition Get_on (up : Upstream) (resp : Response) : Item + error :=
  match Fetch (json_Unmarshal_Item up) resp with
  | inr err => inr err
  | inl item =>
      let item :=
        if decide (Item_Text item ≠ "")
        then set_Text item (html_UnescapeString up (Item_Text item))
        else item in
      let item :=
        if decide (Item_Title item ≠ "")
        then set_Title item (html_UnescapeString up (Item_Title item))
        else item in
      inl item
  end.

(** [Get] under a context that stays live. *)
Definition Get (up : Upstream) (id : uint) : Item + error :=
  Get_on up (roundtrip up id).

(** ** [ItemService.List]

    [List] starts a collector goroutine and one task per identifier in an
    [errgroup.Group] made by [errgroup.WithContext].  Of the group the
    model has what [List] uses: [SetLimit] installs the semaphore, [Go]
    waits for a slot and starts the task, the first task error is kept and
    cancels the derived context, and [Wait] returns once every task has
    returned and cancels the derived context as well.  Channels are Go's:
    a send on [processed] needs room in the buffer, and a [select] takes
    any one of its cases that can proceed. *)

(** One call of [List]: its collaborators, its arguments ([filter_] is
    [None] for [nil]) and the package variable [maxWorkers] it reads. *)
Record Call := {
  upstream : Upstream;
  ids : list uint;
  filter_ : option (Item → bool);
  maxWorkers : Z
}.

(** The package variable [maxWorkers] starts at -1, and
    [SetMaxWorkers(n)] assigns it: a call made after it reads [n]. *)
Definition maxWorkers_default : Z := -1.

Definition SetMaxWorkers (n : Z) (c : Call) : Call :=
  {| upstream := upstream c; ids := ids c; filter_ := filter_ c;
     maxWorkers := n |}.

(** The conditional of the task body: is [item] sent on [processed]?
    [filter != nil && filter(item)], else [filter == nil]. *)
Definition forwards (filter : option (Item → bool)) (item : Item) : bool :=
  if match filter with Some f => f item | None => false end then true
  else if match filter with None => true | Some _ => false end then true
  else false.

(** [errgroup.Group.SetLimit(n)]: a negative [n] removes the semaphore, any
    other [n] makes it a channel of capacity [n]. *)
Definition SetLimit (n : Z) : option Z :=
  if n <? 0 then None else Some n.

(** [g.Go] may start a task when there is no semaphore or the semaphore
    has a free slot; [active] tasks hold one slot each. *)
Definition admits (sem : option Z) (active : nat) : bool :=
  match sem with
  | None => true
  | Some capacity => Z.of_nat active <? capacity
  end.

(** Capacity of [processed]. *)
Definition processed_cap : nat := 10.

(** A task started by [g.Go] that has not returned: inside [s.Get], or
    holding its item at [processed <- item]. *)
Inductive task :=
  | Fetching (id : uint)
  | Sending (id : uint) (item : Item).

(** The calling goroutine: at [g.Go] for the head of [rest] (at [g.Wait]
    when [rest] is empty), at [<-wait], or returned. *)
Inductive main_pc :=
  | AtGo (rest : list uint)
  | AtWaitChan
  | Returned (items : option (list Item)) (err : option error).

(** The shared state of a call.  [errs] logs the errors the tasks returned,
    in order: [errOnce] keeps the first one as [g.err].  [ctx_done] is the
    derived context of [errgroup.WithContext]; [caller_canceled] records
    that the caller's own context ended.  [collecting] is the collector
    goroutine being alive ([wait] is closed when it is not). *)
Record state := {
  main : main_pc;
  tasks : list task;
  errs : list error;
  ctx_done : bool;
  caller_canceled : bool;
  processed : list Item;
  processed_closed : bool;
  collecting : bool;
  itemsMap : gmap uint Item
}.

Definition g_err (s : state) : option error := head (errs s).

Definition set_main (m : main_pc) (s : state) : state :=
  {| main := m; tasks := tasks s; errs := errs s; ctx_done := ctx_done s;
     caller_canceled := caller_canceled s; processed := processed s;
     processed_closed := processed_closed s; collecting := collecting s;
     itemsMap := itemsMap s |}.

Definition set_tasks (ts : list task) (s : state) : state :=
  {| main := main s; tasks := ts; errs := errs s; ctx_done := ctx_done s;
     caller_canceled := caller_canceled s; processed := processed s;
     processed_closed := processed_closed s; collecting := collecting s;
     itemsMap := itemsMap s |}.

Definition set_errs (es : list error) (s : state) : state :=
  {| main := main s; tasks := tasks s; errs := es; ctx_done := ctx_done s;
     caller_canceled := caller_canceled s; processed := processed s;
     processed_closed := processed_closed s; collecting := collecting s;
     itemsMap := itemsMap s |}.

Definition set_ctx_done (s : state) : state :=
  {| main := main s; tasks := tasks s; errs := errs s; ctx_done := true;
     caller_canceled := caller_canceled s; processed := processed s;
     processed_closed := processed_closed s; collecting := collecting s;
     itemsMap := itemsMap s |}.

Definition set_caller_canceled (s : state) : state :=
  {| main := main s; tasks := tasks s; errs := errs s; ctx_done := ctx_done s;
     caller_canceled := true; processed := processed s;
     processed_closed := processed_closed s; collecting := collecting s;
     itemsMap := itemsMap s |}.

Definition set_processed (buf : list Item) (s : state) : state :=
  {| main := main s; tasks := tasks s; errs := errs s; ctx_done := ctx_done s;
     caller_canceled := caller_canceled s; processed := buf;
     processed_closed := processed_closed s; collecting := collecting s;
     itemsMap := itemsMap s |}.

Definition set_processed_closed (s : state) : state :=
  {| main := main s; tasks := tasks s; errs := errs s; ctx_done := ctx_done s;
     caller_canceled := caller_canceled s; processed := processed s;
     processed_closed := true; collecting := collecting s;
     itemsMap := itemsMap s |}.

Definition set_collecting (b : bool) (s : state) : state :=
  {| main := main s; tasks := tasks s; errs := errs s; ctx_done := ctx_done s;
     caller_canceled := caller_canceled s; processed := processed s;
     processed_closed := processed_closed s; collecting := b;
     itemsMap := itemsMap s |}.

Definition set_itemsMap (m : gmap uint Item) (s : state) : state :=
  {| main := main s; tasks := tasks s; errs := errs s; ctx_done := ctx_done s;
     caller_canceled := caller_canceled s; processed := processed s;
     processed_closed := processed_closed s; collecting := collecting s;
     itemsMap := m |}.

(** How the round trip of a task ends: served by the upstream, or cut
    short by the context ([client.Do] or [io.ReadAll] returning the
    context's error), which needs the context to be done. *)
Inductive reply := Served | CanceledInSend | CanceledInRead.

(** The transitions.  Main goroutine: [ActGo], [ActWait] ([g.Wait] returns,
    then the error return or [close(processed)]), [ActReturn] ([<-wait],
    the final loop and the return).  Task [i] of [tasks]: [ActGet] ([s.Get]
    returns, then the filter, or the error with [errOnce] and the cancel),
    [ActSend] ([processed <- item] and the return).  Collector: [ActRecv],
    [ActRecvClosed] and [ActCtxDone], the three ways out of its [select].
    Environment: [ActCancel], the caller's context ends. *)
Inductive action :=
  | ActGo
  | ActWait
  | ActReturn
  | ActGet (i : nat) (r : reply)
  | ActSend (i : nat)
  | ActRecv
  | ActRecvClosed
  | ActCtxDone
  | ActCancel.

Global Instance reply_eq_dec : EqDecision reply.
Proof. solve_decision. Defined.

Global Instance action_eq_dec : EqDecision action.
Proof. solve_decision. Defined.

Definition response_of (c : Call) (id : uint) (r : reply) : Response :=
  match r with
  | Served => roundtrip (upstream c) id
  | CanceledInSend => SendFailed ContextCanceled
  | CanceledInRead => ReadFailed ContextCanceled
  end.

(** The final loop of [List]: the items of [itemsMap] in the order of
    [ids]. *)
Definition collect (ids : list uint) (m : gmap uint Item) : list Item :=
  omap (λ id, m !! id) ids.

Definition step (c : Call) (a : action) (s : state) : option state :=
  match a with
  | ActGo =>
      match main s with
      | AtGo (id :: rest) =>
          if admits (SetLimit (maxWorkers c)) (length (tasks s))
          then Some (set_main (AtGo rest)
                       (set_tasks (tasks s ++ [Fetching id]) s))
          else None
      | _ => None
      end
  | ActWait =>
      match main s, tasks s with
      | AtGo [], [] =>
          match g_err s with
          | Some err => Some (set_main (Returned None (Some err)) (set_ctx_done s))
          | None => Some (set_main AtWaitChan
                            (set_processed_closed (set_ctx_done s)))
          end
      | _, _ => None
      end
  | ActReturn =>
      match main s with
      | AtWaitChan =>
          if collecting s then None
          else Some (set_main
                       (Returned (Some (collect (ids c) (itemsMap s))) None) s)
      | _ => None
      end
  | ActGet i r =>
      match tasks s !! i with
      | Some (Fetching id) =>
          if match r with Served => true | _ => ctx_done s end then
            match Get_on (upstream c) (response_of c id r) with
            | inr err =>
                Some (set_ctx_done
                        (set_errs (errs s ++ [err])
                           (set_tasks (delete i (tasks s)) s)))
            | inl item =>
                if forwards (filter_ c) item
                then Some (set_tasks (<[i := Sending id item]> (tasks s)) s)
                else Some (set_tasks (delete i (tasks s)) s)
            end
          else None
      | _ => None
      end
  | ActSend i =>
      match tasks s !! i with
      | Some (Sending id item) =>
          if bool_decide (length (processed s) < processed_cap)%nat
          then Some (set_processed (processed s ++ [item])
                       (set_tasks (delete i (tasks s)) s))
          else None
      | _ => None
      end
  | ActRecv =>
      match collecting s, processed s with
      | true, item :: rest =>
          Some (set_itemsMap (<[Item_ID item := item]> (itemsMap s))
                  (set_processed rest s))
      | _, _ => None
      end
  | ActRecvClosed =>
      match collecting s, processed s with
      | true, [] =>
          if processed_closed s then Some (set_collecting false s) else None
      | _, _ => None
      end
  | ActCtxDone =>
      if collecting s && ctx_done s then Some (set_collecting false s)
      else None
  | ActCancel =>
      match main s with
      | Returned _ _ => None
      | _ => Some (set_caller_canceled (set_ctx_done s))
      end
  end.

(** The state in which the goroutines start; an empty [ids] returns at
    once, before any goroutine exists. *)
Definition List_start (c : Call) : state :=
  {| main := match ids c with
             | [] => Returned (Some []) None
             | _ :: _ => AtGo (ids c)
             end;
     tasks := []; errs := []; ctx_done := false; caller_canceled := false;
     processed := []; processed_closed := false;
     collecting := match ids c with [] => false | _ :: _ => true end;
     itemsMap := ∅ |}.

(** A schedule is a list of transitions; [run] takes them in order. *)
Fixpoint run (c : Call) (sched : list action) (s : state) : option state :=
  match sched with
  | [] => Some s
  | a :: sched =>
      match step c a s with
      | Some s' => run c sched s'
      | None => None
      end
  end.

(** [func (s *ItemService) List(ctx, ids, filter) ([]Item, error)] under
    a schedule: what the call returns when its goroutines take the
    transitions of [sched], [None] when they cannot take them or the call
    has not returned by then. *)
Definition List (c : Call) (sched : list action)
  : option (option (list Item) * option error) :=
  match run c sched (List_start c) with
  | Some s =>
      match main s with
      | Returned items err => Some (items, err)
      | _ => None
      end
  | None => None
  end.

(** ** The user and live services

    The other services fetch a user, an identifier or a list of identifiers
    with [Fetch] and hand the identifiers to [ItemService.List].  All
    services of a client share one [*http.Client]; [Network] is what it
    does while the context is live, together with [json.Unmarshal] at the
    result types of the package and [html.UnescapeString]. *)

Record User := {
  User_ID : string;
  User_About : string;
  User_Created : Timestamp;
  User_Karma : Z;
  User_Submitted : list uint
}.

Record Update := {
  Update_Items : list uint;
  Update_Profiles : list string
}.

Definition baseURL : string := "https://hacker-news.firebaseio.com/v0".

Record Network := {
  http_Do : string → Response;
  json_Item : string → option Item;
  json_User : string → option User;
  json_uint : string → option uint;
  json_uints : string → option (list uint);
  json_Update : string → option Update;
  html_Unescape : string → string
}.

(** [Fetch[T](ctx, client, http.MethodGet, url)]: the request goes to
    [baseURL + url + ".json"]. *)
Definition Fetch_from {T : Type} (net : Network) (unmarshal : string → option T)
    (url : string) : T + error :=
  Fetch unmarshal (http_Do net (baseURL +:+ url +:+ ".json")).

(** The item service on the shared client: [Get] requests
    [fmt.Sprintf("/item/%d", id)]. *)
Definition ItemService_upstream (net : Network) : Upstream :=
  {| roundtrip := λ id,
       http_Do net (baseURL +:+ ("/item/" +:+ pretty (id : N)) +:+ ".json");
     json_Unmarshal_Item := json_Item net;
     html_UnescapeString := html_Unescape net |}.

(** [s.items.List(ctx, ids, filter)] with the package variable
    [maxWorkers] at [W], under a schedule of its goroutines. *)
Definition ItemService_List (net : Network) (W : Z) (identifiers : list uint)
    (filter : option (Item → bool)) (sched : list action)
  : option (option (list Item) * option error) :=
  List {| upstream := ItemService_upstream net; ids := identifiers;
          filter_ := filter; maxWorkers := W |} sched.

(** A call that returns before [List] is reached starts no goroutine: it
    returns under the empty schedule. *)
Definition at_once {A : Type} (r : A) (sched : list action) : option A :=
  match sched with
  | [] => Some r
  | _ :: _ => None
  end.

(** The common tail of the typed methods:
    [if err != nil { return nil, err }; return ToList[C](items), nil]. *)
Definition ToList_or_error {C : Type} `{Convertible C}
    (r : option (list Item) * option error) : outcome (option (list C)) :=
  match r with
  | (_, Some err) => Return None (Some err)
  | (items, None) =>
      match ToList (default [] items) with
      | Some list => Return (Some list) None
      | None => Panic
      end
  end.

(** *** [UserService] *)

Definition UserService_Get (net : Network) (username : string) : User + error :=
  Fetch_from net (json_User net) ("/user/" +:+ username).

Definition UserService_Items (net : Network) (W : Z) (username : string)
    (filter : option (Item → bool)) (sched : list action)
  : option (option (list Item) * option error) :=
  match UserService_Get net username with
  | inr err => at_once (None, Some err) sched
  | inl user => ItemService_List net W (User_Submitted user) filter sched
  end.

Definition UserService_Comments (net : Network) (W : Z) (username : string)
    (sched : list action) : option (outcome (option (list Comment))) :=
  let filter := λ item, bool_decide (Item_Type item = CommentType) in
  ToList_or_error <$> UserService_Items net W username (Some filter) sched.

Definition UserService_Stories (net : Network) (W : Z) (username : string)
    (sched : list action) : option (outcome (option (list Story))) :=
  let filter := λ item, bool_decide (Item_Type item = StoryType) in
  ToList_or_error <$> UserService_Items net W username (Some filter) sched.

Definition UserService_Jobs (net : Network) (W : Z) (username : string)
    (sched : list action) : option (outcome (option (list Job))) :=
  ToList_or_error
    <$> UserService_Items net W username
          (Some (λ item, bool_decide (Item_Type item = JobType))) sched.

Definition UserService_Asks (net : Network) (W : Z) (username : string)
    (sched : list action) : option (outcome (option (list Ask))) :=
  ToList_or_error
    <$> UserService_Items net W username
          (Some (λ item, bool_decide (Item_Type item = AskType))) sched.

Definition UserService_Polls (net : Network) (W : Z) (username : string)
    (sched : list action) : option (outcome (option (list Poll))) :=
  ToList_or_error
    <$> UserService_Items net W username
          (Some (λ item, bool_decide (Item_Type item = PollType))) sched.

Definition UserService_PollOptions (net : Network) (W : Z) (username : string)
    (sched : list action) : option (outcome (option (list PollOption))) :=
  ToList_or_error
    <$> UserService_Items net W username
          (Some (λ item, bool_decide (Item_Type item = PollOptionType))) sched.

(** *** [LiveService] *)

Definition LiveService_MaxID (net : Network) : uint + error :=
  Fetch_from net (json_uint net) "/maxitem".




Definition LiveService_Ask (net : Network) : list uint + error :=
  Fetch_from net (json_uints net) "/askstories".

Definition LiveService_Show (net : Network) : list uint + error :=
  Fetch_from net (json_uints net) "/showstories".

Definition LiveService_Job (net : Network) : list uint + error :=
  Fetch_from net (json_uints net) "/jobstories".





Definition LiveService_AskList (net : Network) (W : Z)
    (filter : option (Item → bool)) (sched : list action)
  : option (outcome (option (list Ask))) :=
  match LiveService_Ask net with
  | inr err => at_once (Return None (Some err)) sched
  | inl identifiers =>
      ToList_or_error <$> ItemService_List net W identifiers filter sched
  end.

Definition LiveService_ShowList (net : Network) (W : Z)
    (filter : option (Item → bool)) (sched : list action)
  : option (outcome (option (list Story))) :=
  match LiveService_Show net with
  | inr err => at_once (Return None (Some err)) sched
  | inl identifiers =>
      ToList_or_error <$> ItemService_List net W identifiers filter sched
  end.

Definition LiveService_JobList (net : Network) (W : Z)
    (filter : option (Item → bool)) (sched : list action)
  : option (outcome (option (list Job))) :=
  match LiveService_Job net with
  | inr err => at_once (Return None (Some err)) sched
  | inl identifiers =>
      ToList_or_error <$> ItemService_List net W identifiers filter sched
  end.


(** [LiveService.Recent].  Go's [uint] has 32 or 64 bits and its
    arithmetic wraps around; [make([]uint, 0, offset)] panics when the
    capacity is beyond what the runtime can allocate. *)
Record Platform := {
  uint_bits : Z;
  makeslice_max : N
}.

Definition uint_wrap (p : Platform) (z : Z) : uint :=
  Z.to_N (z mod 2 ^ uint_bits p).

(** [for i := latest - offset; i <= latest; i++ { ids = append(ids, i) }]
    from the test of the condition on; [fuel] bounds the number of tests,
    and [None] means that the loop is still running after them. *)
Fixpoint Recent_loop (p : Platform) (fuel : nat) (latest i : uint)
    (identifiers : list uint) : option (list uint) :=
  match fuel with
  | O => None
  | S fuel =>
      if (i <=? latest)%N
      then Recent_loop p fuel latest (uint_wrap p (Z.of_N i + 1))
             (identifiers ++ [i])
      else Some identifiers
  end.

Definition Recent_ids (p : Platform) (fuel : nat) (latest offset : uint)
  : option (list uint) :=
  Recent_loop p fuel latest (uint_wrap p (Z.of_N latest - Z.of_N offset)) [].

Definition LiveService_Recent (net : Network) (W : Z) (p : Platform)
    (fuel : nat) (offset : uint) (sched : list action)
  : option (outcome (option (list Item))) :=
  match LiveService_MaxID net with
  | inr err => at_once (Return None (Some err)) sched
  | inl latest =>
      if (makeslice_max p <? offset)%N then at_once Panic sched
      else
        match Recent_ids p fuel latest offset with
        | None => None
        | Some identifiers =>
            (λ r, Return r.1 r.2)
              <$> ItemService_List net W identifiers None sched
        end
  end.

(** ** Vocabulary of the properties *)

(** *** Projection *)

Definition known_types : list string :=
  [StoryType; CommentType; AskType; JobType; PollType; PollOptionType].

Definition is_mismatch {C : Type} (o : outcome C) : bool :=
  match o with
  | Return _ (Some (ErrMismatchedTypes _ _)) => true
  | _ => false
  end.

Definition is_unsupported {C : Type} (o : outcome C) : bool :=
  match o with
  | Return _ (Some (ErrUnsupportedType _)) => true
  | _ => false
  end.

(** *** Sorting *)

(** The laws of the three comparisons behind [cmp.Compare]. *)
Class OrderedLaws (K : Type) `{Ordered K} := {
  ordered_refl : ∀ x : K, ordered_compare x x = Eq;
  ordered_eq : ∀ x y : K, ordered_compare x y = Eq → x = y;
  ordered_antisym :
    ∀ x y : K, ordered_compare y x = CompOpp (ordered_compare x y);
  ordered_trans :
    ∀ x y z : K,
      ordered_compare x y = Lt → ordered_compare y z = Lt →
      ordered_compare x z = Lt
}.

(** [a] does not come after [b] under the key. *)
Definition key_le {E K : Type} `{Ordered K} (key : E → K) (a b : E) : Prop :=
  ordered_compare (key a) (key b) ≠ Gt.

(** [after] is [before] sorted by [key] in the direction [order], and
    stably: the items of every key value are, in [after], in the order they
    had in [before]. *)
Definition stably_sorted {E K : Type} `{Ordered K} `{EqDecision K}
    (key : E → K) (order : Order) (before after : list E) : Prop :=
  after ≡ₚ before
  ∧ StronglySorted
      (λ a b, if order =? Ascending then key_le key a b else key_le key b a)
      after
  ∧ ∀ k : K, filter (λ x, key x = k) after = filter (λ x, key x = k) before.

(** *** [List] *)

(** The states a call of [List] can be in. *)
Definition reachable (c : Call) (s : state) : Prop :=
  ∃ sched, run c sched (List_start c) = Some s.

(** The state a schedule leads to (the start state when the schedule
    cannot be taken). *)
Definition after (c : Call) (sched : list action) : state :=
  default (List_start c) (run c sched (List_start c)).

(** The call returned [items] and [err]. *)
Definition returns (s : state) (items : option (list Item))
  (err : option error) : Prop :=
  main s = Returned items err.

(** No transition of the goroutines of the call is enabled; only the
    caller can still cancel its context. *)
Definition blocked (c : Call) (s : state) : Prop :=
  ∀ a, a ≠ ActCancel → step c a s = None.

(** However the run goes on from [s], the call does not return. *)
Definition never_returns (c : Call) (s : state) : Prop :=
  ∀ sched s', run c sched s = Some s' → ∀ items err, ¬ returns s' items err.

(** The identifiers the main goroutine has not handed to [g.Go] yet. *)
Definition pending (s : state) : list uint :=
  match main s with
  | AtGo rest => rest
  | _ => []
  end.

(** [g.Wait] has returned. *)
Definition past_wait (s : state) : bool :=
  match main s with
  | AtGo _ => false
  | _ => true
  end.

(** The record a task hands to the collector for [id], if any. *)
Definition forwarded (c : Call) (id : uint) : option Item :=
  match Get (upstream c) id with
  | inl item => if forwards (filter_ c) item then Some item else None
  | inr _ => None
  end.

(** [item] was fetched and forwarded for a requested identifier. *)
Definition fetched (c : Call) (item : Item) : Prop :=
  ∃ id, id ∈ ids c ∧ forwarded c id = Some item.

(** A task works on a requested identifier, and the item it holds is the
    one [Get] answered for it. *)
Definition task_ok (c : Call) (t : task) : Prop :=
  match t with
  | Fetching id => id ∈ ids c
  | Sending id item => id ∈ ids c ∧ forwarded c id = Some item
  end.

(** [e] is what [Get] answers for a requested identifier while the context
    is live. *)
Definition natural_error (c : Call) (e : error) : Prop :=
  ∃ id, id ∈ ids c ∧ Get (upstream c) id = inr e.

(** The first error in the order of [l]. *)
Fixpoint first_error (c : Call) (l : list uint) : option error :=
  match l with
  | [] => None
  | id :: l =>
      match Get (upstream c) id with
      | inr err => Some err
      | inl _ => first_error c l
      end
  end.

(** Every record that a task forwards carries the identifier it was
    requested under. *)
Definition faithful (c : Call) : Prop :=
  ∀ id item, id ∈ ids c → forwarded c id = Some item → Item_ID item = id.

(** The predicate accepts [item], or there is none. *)
Definition accepted (filter : option (Item → bool)) (item : Item) : Prop :=
  filter = None ∨ ∃ f, filter = Some f ∧ f item = true.

(** The transitions of a group without a concurrency cap: [g.Go] never
    waits for a slot. *)
Definition step_unbounded (c : Call) (a : action) (s : state) : option state :=
  match a with
  | ActGo =>
      match main s with
      | AtGo (id :: rest) =>
          Some (set_main (AtGo rest) (set_tasks (tasks s ++ [Fetching id]) s))
      | _ => None
      end
  | _ => step c a s
  end.

(** The schedule that runs the goroutines one after the other: every task
    is started, fetches, sends and is received before the next one starts.
    Once a task has failed the context is done, and the round trips of the
    tasks started after that are cut short in [client.Do].  Then [g.Wait]
    returns and, when no task failed, the collector sees the closed channel
    and the call returns.  [done] tells whether a task has failed. *)
Fixpoint turns (c : Call) (done : bool) (l : list uint) : list action :=
  match l with
  | [] => []
  | id :: l =>
      if done then [ActGo; ActGet 0 CanceledInSend] ++ turns c true l
      else
        match Get (upstream c) id with
        | inr _ => [ActGo; ActGet 0 Served] ++ turns c true l
        | inl item =>
            (if forwards (filter_ c) item
             then [ActGo; ActGet 0 Served; ActSend 0; ActRecv]
             else [ActGo; ActGet 0 Served])
            ++ turns c false l
        end
  end.

Definition sequential (c : Call) : list action :=
  match ids c with
  | [] => []
  | _ :: _ =>
      turns c false (ids c)
      ++ match first_error c (ids c) with
         | Some _ => [ActWait]
         | None => [ActWait; ActRecvClosed; ActReturn]
         end
  end.

(** What the turns for [l] leave behind: the errors of the tasks, the
    contents of [itemsMap], and whether a task has failed. *)
Fixpoint sequential_errors (c : Call) (done : bool) (l : list uint)
  : list error :=
  match l with
  | [] => []
  | id :: l =>
      if done
      then ErrSendRequest ContextCanceled :: sequential_errors c true l
      else
        match Get (upstream c) id with
        | inr err => err :: sequential_errors c true l
        | inl _ => sequential_errors c false l
        end
  end.

Fixpoint sequential_map (c : Call) (done : bool) (l : list uint)
    (m : gmap uint Item) : gmap uint Item :=
  match l with
  | [] => m
  | id :: l =>
      if done then m
      else
        match Get (upstream c) id with
        | inr _ => m
        | inl item =>
            sequential_map c false l
              (if forwards (filter_ c) item
               then <[Item_ID item := item]> m else m)
        end
  end.

Fixpoint sequential_done (c : Call) (done : bool) (l : list uint) : bool :=
  match l with
  | [] => done
  | id :: l =>
      if done then true
      else
        match Get (upstream c) id with
        | inr _ => true
        | inl _ => sequential_done c false l
        end
  end.

(** The state between two turns of the sequential schedule. *)
Definition between_turns (rest : list uint) (es : list error)
    (m : gmap uint Item) (done : bool) : state :=
  {| main := AtGo rest; tasks := []; errs := es; ctx_done := done;
     caller_canceled := false; processed := []; processed_closed := false;
     collecting := true; itemsMap := m |}.

(** *** Projection: the dynamic type of an interface value *)

(** The method [Type()] called on a [Convertible] interface value: the
    method of the dynamic type. *)
Definition ConvertibleValue_Type (v : ConvertibleValue) : string :=
  match v with
  | OfStory s => Convertible_Type s
  | OfComment c => Convertible_Type c
  | OfAsk a => Convertible_Type a
  | OfJob j => Convertible_Type j
  | OfPoll p => Convertible_Type p
  | OfPollOption o => Convertible_Type o
  end.

(** The embedded [baseItem] of the value. *)
Definition ConvertibleValue_base (v : ConvertibleValue) : baseItem :=
  match v with
  | OfStory s => Story_base s
  | OfComment c => Comment_base c
  | OfAsk a => Ask_base a
  | OfJob j => Job_base j
  | OfPoll p => Poll_base p
  | OfPollOption o => PollOption_base o
  end.

(** *** Sorting: the common shape of the four sorters *)

(** The body the four sorters share, for the key [key]. *)
Definition sort_by {S K : Type} `{Sortable S} `{Ordered K} (key : S → K)
    (items : list S) (order : Order) : list S * list Printed :=
  if order =? Ascending then
    (Sort items (λ a b, cmp_Compare (key a) (key b)), [])
  else if order =? Descending then
    (Sort items (λ a b, cmp_Compare (key b) (key a)), [])
  else (items, [InvalidSortOrder order]).

(** Projecting with [ToList] and sorting with one of the four sorters can
    be done in either order. *)
Definition ToList_commutes_with_sorters (C : Type) `{Convertible C}
    `{Sortable C} : Prop :=
  ∀ (items : list Item) (order : Order),
    ToList (C := C) (SortID items order).1
    = (λ l, (SortID l order).1) <$> ToList items
    ∧ ToList (C := C) (SortScore items order).1
      = (λ l, (SortScore l order).1) <$> ToList items
    ∧ ToList (C := C) (SortTime items order).1
      = (λ l, (SortTime l order).1) <$> ToList items
    ∧ ToList (C := C) (SortType items order).1
      = (λ l, (SortType l order).1) <$> ToList items.

(** The timestamp [UnmarshalJSON] stores for [sec] epoch seconds. *)
Definition Timestamp_of_seconds (sec : Z) : Timestamp :=
  {| Timestamp_Time := time_Unix sec 0 |}.

(** The epoch seconds whose nanosecond count fits an [int64]. *)
Definition nanoseconds_fit (sec : Z) : Prop :=
  -9223372036 ≤ sec ≤ 9223372036.

(** [a] may come before [b] in the direction [order] of the key. *)
Definition dir_le {E K : Type} `{Ordered K} (order : Order) (key : E → K)
    (a b : E) : Prop :=
  if order =? Ascending then key_le key a b else key_le key b a.

(** The lexicographic order of two keys, each in its direction: the first
    key decides, and the second one among items that agree on the
    first. *)
Definition lex_le {E K1 K2 : Type} `{Ordered K1} `{Ordered K2}
    (order1 : Order) (key1 : E → K1) (order2 : Order) (key2 : E → K2)
    (a b : E) : Prop :=
  (key1 a ≠ key1 b ∧ dir_le order1 key1 a b)
  ∨ (key1 a = key1 b ∧ dir_le order2 key2 a b).

(** A state in which the derived context is live: tasks are still being
    started, nothing has failed, and the collector is receiving. *)
Definition live_state (rest : list uint) (ts : list task) (buf : list Item)
    (m : gmap uint Item) : state :=
  {| main := AtGo rest; tasks := ts; errs := []; ctx_done := false;
     caller_canceled := false; processed := buf; processed_closed := false;
     collecting := true; itemsMap := m |}.

(** *** The services *)

(** [Recent] asks for the identifiers from [latest - offset] up to
    [latest], or for none when [offset] exceeds [latest]. *)
Definition Recent_window (latest offset : uint) : list uint :=
  if (offset <=? latest)%N
  then (λ k, latest - offset + N.of_nat k)%N <$> seq 0 (S (N.to_nat offset))
  else [].


(** What a typed method of the user service returns for the type tagged
    [tag]: an error and no list, or the list [List] returned, converted
    item by item; all of those items have the tag and were submitted by
    the user, and none is lost in the conversion. *)
Definition typed_items_sound {C : Type} (net : Network) (W : Z)
    (username : string) (tag : string) (convert : Item → C)
    (sched : list action) (r : option (outcome (option (list C)))) : Prop :=
  ∀ o, r = Some o →
    (∃ err, o = Return None (Some err))
    ∨ ∃ user items,
        UserService_Get net username = inl user
        ∧ UserService_Items net W username
            (Some (λ item, bool_decide (Item_Type item = tag))) sched
          = Some (Some items, None)
        ∧ Forall (λ item, Item_Type item = tag) items
        ∧ sublist (Item_ID <$> items) (User_Submitted user)
        ∧ o = Return (Some (convert <$> items)) None.

(** What a typed listing of the live service returns for the type tagged
    [tag]: an error and no list, or the list [List] returned with the items
    of other types left out, whatever the predicate said about them, and
    the others converted. *)
Definition typed_listing_sound {C : Type} (net : Network) (W : Z)
    (identifiers : list uint + error) (predicate : option (Item → bool))
    (tag : string) (convert : Item → C) (sched : list action)
    (r : option (outcome (option (list C)))) : Prop :=
  ∀ o, r = Some o →
    (∃ err, o = Return None (Some err))
    ∨ ∃ l items,
        identifiers = inl l
        ∧ ItemService_List net W l predicate sched = Some (Some items, None)
        ∧ o = Return
                (Some (convert <$> filter (λ item, Item_Type item = tag) items))
                None.

(** The largest [uint] of the platform. *)
Definition uint_max (p : Platform) : N := Z.to_N (2 ^ uint_bits p - 1).



(** ** Sample data *)

(** An item with the given identifier and type tag. *)
Definition toy_item (id : uint) (type : string) : Item :=
  {| Item_base := {| ID := id; By := "pg"; Score := 1;
                     Time_ := epoch_instant; Type_ := type |};
     Item_Descendants := 0; Item_Parts := []; Item_Parent := 0%N;
     Item_Kids := []; Item_Text := ""; Item_Title := ""; Item_Poll := 0%N;
     Item_URL := "" |}.

(** A toy upstream: the body for item [n] is the single byte [n], the
    decoder reads the byte back as the identifier and makes bytes below 128
    stories and the others comments; nothing is escaped.  [absent] items
    answer [null], [broken] ones fail in [client.Do]. *)
Definition toy_unmarshal (body : string) : option Item :=
  match body with
  | String a EmptyString =>
      let n := Ascii.N_of_ascii a in
      Some (toy_item n (if (n <? 128)%N then StoryType else CommentType))
  | _ => None
  end.

Definition toy_upstream (absent broken : list uint) : Upstream :=
  {| roundtrip := λ id,
       if bool_decide (id ∈ absent) then Body "null"
       else if bool_decide (id ∈ broken) then SendFailed Failure
       else Body (String (Ascii.ascii_of_N id) EmptyString);
     json_Unmarshal_Item := toy_unmarshal;
     html_UnescapeString := λ s, s |}.

(** An upstream that is off by one: the request for item [n] is answered
    with the record of item [n + 1]. *)
Definition shifted_upstream : Upstream :=
  {| roundtrip := λ id, Body (String (Ascii.ascii_of_N (id + 1)) EmptyString);
     json_Unmarshal_Item := toy_unmarshal;
     html_UnescapeString := λ s, s |}.

(** The predicate of [UserService.Stories]. *)
Definition is_story (item : Item) : bool :=
  bool_decide (Item_Type item = StoryType).

(** A type of another package that implements [Convertible] with a tag
    of its own. *)
Inductive Link := MkLink.

Definition Link_Convertible : Convertible Link :=
  {| Convertible_Type := λ _, "link";
     Convertible_zero := MkLink;
     Convertible_assert := λ _, None |}.

(** Items for the sorting examples: a score and a label that tells ties
    apart. *)
Definition scored (score : Z) (label : string) : baseItem :=
  {| ID := 0%N; By := label; Score := score; Time_ := epoch_instant;
     Type_ := StoryType |}.

(** Ten identifiers under a cap of two workers. *)
Definition ten_ids_two_workers : Call :=
  {| upstream := toy_upstream [] [];
     ids := [1; 2; 3; 4; 5; 6; 7; 8; 9; 10]%N;
     filter_ := None;
     maxWorkers := 2 |}.

(** One story, no predicate, no cap. *)
Definition one_story : Call :=
  {| upstream := toy_upstream [] []; ids := [1%N]; filter_ := None;
     maxWorkers := maxWorkers_default |}.

(** The task sends its record, [g.Wait] returns and cancels the derived
    context, and the collector's [select] takes [<-ctx.Done()] although the
    record waits in [processed]. *)
Definition losing_schedule : list action :=
  [ActGo; ActGet 0 Served; ActSend 0; ActWait; ActCtxDone; ActReturn].

(** Stories and comments under a predicate and a cap of two workers:
    items 5 and 7 are stories, item 200 is a comment. *)
Definition stories_of_three : Call :=
  {| upstream := toy_upstream [] []; ids := [5; 200; 7]%N;
     filter_ := Some is_story; maxWorkers := 2 |}.

(** The tasks for items 5 and 200 run and the record of item 5 is
    received; the task for item 7 sends its record, [g.Wait] returns and
    cancels the derived context, and the collector's [select] takes
    [<-ctx.Done()] although the record of item 7 waits in [processed]. *)
Definition losing_story_schedule : list action :=
  [ActGo; ActGo; ActGet 0 Served; ActSend 0; ActRecv; ActGet 0 Served;
   ActGo; ActGet 0 Served; ActSend 0; ActWait; ActCtxDone; ActReturn].

(** Twelve identifiers, the first of which fails in [client.Do]. *)
Definition twelve_ids_first_broken : Call :=
  {| upstream := toy_upstream [] [1%N];
     ids := [1; 2; 3; 4; 5; 6; 7; 8; 9; 10; 11; 12]%N;
     filter_ := None;
     maxWorkers := maxWorkers_default |}.

(** All twelve tasks start; the eleven good ones get their records; the
    first one fails, which cancels the context; the collector leaves
    through [<-ctx.Done()]; ten tasks fill [processed]. *)
Definition hanging_schedule : list action :=
  replicate 12 ActGo
  ++ map (λ i, ActGet i Served) (seq 1 11)
  ++ [ActGet 0 Served; ActCtxDone]
  ++ replicate 10 (ActSend 0).

(** Three identifiers, the second of which the upstream does not have. *)
Definition second_of_three_absent : Call :=
  {| upstream := toy_upstream [2%N] []; ids := [1; 2; 3]%N; filter_ := None;
     maxWorkers := maxWorkers_default |}.

(** One identifier, stories only, against the upstream that is off by
    one. *)
Definition shifted_story : Call :=
  {| upstream := shifted_upstream; ids := [1%N]; filter_ := Some is_story;
     maxWorkers := maxWorkers_default |}.

(** Two identifiers, no predicate, against the upstream that is off by
    one: the request for item 1 is answered with the record of item 2. *)
Definition shifted_pair : Call :=
  {| upstream := shifted_upstream; ids := [1; 2]%N; filter_ := None;
     maxWorkers := maxWorkers_default |}.

(** One story after [SetMaxWorkers(0)]. *)
Definition one_story_zero_workers : Call := SetMaxWorkers 0 one_story.

(** Items for the sorting examples: an identifier and a time in epoch
    seconds. *)
Definition timed (id : uint) (sec : Z) : baseItem :=
  {| ID := id; By := "pg"; Score := 1; Time_ := Timestamp_of_seconds sec;
     Type_ := StoryType |}.

(** A score and a time in epoch seconds. *)
Definition scored_at (score sec : Z) : baseItem :=
  {| ID := 0%N; By := "pg"; Score := score; Time_ := Timestamp_of_seconds sec;
     Type_ := StoryType |}.

(** No identifiers, after [SetMaxWorkers(0)]. *)
Definition no_ids_zero_workers : Call :=
  {| upstream := toy_upstream [] []; ids := []; filter_ := None;
     maxWorkers := 0 |}.

(** A toy network: the user [pg] submitted the items 5, 200 and 7; items
    5, 6 and 7 are stories and item 200 is a comment; the newest item is 7;
    every listing answers 5, 200, 7.  Bodies are decoded as by
    [toy_unmarshal]; whatever else is requested does not exist. *)
Definition toy_pages : list (string * string) :=
  [("/user/pg", "pg"); ("/maxitem", "max"); ("/newstories", "ids");
   ("/topstories", "ids"); ("/beststories", "ids"); ("/askstories", "ids");
   ("/showstories", "ids"); ("/jobstories", "ids"); ("/updates", "ids");
   ("/item/5", String (Ascii.ascii_of_N 5) EmptyString);
   ("/item/6", String (Ascii.ascii_of_N 6) EmptyString);
   ("/item/7", String (Ascii.ascii_of_N 7) EmptyString);
   ("/item/200", String (Ascii.ascii_of_N 200) EmptyString)].

Definition toy_network : Network :=
  {| http_Do := λ url,
       match list_find (λ page, baseURL +:+ page.1 +:+ ".json" = url) toy_pages
       with
       | Some (_, page) => Body page.2
       | None => Body "null"
       end;
     json_Item := toy_unmarshal;
     json_User := λ body,
       if decide (body = "pg")
       then Some {| User_ID := "pg"; User_About := "";
                    User_Created := epoch_instant; User_Karma := 1;
                    User_Submitted := [5; 200; 7]%N |}
       else None;
     json_uint := λ body, if decide (body = "max") then Some 7%N else None;
     json_uints := λ body,
       if decide (body = "ids") then Some [5; 200; 7]%N else None;
     json_Update := λ body,
       if decide (body = "ids")
       then Some {| Update_Items := [5; 200; 7]%N; Update_Profiles := ["pg"] |}
       else None;
     html_Unescape := λ s, s |}.

(** A 64-bit platform on which a slice of up to 2^45 [uint]s can be
    made. *)
Definition toy_platform : Platform :=
  {| uint_bits := 64; makeslice_max := 2 ^ 45 |}.

(** The call of [List] that a method makes for the identifiers 5, 200, 7
    of the toy network. *)
Definition toy_call (filter : option (Item → bool)) : Call :=
  {| upstream := ItemService_upstream toy_network; ids := [5; 200; 7]%N;
     filter_ := filter; maxWorkers := maxWorkers_default |}.


(** The call of [List] that [Recent] makes on the toy network for the
    offset 2: the newest item is 7. *)
Definition toy_recent_call : Call :=
  {| upstream := ItemService_upstream toy_network; ids := [5; 6; 7]%N;
     filter_ := None; maxWorkers := maxWorkers_default |}.

(** * Properties *)

(** ** Projection *)

Lemma converters_lookup_None (t : string) :
  converters !! t = None ↔ t ∉ known_types.
Proof.
  unfold converters, known_types.
  rewrite !lookup_insert_None, lookup_empty, !not_elem_of_cons.
  split.
  - intros [[[[[[_ ?] ?] ?] ?] ?] ?]. repeat split; try congruence.
    apply not_elem_of_nil.
  - intros (? & ? & ? & ? & ? & ? & _). repeat split; congruence.
Qed.

Lemma To_known {C : Type} `{Convertible C} (item : Item) (tag : string)
    (fn : Item → ConvertibleValue) (narrow : Item → C) :
  Convertible_Type (Convertible_zero : C) = tag →
  converters !! tag = Some fn →
  (∀ i, Convertible_assert (fn i) = Some (narrow i)) →
  To item =
    if decide (Item_Type item = tag) then Return (narrow item) None
    else Return Convertible_zero
           (Some (ErrMismatchedTypes tag (Item_Type item))).
Proof.
  intros Htag Hfn Hassert. unfold To. rewrite Htag.
  destruct (decide (Item_Type item = tag)) as [->|Hne].
  - destruct (decide (tag ≠ tag)); [done|]. by rewrite Hfn, Hassert.
  - by destruct (decide (Item_Type item ≠ tag)).
Qed.

(** C8 as stated fails for a tag that matches no known variant: an item
    tagged ["link"], projected to [Story], gets the mismatched-types error
    and not the unsupported-type error, because [To] tests the mismatch
    first. *)
Lemma To_unknown_tag_is_mismatch :
  (Item_Type (toy_item 7%N "link") ∉ known_types)
  ∧ To (C := Story) (toy_item 7%N "link")
    = Return Convertible_zero (Some (ErrMismatchedTypes StoryType "link"))
  ∧ is_unsupported (To (C := Story) (toy_item 7%N "link")) = false.
Proof.
  split_and!; [|reflexivity..].
  apply converters_lookup_None. vm_compute. reflexivity.
Qed.

(** C8, as the code has it.  For each of the six variants [To] returns the
    mismatched-types error, with the zero value, exactly when the item's
    tag differs from the tag of the variant, whether or not the item's tag
    is a known one; otherwise it succeeds and returns, without error, the
    variant whose fields are the item's fields of the same names.  For
    these six targets it never returns the unsupported-type error and
    never panics.  The second test of [To] is left to a [Convertible] type
    from elsewhere: for every type parameter the unsupported-type error is
    returned exactly when the tags agree and the tag is none of the six
    keys of [converters]. *)
Theorem To_mismatch_or_narrowed (item : Item) :
  To (C := Story) item
  = (if decide (Item_Type item = StoryType)
     then Return {| Story_base := Item_base item;
                    Story_Descendants := Item_Descendants item;
                    Story_Kids := Item_Kids item;
                    Story_Text := Item_Text item;
                    Story_Title := Item_Title item;
                    Story_URL := Item_URL item |} None
     else Return Convertible_zero
            (Some (ErrMismatchedTypes StoryType (Item_Type item))))
  ∧ To (C := Comment) item
    = (if decide (Item_Type item = CommentType)
       then Return {| Comment_base := Item_base item;
                      Comment_Kids := Item_Kids item;
                      Comment_Parent := Item_Parent item;
                      Comment_Text := Item_Text item |} None
       else Return Convertible_zero
              (Some (ErrMismatchedTypes CommentType (Item_Type item))))
  ∧ To (C := Ask) item
    = (if decide (Item_Type item = AskType)
       then Return {| Ask_base := Item_base item;
                      Ask_Descendants := Item_Descendants item;
                      Ask_Kids := Item_Kids item;
                      Ask_Text := Item_Text item;
                      Ask_Title := Item_Title item |} None
       else Return Convertible_zero
              (Some (ErrMismatchedTypes AskType (Item_Type item))))
  ∧ To (C := Job) item
    = (if decide (Item_Type item = JobType)
       then Return {| Job_base := Item_base item;
                      Job_Text := Item_Text item;
                      Job_Title := Item_Title item;
                      Job_URL := Item_URL item |} None
       else Return Convertible_zero
              (Some (ErrMismatchedTypes JobType (Item_Type item))))
  ∧ To (C := Poll) item
    = (if decide (Item_Type item = PollType)
       then Return {| Poll_base := Item_base item;
                      Poll_Descendants := Item_Descendants item;
                      Poll_Kids := Item_Kids item;
                      Poll_Parts := Item_Parts item;
                      Poll_Text := Item_Text item;
                      Poll_Title := Item_Title item |} None
       else Return Convertible_zero
              (Some (ErrMismatchedTypes PollType (Item_Type item))))
  ∧ To (C := PollOption) item
    = (if decide (Item_Type item = PollOptionType)
       then Return {| PollOption_base := Item_base item;
                      PollOption_Poll := Item_Poll item;
                      PollOption_Text := Item_Text item |} None
       else Return Convertible_zero
              (Some (ErrMismatchedTypes PollOptionType (Item_Type item))))
  ∧ is_unsupported (To (C := Story) item) = false
  ∧ is_unsupported (To (C := Comment) item) = false
  ∧ is_unsupported (To (C := Ask) item) = false
  ∧ is_unsupported (To (C := Job) item) = false
  ∧ is_unsupported (To (C := Poll) item) = false
  ∧ is_unsupported (To (C := PollOption) item) = false
  ∧ ∀ (C : Type) (HC : Convertible C),
      let tag := Convertible_Type (Convertible_zero : C) in
      (is_mismatch (To (C := C) item) = true ↔ Item_Type item ≠ tag)
      ∧ (is_unsupported (To (C := C) item) = true
         ↔ Item_Type item = tag ∧ Item_Type item ∉ known_types).
Proof.
  pose proof (To_known item StoryType (λ i, OfStory (ToStory i)) ToStory
                eq_refl eq_refl (λ _, eq_refl)) as HStory.
  pose proof (To_known item CommentType (λ i, OfComment (ToComment i))
                ToComment eq_refl eq_refl (λ _, eq_refl)) as HComment.
  pose proof (To_known item AskType (λ i, OfAsk (ToAsk i)) ToAsk
                eq_refl eq_refl (λ _, eq_refl)) as HAsk.
  pose proof (To_known item JobType (λ i, OfJob (ToJob i)) ToJob
                eq_refl eq_refl (λ _, eq_refl)) as HJob.
  pose proof (To_known item PollType (λ i, OfPoll (ToPoll i)) ToPoll
                eq_refl eq_refl (λ _, eq_refl)) as HPoll.
  pose proof (To_known item PollOptionType
                (λ i, OfPollOption (ToPollOption i)) ToPollOption
                eq_refl eq_refl (λ _, eq_refl)) as HPollOption.
  split_and!; try assumption.
  - rewrite HStory. by destruct (decide (Item_Type item = StoryType)).
  - rewrite HComment. by destruct (decide (Item_Type item = CommentType)).
  - rewrite HAsk. by destruct (decide (Item_Type item = AskType)).
  - rewrite HJob. by destruct (decide (Item_Type item = JobType)).
  - rewrite HPoll. by destruct (decide (Item_Type item = PollType)).
  - rewrite HPollOption. by destruct (decide (Item_Type item = PollOptionType)).
  - intros C HC tag. unfold To. fold tag.
    destruct (decide (Item_Type item ≠ tag)) as [Hne|Heq]; simpl.
    + split; [done|]. split; [done|]. by intros [? _].
    + apply dec_stable in Heq.
      destruct (converters !! Item_Type item) as [fn|] eqn:Hfn.
      * assert (Item_Type item ∈ known_types) as Hin.
        { destruct (decide (Item_Type item ∈ known_types)) as [|Hn]; [done|].
          apply converters_lookup_None in Hn. congruence. }
        destruct (Convertible_assert (fn item)); simpl;
          (split; [done|]); (split; [done|]); by intros [_ ?].
      * apply converters_lookup_None in Hfn. simpl. by split.
Qed.

(** The outcomes at concrete inputs: a story projected to a [Story]
    succeeds with the story's fields, a comment projected to a [Story] is
    a mismatch, and a ["link"] item projected to a foreign type tagged
    ["link"] is unsupported. *)
Lemma To_mismatch_or_narrowed_witness :
  To (C := Story) (toy_item 5%N StoryType)
  = Return {| Story_base := Item_base (toy_item 5%N StoryType);
              Story_Descendants := 0; Story_Kids := []; Story_Text := "";
              Story_Title := ""; Story_URL := "" |} None
  ∧ To (C := Story) (toy_item 6%N CommentType)
    = Return Convertible_zero (Some (ErrMismatchedTypes StoryType CommentType))
  ∧ is_unsupported (@To Link Link_Convertible (toy_item 7%N "link")) = true.
Proof.
  split_and!.
  - exact (proj1 (To_mismatch_or_narrowed (toy_item 5%N StoryType))).
  - exact (proj1 (To_mismatch_or_narrowed (toy_item 6%N CommentType))).
  - destruct (To_mismatch_or_narrowed (toy_item 7%N "link"))
      as (_ & _ & _ & _ & _ & _ & _ & _ & _ & _ & _ & _ & Hany).
    apply (Hany Link Link_Convertible). split; [reflexivity|].
    apply converters_lookup_None. vm_compute. reflexivity.
Defined.

(** [ToList] on a story, a comment and a story, for stories: the two
    stories, in their order. *)
Example ToList_stories :
  ToList (C := Story)
    [toy_item 5%N StoryType; toy_item 6%N CommentType; toy_item 7%N StoryType]
  = Some [ToStory (toy_item 5%N StoryType); ToStory (toy_item 7%N StoryType)].
Proof. reflexivity. Qed.

(** ** Timestamp *)

Lemma wrap64_id (z : Z) : in_int64 z = true → wrap64 z = z.
Proof.
  unfold in_int64, int64_min, int64_max, wrap64. intros H.
  apply andb_true_iff in H as [H1 H2].
  apply Z.leb_le in H1, H2.
  rewrite Z.mod_small; lia.
Qed.

Lemma wrap64_add_l (a b : Z) : wrap64 (wrap64 a + b) = wrap64 (a + b).
Proof.
  unfold wrap64.
  replace ((a + 2 ^ 63) mod 2 ^ 64 - 2 ^ 63 + b + 2 ^ 63)
    with ((a + 2 ^ 63) mod 2 ^ 64 + b) by lia.
  rewrite Z.add_mod_idemp_l by lia.
  do 2 f_equal. lia.
Qed.

Lemma time_Unix_whole (sec : Z) : time_Unix sec 0 = unixTime sec 0.
Proof. reflexivity. Qed.

Lemma Time_Unix_time_Unix (sec : Z) :
  in_int64 sec = true → Time_Unix (time_Unix sec 0) = sec.
Proof.
  intros H. rewrite time_Unix_whole.
  unfold Time_Unix, Time_unixSec, Time_sec, unixTime. simpl.
  rewrite wrap64_add_l.
  replace (sec + unixToInternal + internalToUnix) with sec
    by (unfold internalToUnix; lia).
  by apply wrap64_id.
Qed.

Lemma Time_IsZero_time_Unix (sec : Z) :
  in_int64 sec = true →
  Time_IsZero (time_Unix sec 0) = true ↔ sec = internalToUnix.
Proof.
  intros H. rewrite time_Unix_whole.
  unfold Time_IsZero, Time_sec, Time_nsec, unixTime. simpl.
  rewrite andb_true_r, Z.eqb_eq.
  unfold in_int64, int64_min, int64_max in H.
  apply andb_true_iff in H as [H1 H2]. apply Z.leb_le in H1, H2.
  unfold wrap64, internalToUnix.
  assert (unixToInternal = 62135596800) as -> by reflexivity.
  split.
  - intros Hz.
    destruct (Z_lt_le_dec (sec + 62135596800) (2 ^ 63)) as [Hlt|Hge].
    + rewrite Z.mod_small in Hz by lia. lia.
    + replace (sec + 62135596800 + 2 ^ 63)
        with (sec + 62135596800 - 2 ^ 63 + 1 * 2 ^ 64) in Hz by lia.
      rewrite Z.mod_add, Z.mod_small in Hz by lia. lia.
  - intros ->. reflexivity.
Qed.

(** C5, as the code has it.  For every epoch-seconds value [n] of an
    [int64], [UnmarshalJSON] succeeds and stores [time.Unix(n, 0)], the
    instant [n] seconds after the epoch: its [Unix()] is [n] again.  The
    stored value is unset ([IsZero]) only for [n = -62135596800] and is
    never the zero [Timestamp]; for [n = 0], as for the literal [null], it
    is the epoch-zero instant itself.  The unset state is the zero [Timestamp] that a field keeps
    when its member is absent, and that one differs from the epoch-zero
    instant. *)
Theorem Timestamp_UnmarshalJSON_stores_instant (t : Timestamp) (n : Z) :
  in_int64 n = true →
  ∃ t',
    Timestamp_UnmarshalJSON t (JSONInteger n) = (t', None)
    ∧ Timestamp_Time t' = time_Unix n 0
    ∧ Time_Unix (Timestamp_Time t') = n
    ∧ (Timestamp_IsZero t' = true ↔ n = internalToUnix)
    ∧ t' ≠ Timestamp_zero
    ∧ (n = 0 → t' = epoch_instant ∧ Timestamp_IsZero t' = false)
    ∧ Timestamp_UnmarshalJSON t JSONNull = (epoch_instant, None)
    ∧ decode_Timestamp_member Timestamp_zero None = (Timestamp_zero, None)
    ∧ Timestamp_IsZero Timestamp_zero = true
    ∧ Timestamp_zero ≠ epoch_instant.
Proof.
  intros Hn. exists {| Timestamp_Time := time_Unix n 0 |}.
  unfold Timestamp_UnmarshalJSON, json_Unmarshal_int64. rewrite Hn.
  repeat split; try done.
  - by apply Time_Unix_time_Unix.
  - by apply Time_IsZero_time_Unix.
  - by apply Time_IsZero_time_Unix.
  - by subst n.
  - by subst n.
Qed.

Lemma Timestamp_UnmarshalJSON_stores_instant_witness :
  ∃ t',
    Timestamp_UnmarshalJSON Timestamp_zero (JSONInteger 1160418111) = (t', None)
    ∧ Timestamp_Time t' = time_Unix 1160418111 0
    ∧ Time_Unix (Timestamp_Time t') = 1160418111
    ∧ (Timestamp_IsZero t' = true ↔ 1160418111 = internalToUnix)
    ∧ t' ≠ Timestamp_zero
    ∧ (1160418111 = 0 → t' = epoch_instant ∧ Timestamp_IsZero t' = false)
    ∧ Timestamp_UnmarshalJSON Timestamp_zero JSONNull = (epoch_instant, None)
    ∧ decode_Timestamp_member Timestamp_zero None = (Timestamp_zero, None)
    ∧ Timestamp_IsZero Timestamp_zero = true
    ∧ Timestamp_zero ≠ epoch_instant.
Proof.
  apply (Timestamp_UnmarshalJSON_stores_instant Timestamp_zero 1160418111).
  reflexivity.
Defined.

(** C5 as stated fails at the input [0]: what [UnmarshalJSON] stores is the
    epoch-zero instant, not an unset value, and the same holds for the
    literal [null]. *)
Lemma Timestamp_UnmarshalJSON_zero_is_epoch :
  Timestamp_UnmarshalJSON Timestamp_zero (JSONInteger 0) = (epoch_instant, None)
  ∧ Timestamp_UnmarshalJSON Timestamp_zero JSONNull = (epoch_instant, None)
  ∧ decode_Timestamp_member Timestamp_zero (Some (JSONInteger 0))
    = (epoch_instant, None)
  ∧ Timestamp_IsZero epoch_instant = false.
Proof. repeat split. Qed.

(** ** Sorting *)

Global Instance uint_OrderedLaws : OrderedLaws uint.
Proof.
  split; unfold ordered_compare, uint_Ordered.
  - apply N.compare_refl.
  - apply N.compare_eq.
  - intros x y. apply N.compare_antisym.
  - intros x y z. rewrite !N.compare_lt_iff. lia.
Qed.

Global Instance int_OrderedLaws : OrderedLaws Z.
Proof.
  split; unfold ordered_compare, int_Ordered.
  - apply Z.compare_refl.
  - apply Z.compare_eq.
  - intros x y. apply Z.compare_antisym.
  - intros x y z. rewrite !Z.compare_lt_iff. lia.
Qed.

Lemma String_compare_refl (s : string) : String.compare s s = Eq.
Proof.
  induction s as [|a s IH]; simpl; [done|].
  unfold Ascii.compare. by rewrite N.compare_refl.
Qed.

Lemma String_compare_trans (x y z : string) :
  String.compare x y = Lt → String.compare y z = Lt → String.compare x z = Lt.
Proof.
  revert y z. induction x as [|a x IH]; intros [|b y] [|c z]; simpl; try done.
  unfold Ascii.compare.
  destruct (N.compare_spec (Ascii.N_of_ascii a) (Ascii.N_of_ascii b)) as [Hab|Hab|Hab];
    destruct (N.compare_spec (Ascii.N_of_ascii b) (Ascii.N_of_ascii c)) as [Hbc|Hbc|Hbc];
    try done; intros Hxy Hyz.
  - rewrite Hab, Hbc, N.compare_refl. by eapply IH.
  - rewrite Hab. by apply N.compare_lt_iff in Hbc as ->.
  - rewrite <- Hbc. by apply N.compare_lt_iff in Hab as ->.
  - assert (Ascii.N_of_ascii a < Ascii.N_of_ascii c)%N as Hac by lia.
    by apply N.compare_lt_iff in Hac as ->.
Qed.

Global Instance string_OrderedLaws : OrderedLaws string.
Proof.
  split; unfold ordered_compare, string_Ordered.
  - apply String_compare_refl.
  - apply String.compare_eq_iff.
  - intros x y. apply String.compare_antisym.
  - apply String_compare_trans.
Qed.

Section insertion_sort.
Context {E : Type} (cmp : E → E → Z).

Lemma bubble_Permutation (x : E) (left : list E) :
  bubble cmp x left ≡ₚ x :: left.
Proof.
  induction left as [|y left IH]; simpl; [done|].
  destruct (cmp x y <? 0); [|done].
  rewrite IH. apply Permutation_swap.
Qed.

Lemma insertion_Permutation (data left : list E) :
  fold_left (λ left x, bubble cmp x left) data left ≡ₚ left ++ data.
Proof.
  revert left. induction data as [|x data IH]; intros left; simpl.
  - by rewrite app_nil_r.
  - rewrite IH, bubble_Permutation. simpl. apply Permutation_middle.
Qed.

Lemma insertionSortCmpFunc_Permutation (data : list E) :
  insertionSortCmpFunc data cmp ≡ₚ data.
Proof.
  unfold insertionSortCmpFunc.
  by rewrite <- Permutation_rev, insertion_Permutation.
Qed.

(** Sortedness, for a transitive [le] that [cmp] decides. *)
Section sorted.
Context (le : E → E → Prop).
Hypothesis le_below : ∀ a b, cmp a b < 0 → le a b.
Hypothesis le_not_below : ∀ a b, ¬ cmp a b < 0 → le b a.
Hypothesis le_trans : ∀ a b c, le a b → le b c → le a c.

Lemma bubble_sorted (x : E) (left : list E) :
  StronglySorted (flip le) left →
  StronglySorted (flip le) (bubble cmp x left).
Proof.
  induction left as [|y left IH]; simpl; intros Hs.
  - repeat constructor.
  - apply StronglySorted_inv in Hs as [Hs Hall].
    destruct (Z.ltb_spec (cmp x y) 0) as [Hlt|Hge].
    + constructor; [by apply IH|].
      apply Forall_forall. intros b Hb.
      rewrite bubble_Permutation in Hb.
      apply elem_of_cons in Hb as [->|Hb]; [by apply le_below|].
      by eapply Forall_forall in Hall.
    + assert (le y x) as Hyx by (apply le_not_below; lia).
      constructor; [by constructor|].
      constructor; [done|].
      eapply Forall_impl; [exact Hall|].
      intros b Hb. unfold flip in *. by eapply le_trans.
Qed.

Lemma insertion_sorted (data left : list E) :
  StronglySorted (flip le) left →
  StronglySorted (flip le)
    (fold_left (λ left x, bubble cmp x left) data left).
Proof.
  revert left. induction data as [|x data IH]; intros left Hs; simpl.
  - done.
  - by apply IH, bubble_sorted.
Qed.

Lemma StronglySorted_flip_rev (l : list E) :
  StronglySorted (flip le) l → StronglySorted le (rev l).
Proof.
  induction 1 as [|a l Hs IH Hall]; simpl; [constructor|].
  apply StronglySorted_app_2; [|done|repeat constructor].
  intros x1 x2 Hx1 Hx2. apply list_elem_of_singleton in Hx2 as ->.
  apply list_elem_of_In, in_rev, list_elem_of_In in Hx1.
  by eapply Forall_forall in Hall.
Qed.

Lemma insertionSortCmpFunc_sorted (data : list E) :
  StronglySorted le (insertionSortCmpFunc data cmp).
Proof.
  apply StronglySorted_flip_rev, insertion_sorted. constructor.
Qed.
End sorted.

(** Stability, for a class [P] of items none of which compares below
    another. *)
Section ties.
Context (P : E → Prop) `{∀ x, Decision (P x)}.
Hypothesis ties : ∀ a b, P a → P b → ¬ cmp a b < 0.

Lemma bubble_filter (x : E) (left : list E) :
  filter P (rev (bubble cmp x left)) = filter P (rev left ++ [x]).
Proof.
  induction left as [|y left IH]; simpl; [done|].
  destruct (Z.ltb_spec (cmp x y) 0) as [Hlt|Hge]; [|done].
  simpl. rewrite !filter_app, IH, filter_app, <- !app_assoc. f_equal.
  rewrite !filter_cons, !filter_nil.
  destruct (decide (P x)) as [Hx|Hx], (decide (P y)) as [Hy|Hy];
    try done.
  by destruct (ties x y Hx Hy).
Qed.

Lemma insertion_filter (data left : list E) :
  filter P (rev (fold_left (λ left x, bubble cmp x left) data left))
  = filter P (rev left ++ data).
Proof.
  revert left. induction data as [|x data IH]; intros left; simpl.
  - by rewrite app_nil_r.
  - rewrite IH, filter_app, bubble_filter, <- filter_app.
    by rewrite <- app_assoc.
Qed.

Lemma insertionSortCmpFunc_filter (data : list E) :
  filter P (insertionSortCmpFunc data cmp) = filter P data.
Proof. apply insertion_filter. Qed.
End ties.
End insertion_sort.

Section by_key.
Context {S K : Type} `{Sortable S} `{OrderedLaws K} `{EqDecision K}.
Context (key : S → K).

Lemma cmp_Compare_below (x y : K) :
  cmp_Compare x y < 0 ↔ ordered_compare x y = Lt.
Proof. unfold cmp_Compare. destruct (ordered_compare x y); split; done || lia. Qed.

Lemma key_le_below (a b : S) :
  ordered_compare (key a) (key b) = Lt → key_le key a b.
Proof. unfold key_le. congruence. Qed.

Lemma key_le_not_below (a b : S) :
  ordered_compare (key a) (key b) ≠ Lt → key_le key b a.
Proof.
  unfold key_le. rewrite (ordered_antisym (key a) (key b)).
  by destruct (ordered_compare (key a) (key b)).
Qed.

Lemma key_le_trans (a b c : S) :
  key_le key a b → key_le key b c → key_le key a c.
Proof.
  unfold key_le. intros Hab Hbc.
  destruct (ordered_compare (key a) (key b)) eqn:Eab; [| |done].
  - apply ordered_eq in Eab. by rewrite Eab.
  - destruct (ordered_compare (key b) (key c)) eqn:Ebc; [| |done].
    + apply ordered_eq in Ebc. rewrite <- Ebc. congruence.
    + by rewrite (ordered_trans _ _ _ Eab Ebc).
Qed.

Lemma key_ties (k : K) (a b : S) :
  key a = k → key b = k → ordered_compare (key a) (key b) = Eq.
Proof. intros -> <-. apply ordered_refl. Qed.

Lemma Sort_ascending_stable (items : list S) :
  stably_sorted key Ascending items
    (Sort items (λ a b, cmp_Compare (key a) (key b))).
Proof.
  unfold stably_sorted, Sort, SortStableFunc. split; [|split].
  - apply insertionSortCmpFunc_Permutation.
  - simpl. apply insertionSortCmpFunc_sorted.
    + intros a b Hlt. by apply key_le_below, cmp_Compare_below.
    + intros a b Hlt. apply key_le_not_below.
      by rewrite <- cmp_Compare_below.
    + apply key_le_trans.
  - intros k. apply insertionSortCmpFunc_filter.
    intros a b Ha Hb. rewrite cmp_Compare_below.
    by rewrite (key_ties k a b Ha Hb).
Qed.

Lemma Sort_descending_stable (items : list S) :
  stably_sorted key Descending items
    (Sort items (λ a b, cmp_Compare (key b) (key a))).
Proof.
  unfold stably_sorted, Sort, SortStableFunc. split; [|split].
  - apply insertionSortCmpFunc_Permutation.
  - simpl. apply insertionSortCmpFunc_sorted.
    + intros a b Hlt. by apply key_le_below, cmp_Compare_below.
    + intros a b Hlt. apply key_le_not_below.
      by rewrite <- cmp_Compare_below.
    + intros a b c Hab Hbc. by apply (key_le_trans c b a).
  - intros k. apply insertionSortCmpFunc_filter.
    intros a b Ha Hb. rewrite cmp_Compare_below.
    by rewrite (key_ties k b a Hb Ha).
Qed.
End by_key.

(** C7.  Each of the four sorters, in each of the two directions, leaves
    the items sorted by its key in that direction and stably: the items of
    every key value keep the relative order they had before the sort,
    under [Descending] as under [Ascending]. *)
Theorem sorters_stable (S : Type) (HS : Sortable S) (items : list S) :
  stably_sorted getID Ascending items (SortID items Ascending).1
  ∧ stably_sorted getID Descending items (SortID items Descending).1
  ∧ stably_sorted getScore Ascending items (SortScore items Ascending).1
  ∧ stably_sorted getScore Descending items (SortScore items Descending).1
  ∧ stably_sorted (λ x, UnixNano (getTime x)) Ascending items
      (SortTime items Ascending).1
  ∧ stably_sorted (λ x, UnixNano (getTime x)) Descending items
      (SortTime items Descending).1
  ∧ stably_sorted getType Ascending items (SortType items Ascending).1
  ∧ stably_sorted getType Descending items (SortType items Descending).1.
Proof.
  repeat split_and;
    first [ apply (Sort_ascending_stable (S := S))
          | apply (Sort_descending_stable (S := S)) ].
Qed.

(** The two examples of the specification, with labels on the ties:
    ascending from scores 5, 3, 5, 1, and descending from 1, 3, 5, 5. *)
Example SortScore_ascending_example :
  (SortScore [scored 5 "a"; scored 3 "b"; scored 5 "c"; scored 1 "d"]
     Ascending).1
  = [scored 1 "d"; scored 3 "b"; scored 5 "a"; scored 5 "c"].
Proof. reflexivity. Qed.

Example SortScore_descending_example :
  (SortScore [scored 1 "a"; scored 3 "b"; scored 5 "c"; scored 5 "d"]
     Descending).1
  = [scored 5 "c"; scored 5 "d"; scored 3 "b"; scored 1 "a"].
Proof. reflexivity. Qed.

(** A stable sort has one possible result: two arrangements of the same
    items that are both sorted by the key and both keep the order of ties
    are equal.  So every implementation of [slices.SortStableFunc] that
    sorts stably agrees with [insertionSortCmpFunc] on the comparators of
    the four sorters. *)
Section unique.
Context {E K : Type} `{OrderedLaws K} `{EqDecision K} (key : E → K).

Lemma key_le_antisym (a b : E) :
  key_le key a b → key_le key b a → key a = key b.
Proof.
  unfold key_le. rewrite (ordered_antisym (key a) (key b)).
  destruct (ordered_compare (key a) (key b)) eqn:Hab; try done.
  intros _ _. by apply ordered_eq.
Qed.

Lemma sorted_ties_unique (R : E → E → Prop) (l1 l2 : list E) :
  (∀ a b, R a b → R b a → key a = key b) →
  StronglySorted R l1 →
  StronglySorted R l2 →
  (∀ k : K, filter (λ x, key x = k) l1 = filter (λ x, key x = k) l2) →
  l1 = l2.
Proof.
  intros Hanti Hs1. revert l2.
  induction Hs1 as [|a l1 Hs1 IH Hall1]; intros l2 Hs2 Hties.
  - destruct l2 as [|b l2]; [done|].
    specialize (Hties (key b)). by rewrite filter_cons_True in Hties.
  - destruct Hs2 as [|b l2 Hs2 Hall2].
    { specialize (Hties (key a)). by rewrite filter_cons_True in Hties. }
    assert (key a = key b) as Hkey.
    { destruct (decide (key a = key b)) as [|Hne]; [done|].
      assert (a ∈ l2) as Ha.
      { assert (a ∈ filter (λ x, key x = key a) (b :: l2)) as Hin.
        { rewrite <- Hties, filter_cons_True by done. by left. }
        apply list_elem_of_filter in Hin as [_ Hin].
        apply elem_of_cons in Hin as [->|Hin]; done. }
      assert (b ∈ l1) as Hb.
      { assert (b ∈ filter (λ x, key x = key b) (a :: l1)) as Hin.
        { rewrite Hties, filter_cons_True by done. by left. }
        apply list_elem_of_filter in Hin as [_ Hin].
        apply elem_of_cons in Hin as [->|Hin]; done. }
      apply Hanti.
      - by eapply Forall_forall in Hall1.
      - by eapply Forall_forall in Hall2. }
    pose proof (Hties (key a)) as Hhead.
    rewrite !filter_cons_True in Hhead by done.
    injection Hhead as <- Htail. f_equal. apply IH; [done|].
    intros k. destruct (decide (key a = k)) as [<-|Hne]; [done|].
    specialize (Hties k). by rewrite !filter_cons_False in Hties.
Qed.

Lemma stably_sorted_unique (order : Order) (before l1 l2 : list E) :
  stably_sorted key order before l1 →
  stably_sorted key order before l2 →
  l1 = l2.
Proof.
  intros (_ & Hs1 & Ht1) (_ & Hs2 & Ht2).
  eapply sorted_ties_unique; [|exact Hs1|exact Hs2|].
  - intros a b. destruct (order =? Ascending); intros Hab Hba.
    + by apply key_le_antisym.
    + symmetry. by apply key_le_antisym.
  - intros k. by rewrite Ht1, Ht2.
Qed.
End unique.

(** ** [List]: runs and invariants *)

Lemma run_app (c : Call) (l1 l2 : list action) (s : state) :
  run c (l1 ++ l2) s = run c l1 s ≫= run c l2.
Proof.
  revert s. induction l1 as [|a l1 IH]; intros s; simpl; [done|].
  destruct (step c a s); simpl; [apply IH|done].
Qed.

(** Induction over the runs of a call. *)
Lemma reachable_invariant (c : Call) (P : state → Prop) :
  P (List_start c) →
  (∀ a s s', reachable c s → P s → step c a s = Some s' → P s') →
  ∀ s, reachable c s → P s.
Proof.
  intros Hstart Hstep s [sched Hrun]. revert s Hrun.
  induction sched as [|a sched IH] using rev_ind; intros s Hrun.
  - by injection Hrun as <-.
  - rewrite run_app in Hrun.
    destruct (run c sched (List_start c)) as [s0|] eqn:Hrun0; [|done].
    simpl in Hrun. destruct (step c a s0) as [s1|] eqn:Hs; [|done].
    injection Hrun as <-.
    eapply Hstep; [|by apply IH|done]. by exists sched.
Qed.

(** Case analysis on a transition; the equations on the fields of the
    source state are then used in the goal. *)
Ltac use_field_equations :=
  repeat match goal with
         | H : ?f ?s = _ |- context [?f ?s] =>
             match type of s with state => rewrite H end
         end.

Ltac step_inv H :=
  match type of H with
  | step _ ?a _ = Some _ =>
      destruct a; unfold step in H; repeat case_match; simplify_eq; simpl;
      use_field_equations
  end.

(** The tasks in flight never outnumber the slots of the semaphore. *)
Lemma tasks_within_capacity (c : Call) (capacity : Z) (s : state) :
  SetLimit (maxWorkers c) = Some capacity →
  reachable c s →
  Z.of_nat (length (tasks s)) ≤ Z.max 0 capacity.
Proof.
  intros Hcap. revert s. apply reachable_invariant.
  - simpl. lia.
  - intros a s s' _ IH Hstep. step_inv Hstep;
      rewrite ?length_app, ?length_insert;
      try (rewrite length_delete by eauto); simpl in *; try lia.
    rewrite Hcap in *. unfold admits in *.
    match goal with H : (_ <? _) = true |- _ => apply Z.ltb_lt in H end.
    lia.
Qed.

(** C9.  Under a positive [maxWorkers], at every state of every run of
    [List], the tasks started by [g.Go] that have not returned are at most
    [maxWorkers]; and when they are exactly that many, [g.Go] does not
    start another one. *)
Theorem List_at_most_maxWorkers_in_flight (c : Call) (s : state) :
  0 < maxWorkers c →
  reachable c s →
  Z.of_nat (length (tasks s)) ≤ maxWorkers c
  ∧ (Z.of_nat (length (tasks s)) = maxWorkers c → step c ActGo s = None).
Proof.
  intros Hpos Hs.
  assert (SetLimit (maxWorkers c) = Some (maxWorkers c)) as Hcap.
  { unfold SetLimit. destruct (Z.ltb_spec (maxWorkers c) 0); [lia|done]. }
  split.
  - pose proof (tasks_within_capacity c _ s Hcap Hs). lia.
  - intros Hfull. unfold step. rewrite Hcap. unfold admits.
    rewrite Hfull, Z.ltb_irrefl. by repeat case_match.
Qed.

(** With ten identifiers and two workers: after two calls of [g.Go] two
    tasks are in flight and the third call has to wait. *)
Lemma List_at_most_maxWorkers_in_flight_witness :
  Z.of_nat (length (tasks (after ten_ids_two_workers [ActGo; ActGo]))) ≤ 2
  ∧ (Z.of_nat (length (tasks (after ten_ids_two_workers [ActGo; ActGo]))) = 2 →
     step ten_ids_two_workers ActGo (after ten_ids_two_workers [ActGo; ActGo])
     = None).
Proof.
  apply (List_at_most_maxWorkers_in_flight ten_ids_two_workers).
  - reflexivity.
  - exists [ActGo; ActGo]. reflexivity.
Defined.

Lemma elem_of_delete_other {A : Type} (l : list A) (i j : nat) (x : A) :
  l !! j = Some x → j ≠ i → x ∈ delete i l.
Proof.
  intros Hj Hne. apply list_elem_of_lookup.
  destruct (decide (j < i)%nat) as [Hlt|Hge].
  - exists j. by rewrite list_lookup_delete_lt.
  - exists (j - 1)%nat. rewrite list_lookup_delete_ge by lia.
    by replace (S (j - 1)) with j by lia.
Qed.

Lemma elem_of_insert_other {A : Type} (l : list A) (i j : nat) (x y : A) :
  l !! j = Some x → j ≠ i → x ∈ <[i := y]> l.
Proof.
  intros Hj Hne. apply list_elem_of_lookup. exists j.
  by rewrite list_lookup_insert_ne.
Qed.

Ltac normalise_fields :=
  unfold pending, past_wait, g_err in *; simpl in *;
  repeat match goal with
         | H : ?f ?s = _, IH : context [?f ?s] |- _ =>
             match type of s with state => rewrite H in IH end
         end;
  use_field_equations; simpl in *.

Ltac step_cases H := step_inv H; normalise_fields.

Lemma pending_requested (c : Call) (s : state) :
  reachable c s → ∀ id, id ∈ pending s → id ∈ ids c.
Proof.
  revert s.
  apply (reachable_invariant c (λ s, ∀ id, id ∈ pending s → id ∈ ids c)).
  - unfold pending. simpl. intros id. destruct (ids c); [|done].
    by intros ?%elem_of_nil.
  - intros a s s' _ IH Hstep id.
    step_cases Hstep; eauto; try (by intros ?%elem_of_nil).
    intros Hid. apply IH. by right.
Qed.

Lemma tasks_ok (c : Call) (s : state) :
  reachable c s → Forall (task_ok c) (tasks s).
Proof.
  revert s. apply (reachable_invariant c (λ s, Forall (task_ok c) (tasks s))).
  - constructor.
  - intros a s s' Hs IH Hstep.
    pose proof (pending_requested c s Hs) as Hpend.
    step_cases Hstep; eauto using Forall_delete.
    + apply Forall_app. split; [done|]. repeat constructor.
      apply Hpend. by left.
    + apply Forall_insert; [done|].
      match goal with
      | Hi : tasks s !! _ = Some (Fetching ?id) |- _ =>
          eapply Forall_lookup_1 in Hi; [|exact IH]
      end.
      split; [done|]. unfold forwarded, Get.
      match goal with
      | Hget : Get_on _ _ = inl _, Hfw : forwards _ _ = true |- _ =>
          by rewrite Hget, Hfw
      end.
Qed.

Lemma processed_fetched (c : Call) (s : state) :
  reachable c s → Forall (fetched c) (processed s).
Proof.
  revert s. apply (reachable_invariant c (λ s, Forall (fetched c) (processed s))).
  - constructor.
  - intros a s s' Hs IH Hstep.
    pose proof (tasks_ok c s Hs) as Htasks.
    step_cases Hstep; eauto.
    + apply Forall_app. split; [done|]. repeat constructor.
      match goal with
      | Hi : tasks s !! _ = Some (Sending ?id _) |- _ =>
          eapply Forall_lookup_1 in Hi; [|exact Htasks]; by exists id
      end.
    + by apply Forall_inv_tail in IH.
Qed.

Lemma itemsMap_fetched (c : Call) (s : state) :
  reachable c s →
  ∀ k item, itemsMap s !! k = Some item → k = Item_ID item ∧ fetched c item.
Proof.
  revert s.
  apply (reachable_invariant c
           (λ s, ∀ k item, itemsMap s !! k = Some item →
                           k = Item_ID item ∧ fetched c item)).
  - intros k item. simpl. by rewrite lookup_empty.
  - intros a s s' Hs IH Hstep k item.
    pose proof (processed_fetched c s Hs) as Hbuf.
    step_cases Hstep; eauto.
    rewrite lookup_insert. case_decide as Hk.
    + intros [= <-]. split; [done|]. by apply Forall_inv in Hbuf.
    + apply IH.
Qed.

Lemma past_wait_no_tasks (c : Call) (s : state) :
  reachable c s → past_wait s = true → tasks s = [].
Proof.
  revert s.
  apply (reachable_invariant c (λ s, past_wait s = true → tasks s = [])).
  - done.
  - intros a s s' Hs IH Hstep.
    step_cases Hstep; eauto; try done.
    all: intros Hp; apply IH in Hp;
      match goal with Hi : tasks _ !! _ = Some _ |- _ =>
        by rewrite Hp in Hi
      end.
Qed.

(** The derived context is done only after the caller canceled, a task
    failed, or [g.Wait] returned. *)
Lemma ctx_done_cause (c : Call) (s : state) :
  reachable c s →
  ctx_done s = true →
  caller_canceled s = true ∨ errs s ≠ [] ∨ past_wait s = true.
Proof.
  revert s.
  apply (reachable_invariant c
           (λ s, ctx_done s = true →
                 caller_canceled s = true ∨ errs s ≠ [] ∨ past_wait s = true)).
  - done.
  - intros a s s' Hs IH Hstep.
    step_cases Hstep; eauto.
    all: intros _; right; left; by intros [_ [=]]%app_eq_nil.
Qed.


(** Unless the caller canceled, the first error a task returns is one the
    upstream caused for a requested identifier. *)
Lemma first_error_natural (c : Call) (s : state) :
  reachable c s →
  caller_canceled s = false →
  ∀ e, g_err s = Some e → natural_error c e.
Proof.
  revert s.
  apply (reachable_invariant c
           (λ s, caller_canceled s = false →
                 ∀ e, g_err s = Some e → natural_error c e)).
  - done.
  - intros a s s' Hs IH Hstep.
    pose proof (tasks_ok c s Hs) as Htasks.
    pose proof (ctx_done_cause c s Hs) as Hctx.
    pose proof (past_wait_no_tasks c s Hs) as Hpast.
    step_cases Hstep; eauto; try done.
    1,2: intros Hcc e' He'; try apply IH; congruence.
    all: intros Hcc e'; rewrite head_snoc;
      destruct (head (errs s)) as [e0|] eqn:Hhead; [by apply IH|];
      intros [= <-].
    + exists id. split; [|done].
      eapply (Forall_lookup_1 (task_ok c)) in Htasks; [|done]. done.
    + destruct Hctx as [Hc|[He|Hp]]; [done|congruence| |].
      * by destruct (errs s).
      * apply Hpast in Hp. by rewrite Hp in *.
    + destruct Hctx as [Hc|[He|Hp]]; [done|congruence| |].
      * by destruct (errs s).
      * apply Hpast in Hp. by rewrite Hp in *.
Qed.

(** A requested identifier for which [Get] fails is still to be started,
    or in flight, or a task has already failed. *)
Lemma failures_noticed (c : Call) (s : state) :
  reachable c s →
  ∀ id, id ∈ ids c → (∃ e, Get (upstream c) id = inr e) →
        id ∈ pending s ∨ Fetching id ∈ tasks s ∨ errs s ≠ [].
Proof.
  revert s.
  apply (reachable_invariant c
           (λ s, ∀ id, id ∈ ids c → (∃ e, Get (upstream c) id = inr e) →
                       id ∈ pending s ∨ Fetching id ∈ tasks s ∨ errs s ≠ [])).
  - intros id Hid _. left. unfold pending. simpl.
    by destruct (ids c).
  - intros a s s' Hs IH Hstep id Hid Hfail.
    specialize (IH id Hid Hfail).
    step_cases Hstep; eauto.
    all: try (right; right; by intros [_ [=]]%app_eq_nil).
    all: destruct IH as [Hp|[Ht|He]]; [| |by right; right]; try (by left).
    + apply elem_of_cons in Hp as [->|Hp]; [|by left].
      right; left. apply elem_of_app. right. by left.
    + right; left. apply elem_of_app. by left.
    + apply list_elem_of_lookup in Ht as [j Hj].
      destruct (decide (j = i)) as [->|Hne].
      * destruct Hfail as [e He]. unfold Get in He. congruence.
      * right; left. by eapply elem_of_insert_other.
    + apply list_elem_of_lookup in Ht as [j Hj].
      destruct (decide (j = i)) as [->|Hne].
      * destruct Hfail as [e He]. unfold Get in He. congruence.
      * right; left. by eapply elem_of_delete_other.
    + apply list_elem_of_lookup in Ht as [j Hj].
      destruct (decide (j = i)) as [->|Hne]; [congruence|].
      right; left. by eapply elem_of_delete_other.
Qed.

(** What a call returns: the first task error and no list, or, when no
    task failed, the items that the collector, now stopped, has put in
    [itemsMap], in the order of [ids]. *)
Lemma returned_shape (c : Call) (s : state) :
  reachable c s →
  (main s = AtWaitChan → errs s = [])
  ∧ ∀ items err, returns s items err →
      (∃ e, err = Some e ∧ items = None ∧ g_err s = Some e)
      ∨ (err = None ∧ errs s = [] ∧ collecting s = false
         ∧ items = Some (collect (ids c) (itemsMap s))).
Proof.
  revert s.
  apply (reachable_invariant c
    (λ s, (main s = AtWaitChan → errs s = [])
          ∧ ∀ items err, returns s items err →
              (∃ e, err = Some e ∧ items = None ∧ g_err s = Some e)
              ∨ (err = None ∧ errs s = [] ∧ collecting s = false
                 ∧ items = Some (collect (ids c) (itemsMap s))))).
  - unfold returns. simpl. split; [by destruct (ids c)|].
    intros items err. destruct (ids c) eqn:Hids; [|done].
    intros [= <- <-]. by right.
  - intros a s s' Hs [IHw IHr] Hstep.
    pose proof (past_wait_no_tasks c s Hs) as Hpast.
    unfold returns in *.
    step_cases Hstep; eauto.
    all: split; [intros Hm|intros items err Hm]; simplify_eq; eauto.
    all: try (rewrite Hm in Hpast; simpl in Hpast; specialize (Hpast eq_refl);
              match goal with Hi : tasks _ !! _ = Some _ |- _ =>
                by rewrite Hpast in Hi
              end).
    all: try (destruct (IHr _ _ Hm) as [?|(?&?&?&?)]; [by left|done]).
    + by destruct (errs s).
    + right. by rewrite IHw.
    + destruct (IHr _ _ Hm) as [?|(?&?&Hc&?)]; [by left|].
      match goal with Hb : collecting s && _ = true |- _ =>
        by rewrite Hc in Hb
      end.
Qed.

(** When records carry the identifier they were requested under, a record
    to be forwarded is on its way, or in [itemsMap] under its identifier,
    unless a task has failed. *)
Lemma forwarded_on_its_way (c : Call) (s : state) :
  faithful c →
  reachable c s →
  ∀ id item, id ∈ ids c → forwarded c id = Some item →
    id ∈ pending s ∨ Fetching id ∈ tasks s ∨ Sending id item ∈ tasks s
    ∨ item ∈ processed s ∨ itemsMap s !! id = Some item ∨ errs s ≠ [].
Proof.
  intros Hfaith. revert s.
  apply (reachable_invariant c
    (λ s, ∀ id item, id ∈ ids c → forwarded c id = Some item →
       id ∈ pending s ∨ Fetching id ∈ tasks s ∨ Sending id item ∈ tasks s
       ∨ item ∈ processed s ∨ itemsMap s !! id = Some item ∨ errs s ≠ [])).
  - intros id item Hid _. left. unfold pending. simpl. by destruct (ids c).
  - intros a s s' Hs IH Hstep id item Hid Hfw.
    specialize (IH id item Hid Hfw).
    pose proof (processed_fetched c s Hs) as Hbuf.
    step_cases Hstep; eauto.
    all: try (do 5 right; by intros [_ [=]]%app_eq_nil).
    + (* g.Go *)
      destruct IH as [Hp|[Ht|[Hsd|IH]]]; [| | |by do 3 right].
      * apply elem_of_cons in Hp as [->|Hp]; [|by left].
        right; left. apply elem_of_app. right. by left.
      * right; left. apply elem_of_app. by left.
      * do 2 right; left. apply elem_of_app. by left.
    + (* s.Get returns an item that is forwarded *)
      destruct IH as [Hp|[Ht|[Hsd|IH]]]; [by left| | |by do 3 right].
      * apply list_elem_of_lookup in Ht as [j Hj].
        destruct (decide (j = i)) as [->|Hne].
        -- do 2 right; left.
           assert (forwarded c id = Some i0) as Hfw'.
           { unfold forwarded, Get. simplify_eq.
             match goal with
             | Hget : Get_on _ _ = inl _, Hf : forwards _ _ = true |- _ =>
                 by rewrite Hget, Hf
             end. }
           assert (item = i0) as -> by congruence. simplify_eq.
           apply list_elem_of_insert. by eapply lookup_lt_Some.
        -- right; left. by eapply elem_of_insert_other.
      * apply list_elem_of_lookup in Hsd as [j Hj].
        destruct (decide (j = i)) as [->|Hne]; [congruence|].
        do 2 right; left. by eapply elem_of_insert_other.
    + (* s.Get returns an item that is filtered out *)
      destruct IH as [Hp|[Ht|[Hsd|IH]]]; [by left| | |by do 3 right].
      * apply list_elem_of_lookup in Ht as [j Hj].
        destruct (decide (j = i)) as [->|Hne].
        -- exfalso. simplify_eq. unfold forwarded, Get in Hfw.
           match goal with
           | Hget : Get_on _ _ = inl _, Hf : forwards _ _ = false |- _ =>
               by rewrite Hget, Hf in Hfw
           end.
        -- right; left. by eapply elem_of_delete_other.
      * apply list_elem_of_lookup in Hsd as [j Hj].
        destruct (decide (j = i)) as [->|Hne]; [congruence|].
        do 2 right; left. by eapply elem_of_delete_other.
    + (* processed <- item *)
      destruct IH as [Hp|[Ht|[Hsd|[Hb|IH]]]]; [by left| | | |by do 4 right].
      * apply list_elem_of_lookup in Ht as [j Hj].
        destruct (decide (j = i)) as [->|Hne]; [congruence|].
        right; left. by eapply elem_of_delete_other.
      * apply list_elem_of_lookup in Hsd as [j Hj].
        destruct (decide (j = i)) as [->|Hne].
        -- simplify_eq. do 3 right; left. apply elem_of_app. right. by left.
        -- do 2 right; left. by eapply elem_of_delete_other.
      * do 3 right; left. apply elem_of_app. by left.
    + (* the collector receives *)
      apply Forall_inv in Hbuf as (id' & Hid' & Hfw').
      pose proof (Hfaith _ _ Hid' Hfw') as Hkey.
      pose proof (Hfaith _ _ Hid Hfw) as Hkey'.
      destruct IH as [Hp|[Ht|[Hsd|[Hb|[Hm|He]]]]];
        [by left|by right; left|by do 2 right; left| | |by do 5 right].
      * apply elem_of_cons in Hb as [->|Hb]; [|by do 3 right; left].
        do 4 right; left. rewrite Hkey'. apply lookup_insert_eq.
      * do 4 right; left. rewrite lookup_insert. case_decide as Hk; [|done].
        f_equal. congruence.
Qed.

Lemma omap_ext_elem_of {A B : Type} (f g : A → option B) (l : list A) :
  (∀ x, x ∈ l → f x = g x) → omap f l = omap g l.
Proof.
  induction l as [|x l IH]; intros Hfg; simpl; [done|].
  rewrite (Hfg x) by (by left).
  assert (omap f l = omap g l) as Hl.
  { apply IH. intros y Hy. apply Hfg. by right. }
  destruct (g x); [f_equal|]; exact Hl.
Qed.

(** A call that returns a list after the collector has emptied
    [processed], for records that carry the identifier they were requested
    under: the list has, in the order of [ids], exactly the records the
    tasks forwarded. *)
Lemma List_drained (c : Call) (s : state) (l : list Item) (err : option error) :
  faithful c →
  reachable c s →
  returns s (Some l) err →
  processed s = [] →
  err = None ∧ l = omap (forwarded c) (ids c).
Proof.
  intros Hfaith Hs Hret Hbuf.
  destruct (returned_shape c s Hs) as [_ Hshape].
  destruct (Hshape _ _ Hret) as [(e & _ & [=] & _)|(-> & Herrs & _ & [= ->])].
  split; [done|]. unfold collect. apply omap_ext_elem_of. intros id Hid.
  assert (tasks s = []) as Htasks.
  { apply (past_wait_no_tasks c s Hs). unfold past_wait.
    unfold returns in Hret. by rewrite Hret. }
  destruct (forwarded c id) as [item|] eqn:Hfw.
  - destruct (forwarded_on_its_way c s Hfaith Hs id item Hid Hfw)
      as [Hp|[Ht|[Hsd|[Hb|[Hm|He]]]]]; try done.
    + unfold pending, returns in *. rewrite Hret in Hp. by apply elem_of_nil in Hp.
    + rewrite Htasks in Ht. by apply elem_of_nil in Ht.
    + rewrite Htasks in Hsd. by apply elem_of_nil in Hsd.
    + rewrite Hbuf in Hb. by apply elem_of_nil in Hb.
  - destruct (itemsMap s !! id) as [item|] eqn:Hm; [|done].
    apply (itemsMap_fetched c s Hs) in Hm as [-> (id' & Hid' & Hfw')].
    rewrite (Hfaith _ _ Hid' Hfw') in Hfw. congruence.
Qed.

(** ** [List]: the sequential schedule *)

Lemma canceled_turn_run (c : Call) (id : uint) (rest : list uint)
    (es : list error) (m : gmap uint Item) :
  admits (SetLimit (maxWorkers c)) 0 = true →
  run c [ActGo; ActGet 0 CanceledInSend] (between_turns (id :: rest) es m true)
  = Some (between_turns rest (es ++ [ErrSendRequest ContextCanceled]) m true).
Proof. intros Hadm. simpl. by rewrite Hadm. Qed.

Lemma failed_turn_run (c : Call) (id : uint) (rest : list uint)
    (es : list error) (m : gmap uint Item) (done : bool) (e : error) :
  admits (SetLimit (maxWorkers c)) 0 = true →
  Get (upstream c) id = inr e →
  run c [ActGo; ActGet 0 Served] (between_turns (id :: rest) es m done)
  = Some (between_turns rest (es ++ [e]) m true).
Proof.
  intros Hadm Hget. unfold Get in Hget. simpl.
  rewrite Hadm. simpl. by rewrite Hget.
Qed.

Lemma forwarded_turn_run (c : Call) (id : uint) (rest : list uint)
    (es : list error) (m : gmap uint Item) (done : bool) (item : Item) :
  admits (SetLimit (maxWorkers c)) 0 = true →
  Get (upstream c) id = inl item →
  forwards (filter_ c) item = true →
  run c [ActGo; ActGet 0 Served; ActSend 0; ActRecv]
    (between_turns (id :: rest) es m done)
  = Some (between_turns rest es (<[Item_ID item := item]> m) done).
Proof.
  intros Hadm Hget Hfw. unfold Get in Hget. simpl.
  rewrite Hadm. simpl. by rewrite Hget, Hfw.
Qed.

Lemma filtered_turn_run (c : Call) (id : uint) (rest : list uint)
    (es : list error) (m : gmap uint Item) (done : bool) (item : Item) :
  admits (SetLimit (maxWorkers c)) 0 = true →
  Get (upstream c) id = inl item →
  forwards (filter_ c) item = false →
  run c [ActGo; ActGet 0 Served] (between_turns (id :: rest) es m done)
  = Some (between_turns rest es m done).
Proof.
  intros Hadm Hget Hfw. unfold Get in Hget. simpl.
  rewrite Hadm. simpl. by rewrite Hget, Hfw.
Qed.

Lemma sequential_after_failure (c : Call) (l : list uint) (m : gmap uint Item) :
  sequential_map c true l m = m ∧ sequential_done c true l = true.
Proof. by destruct l. Qed.

Lemma turns_run (c : Call) (l rest : list uint) (es : list error)
    (m : gmap uint Item) (done : bool) :
  admits (SetLimit (maxWorkers c)) 0 = true →
  run c (turns c done l) (between_turns (l ++ rest) es m done)
  = Some (between_turns rest (es ++ sequential_errors c done l)
            (sequential_map c done l m) (sequential_done c done l)).
Proof.
  intros Hadm. revert es m done.
  induction l as [|id l IH]; intros es m done.
  - simpl. by rewrite app_nil_r.
  - change ((id :: l) ++ rest) with (id :: (l ++ rest)).
    cbn [turns sequential_errors sequential_map sequential_done].
    destruct done.
    + rewrite run_app, canceled_turn_run by done.
      unfold mbind, option_bind. rewrite IH, <- app_assoc.
      by destruct (sequential_after_failure c l m) as [-> ->].
    + destruct (Get (upstream c) id) as [item|e] eqn:Hget.
      * destruct (forwards (filter_ c) item) eqn:Hfw; rewrite run_app.
        -- rewrite (forwarded_turn_run c id _ es m false item) by done.
           apply IH.
        -- rewrite (filtered_turn_run c id _ es m false item) by done.
           apply IH.
      * rewrite run_app, (failed_turn_run c id _ es m false e) by done.
        unfold mbind, option_bind. rewrite IH, <- app_assoc.
        by destruct (sequential_after_failure c l m) as [-> ->].
Qed.

Lemma head_sequential_errors (c : Call) (l : list uint) :
  head (sequential_errors c false l) = first_error c l.
Proof.
  induction l as [|id l IH]; simpl; [done|].
  by destruct (Get (upstream c) id).
Qed.

(** Whenever [g.Go] can start a task at all, the sequential schedule
    makes the call return: the first error in the order of [ids], or the
    collected items; [processed] is empty at the end. *)
Lemma sequential_returns (c : Call) :
  admits (SetLimit (maxWorkers c)) 0 = true →
  ∃ s,
    run c (sequential c) (List_start c) = Some s
    ∧ processed s = []
    ∧ caller_canceled s = false
    ∧ match first_error c (ids c) with
      | Some e => returns s None (Some e)
      | None =>
          returns s
            (Some (collect (ids c) (sequential_map c false (ids c) ∅))) None
      end.
Proof.
  intros Hadm. unfold sequential, List_start, returns.
  destruct (ids c) as [|id l] eqn:Hids.
  - eexists. split; [done|]. simpl. done.
  - pose proof (turns_run c (id :: l) [] [] ∅ false Hadm) as Hrun.
    rewrite app_nil_r in Hrun. rewrite run_app.
    unfold between_turns in Hrun at 1. rewrite Hrun.
    rewrite <- head_sequential_errors.
    remember (sequential_errors c false (id :: l)) as E eqn:HE.
    remember (sequential_map c false (id :: l) ∅) as M eqn:HM.
    remember (sequential_done c false (id :: l)) as D eqn:HD.
    destruct (head E) as [e|] eqn:Hhead; simpl;
      unfold g_err; simpl; rewrite Hhead; simpl.
    + eexists. split; [done|]. done.
    + eexists. split; [done|]. simpl. by rewrite Hids.
Qed.

(** ** [List]: what a call returns *)

Lemma first_error_Some (c : Call) (l : list uint) (e : error) :
  first_error c l = Some e → ∃ id, id ∈ l ∧ Get (upstream c) id = inr e.
Proof.
  induction l as [|id l IH]; simpl; [done|].
  destruct (Get (upstream c) id) as [item|e'] eqn:Hget.
  - intros (id' & Hin & Hg)%IH. exists id'. split; [by right|done].
  - intros [= <-]. exists id. split; [by left|done].
Qed.

Lemma first_error_None (c : Call) (l : list uint) :
  first_error c l = None →
  ∀ id, id ∈ l → ∃ item, Get (upstream c) id = inl item.
Proof.
  induction l as [|id l IH]; simpl; intros Hnone id' Hin.
  - by apply elem_of_nil in Hin.
  - destruct (Get (upstream c) id) as [item|e'] eqn:Hget; [|done].
    apply elem_of_cons in Hin as [->|Hin]; [by exists item|by apply IH].
Qed.

Lemma forwarded_Some (c : Call) (id : uint) (item : Item) :
  forwarded c id = Some item ↔
  Get (upstream c) id = inl item ∧ forwards (filter_ c) item = true.
Proof.
  unfold forwarded. destruct (Get (upstream c) id) as [item'|e].
  - destruct (forwards (filter_ c) item') eqn:Hfw.
    + split; [by intros [= ->]|by intros [[= ->] _]].
    + split; [done|intros [[= ->] ?]; congruence].
  - split; [done|by intros [? _]].
Qed.

Lemma forwards_accepted (filter : option (Item → bool)) (item : Item) :
  forwards filter item = true ↔ accepted filter item.
Proof.
  unfold forwards, accepted. destruct filter as [f|].
  - destruct (f item) eqn:Hf.
    + split; [|done]. intros _. right. by exists f.
    + split; [done|]. intros [?|(f' & [= <-] &?)]; congruence.
  - split; [|done]. intros _. by left.
Qed.

(** The final loop yields the records of [itemsMap] in the order of [ids],
    each at the identifier that is its key. *)
Lemma collect_sublist (l : list uint) (m : gmap uint Item) :
  (∀ k item, m !! k = Some item → k = Item_ID item) →
  sublist (Item_ID <$> collect l m) l.
Proof.
  intros Hkey. induction l as [|id l IH]; simpl; [constructor|].
  destruct (m !! id) as [item|] eqn:Hm.
  - cbn. rewrite <- (Hkey _ _ Hm). by apply sublist_skip.
  - by apply sublist_cons.
Qed.

Lemma elem_of_collect (l : list uint) (m : gmap uint Item) (item : Item) :
  item ∈ collect l m ↔ ∃ id, id ∈ l ∧ m !! id = Some item.
Proof. apply list_elem_of_omap. Qed.

(** Whatever the schedule: a returned list comes without an error, holds
    only records that were fetched and forwarded for a requested
    identifier, each found under its own [ID], and follows the order of
    [ids]. *)
Lemma List_sound (c : Call) (s : state) (l : list Item) (err : option error) :
  reachable c s →
  returns s (Some l) err →
  err = None
  ∧ l = collect (ids c) (itemsMap s)
  ∧ (∀ r, r ∈ l → fetched c r ∧ Item_ID r ∈ ids c)
  ∧ sublist (Item_ID <$> l) (ids c).
Proof.
  intros Hs Hret.
  destruct (returned_shape c s Hs) as [_ Hshape].
  destruct (Hshape _ _ Hret) as [(e & _ & [=] & _)|(-> & Herrs & _ & [= ->])].
  pose proof (itemsMap_fetched c s Hs) as Hmap.
  split; [done|]. split; [done|]. split.
  - intros r (id & Hid & Hm)%elem_of_collect.
    apply Hmap in Hm as [-> ?]. done.
  - apply collect_sublist. intros k item Hm. by apply Hmap in Hm as [? _].
Qed.

(** Whatever the schedule: once a task has failed, a call that returns
    returns the first error the tasks reported, and no list. *)
Lemma List_all_or_nothing (c : Call) (s : state)
    (items : option (list Item)) (err : option error) :
  reachable c s →
  returns s items err →
  errs s ≠ [] →
  items = None ∧ err = g_err s ∧ err ≠ None.
Proof.
  intros Hs Hret Herrs.
  destruct (returned_shape c s Hs) as [_ Hshape].
  destruct (Hshape _ _ Hret) as [(e & -> & -> & Hg)|(_ & ? & _)]; [|done].
  by rewrite Hg.
Qed.

(** ** [List]: the claims *)

(** C1 is what [List] is written to do, and the collector breaks it.  One
    identifier, no predicate, the fetch succeeds, the caller's context
    stays live: under [losing_schedule] the call returns the empty list and
    no error, and the record is still in [processed].  Under the sequential
    schedule the same call returns the record. *)
Theorem List_loses_record_to_ctx_done :
  Get (upstream one_story) 1%N = inl (toy_item 1%N StoryType)
  ∧ List one_story losing_schedule = Some (Some [], None)
  ∧ run one_story losing_schedule (List_start one_story)
    = Some (after one_story losing_schedule)
  ∧ processed (after one_story losing_schedule) = [toy_item 1%N StoryType]
  ∧ caller_canceled (after one_story losing_schedule) = false
  ∧ List one_story (sequential one_story)
    = Some (Some [toy_item 1%N StoryType], None).
Proof. split_and!; vm_compute; reflexivity. Qed.

(** Without that exit of the collector the claim holds: when every fetch
    succeeds with a record that carries the requested identifier and there
    is no predicate, a call that returns with [processed] empty returns
    exactly one record per identifier, in the order of [ids], and no
    error. *)
Lemma List_one_record_per_id_when_drained (c : Call) (s : state)
    (l : list Item) (err : option error) (record : uint → Item) :
  filter_ c = None →
  (∀ id, id ∈ ids c →
         Get (upstream c) id = inl (record id) ∧ Item_ID (record id) = id) →
  reachable c s →
  returns s (Some l) err →
  processed s = [] →
  err = None ∧ l = record <$> ids c.
Proof.
  intros Hnil Hget Hs Hret Hbuf.
  assert (∀ id, id ∈ ids c → forwarded c id = Some (record id)) as Hfw.
  { intros id Hid. apply forwarded_Some. split; [by apply Hget|].
    rewrite Hnil. done. }
  assert (faithful c) as Hfaith.
  { intros id item Hid Hitem. rewrite (Hfw id Hid) in Hitem.
    injection Hitem as <-. by apply Hget. }
  destruct (List_drained c s l err Hfaith Hs Hret Hbuf) as [-> ->].
  split; [done|]. rewrite list_fmap_alt.
  by apply omap_ext_elem_of.
Qed.

(** A state in which the goroutines are blocked and the call has not
    returned stays so when the caller cancels, hence for ever. *)
Lemma blocked_never_returns (c : Call) (s : state) :
  blocked c s →
  blocked c (set_caller_canceled (set_ctx_done s)) →
  (∀ items err, ¬ returns s items err) →
  never_returns c s.
Proof.
  intros Hb Hb' Hmain.
  assert (∀ sched s0,
            s0 = s ∨ s0 = set_caller_canceled (set_ctx_done s) →
            ∀ s', run c sched s0 = Some s' →
                  s' = s ∨ s' = set_caller_canceled (set_ctx_done s)) as Hinv.
  { induction sched as [|a sched IH]; intros s0 Hs0 s' Hrun; simpl in Hrun.
    - by injection Hrun as <-.
    - destruct (step c a s0) as [s1|] eqn:Hstep; [|done].
      apply (IH s1); [|done]. right.
      destruct (decide (a = ActCancel)) as [->|Hne].
      + destruct Hs0 as [->| ->]; simpl in Hstep;
          unfold returns in Hmain; destruct (main s) eqn:Hm;
          try (by injection Hstep as <-).
        all: by destruct (Hmain items err).
      + destruct Hs0 as [->| ->]; [rewrite Hb in Hstep|rewrite Hb' in Hstep];
          done. }
  intros sched s' Hrun items err Hret.
  destruct (Hinv sched s (or_introl eq_refl) s' Hrun) as [->| ->].
  - by apply (Hmain items err).
  - by apply (Hmain items err).
Qed.

(** C3 is what [List] is written to do, and the collector breaks it: the
    call may never return.  Twelve identifiers, the first fails: under
    [hanging_schedule] the error is recorded, the collector has left, ten
    records fill [processed], and the eleventh task waits at
    [processed <- item] for ever; [g.Wait] never returns, no goroutine can
    move, and the call does not return. *)
Theorem List_hangs_after_error :
  run twelve_ids_first_broken hanging_schedule
    (List_start twelve_ids_first_broken)
  = Some (after twelve_ids_first_broken hanging_schedule)
  ∧ errs (after twelve_ids_first_broken hanging_schedule)
    = [ErrSendRequest Failure]
  ∧ main (after twelve_ids_first_broken hanging_schedule) = AtGo []
  ∧ tasks (after twelve_ids_first_broken hanging_schedule)
    = [Sending 12%N (toy_item 12%N StoryType)]
  ∧ length (processed (after twelve_ids_first_broken hanging_schedule))
    = processed_cap
  ∧ collecting (after twelve_ids_first_broken hanging_schedule) = false
  ∧ caller_canceled (after twelve_ids_first_broken hanging_schedule) = false
  ∧ blocked twelve_ids_first_broken
      (after twelve_ids_first_broken hanging_schedule)
  ∧ never_returns twelve_ids_first_broken
      (after twelve_ids_first_broken hanging_schedule).
Proof.
  assert (∀ s,
            s = after twelve_ids_first_broken hanging_schedule
            ∨ s = set_caller_canceled (set_ctx_done
                    (after twelve_ids_first_broken hanging_schedule)) →
            blocked twelve_ids_first_broken s) as Hblocked.
  { intros s Hs a Hne.
    destruct a as [| | |i r|i| | | |]; try done;
      destruct Hs as [->| ->]; try (vm_compute; reflexivity);
      destruct i as [|i]; vm_compute; reflexivity. }
  split_and!; try (vm_compute; reflexivity).
  - apply Hblocked. by left.
  - apply blocked_never_returns.
    + apply Hblocked. by left.
    + apply Hblocked. by right.
    + intros items err. vm_compute. discriminate.
Qed.

(** C2 as stated fails: the second of three identifiers is absent
    upstream, the other two fetches succeed, the caller does not cancel,
    and the call returns [ErrNotFound] and no list. *)
Lemma List_returns_ErrNotFound :
  Get (upstream second_of_three_absent) 2%N = inr ErrNotFound
  ∧ Get (upstream second_of_three_absent) 1%N = inl (toy_item 1%N StoryType)
  ∧ Get (upstream second_of_three_absent) 3%N = inl (toy_item 3%N StoryType)
  ∧ List second_of_three_absent (sequential second_of_three_absent)
    = Some (None, Some ErrNotFound)
  ∧ caller_canceled
      (after second_of_three_absent (sequential second_of_three_absent))
    = false.
Proof. split_and!; vm_compute; reflexivity. Qed.

(** C2, as the code has it.  When [Get] answers not-found for a requested
    identifier and every other fetch succeeds, no run of [List] returns a
    list: a call that returns returns no list and the first error its
    tasks reported, which is [ErrNotFound] unless the caller canceled; and
    whenever [g.Go] can start a task there is such a run, returning
    [ErrNotFound]. *)
Theorem List_propagates_not_found (c : Call) :
  (∃ id, id ∈ ids c ∧ Get (upstream c) id = inr ErrNotFound) →
  (∀ id e, id ∈ ids c → Get (upstream c) id = inr e → e = ErrNotFound) →
  (∀ s items err,
     reachable c s → returns s items err →
     items = None
     ∧ ∃ e, err = Some e ∧ g_err s = Some e
            ∧ (caller_canceled s = false → e = ErrNotFound))
  ∧ (admits (SetLimit (maxWorkers c)) 0 = true →
     ∃ s, reachable c s ∧ caller_canceled s = false
          ∧ returns s None (Some ErrNotFound)).
Proof.
  intros (id & Hid & Hnf) Honly. split.
  - intros s items err Hs Hret.
    destruct (returned_shape c s Hs) as [_ Hshape].
    destruct (Hshape _ _ Hret) as [(e & -> & -> & Hg)|(_ & Herrs & _ & _)].
    + split; [done|]. exists e. split_and!; [done..|].
      intros Hcc.
      destruct (first_error_natural c s Hs Hcc e Hg) as (id' & Hid' & Hget).
      by eapply Honly.
    + exfalso.
      destruct (failures_noticed c s Hs id Hid) as [Hp|[Ht|He]]; eauto.
      * unfold pending, returns in *. rewrite Hret in Hp.
        by apply elem_of_nil in Hp.
      * rewrite (past_wait_no_tasks c s Hs) in Ht.
        -- by apply elem_of_nil in Ht.
        -- unfold past_wait, returns in *. by rewrite Hret.
  - intros Hadm.
    destruct (sequential_returns c Hadm) as (s & Hrun & _ & Hcc & Hres).
    exists s. split; [by exists (sequential c)|]. split; [done|].
    destruct (first_error c (ids c)) as [e|] eqn:Hfirst.
    + apply first_error_Some in Hfirst as (id' & Hid' & Hget).
      by rewrite (Honly _ _ Hid' Hget) in Hres.
    + destruct (first_error_None c _ Hfirst id Hid) as [item Hitem].
      congruence.
Qed.

(** With the second of three identifiers absent upstream. *)
Lemma List_propagates_not_found_witness :
  (∀ s items err,
     reachable second_of_three_absent s → returns s items err →
     items = None
     ∧ ∃ e, err = Some e ∧ g_err s = Some e
            ∧ (caller_canceled s = false → e = ErrNotFound))
  ∧ ∃ s, reachable second_of_three_absent s ∧ caller_canceled s = false
         ∧ returns s None (Some ErrNotFound).
Proof.
  destruct (List_propagates_not_found second_of_three_absent) as [Hall Hex].
  - exists 2%N. split; [|vm_compute; reflexivity].
    apply elem_of_cons. right. by left.
  - intros id e Hid.
    repeat (apply elem_of_cons in Hid as [->|Hid]);
      [vm_compute; congruence..|by apply elem_of_nil in Hid].
  - split; [exact Hall|]. apply Hex. reflexivity.
Defined.

(** The predicate and the output.  A task forwards the record it fetched
    exactly when there is no predicate or the predicate accepts the record.
    A returned list comes without error, holds only records that were
    fetched for a requested identifier and forwarded so, each under its own
    [ID], in the order of [ids].  When, moreover, the records carry the
    identifier they were requested under and the collector has emptied
    [processed], a fetched record is in the list exactly when there is no
    predicate or the predicate accepts it. *)
Lemma List_includes_iff_accepted (c : Call) :
  (∀ item, forwards (filter_ c) item = true ↔ accepted (filter_ c) item)
  ∧ ∀ s l err,
      reachable c s → returns s (Some l) err →
      err = None
      ∧ (∀ r, r ∈ l →
           ∃ id, id ∈ ids c ∧ Get (upstream c) id = inl r
                 ∧ accepted (filter_ c) r ∧ Item_ID r ∈ ids c)
      ∧ sublist (Item_ID <$> l) (ids c)
      ∧ (faithful c → processed s = [] →
         ∀ id r, id ∈ ids c → Get (upstream c) id = inl r →
                 (r ∈ l ↔ accepted (filter_ c) r)).
Proof.
  split; [intros item; apply forwards_accepted|].
  intros s l err Hs Hret.
  destruct (List_sound _ _ _ _ Hs Hret) as (Herr & Hl & Hfetched & Hsub).
  split_and!; [done| |done|].
  - intros r Hr. destruct (Hfetched r Hr) as [(id & Hid & Hfw) Hkey].
    apply forwarded_Some in Hfw as [Hget Hfw].
    exists id. split_and!; [done..| |done]. by apply forwards_accepted.
  - intros Hfaith Hbuf id r Hid Hget.
    destruct (List_drained c s l err Hfaith Hs Hret Hbuf) as [_ ->].
    rewrite list_elem_of_omap. split.
    + intros (id' & _ & Hfw). apply forwarded_Some in Hfw as [_ Hfw].
      by apply forwards_accepted.
    + intros Hacc. exists id. split; [done|].
      apply forwarded_Some. split; [done|]. by apply forwards_accepted.
Qed.

(** Identifiers 5, 200 and 7 with the story predicate: the sequential run
    returns the stories 5 and 7, in that order. *)
Example List_includes_iff_accepted_stories :
  returns (after stories_of_three (sequential stories_of_three))
    (Some [toy_item 5%N StoryType; toy_item 7%N StoryType]) None
  ∧ (toy_item 200%N CommentType
       ∈ [toy_item 5%N StoryType; toy_item 7%N StoryType]
     ↔ accepted (filter_ stories_of_three) (toy_item 200%N CommentType))
  ∧ (toy_item 7%N StoryType
       ∈ [toy_item 5%N StoryType; toy_item 7%N StoryType]
     ↔ accepted (filter_ stories_of_three) (toy_item 7%N StoryType)).
Proof.
  assert (reachable stories_of_three
            (after stories_of_three (sequential stories_of_three))) as Hs.
  { exists (sequential stories_of_three). vm_compute. reflexivity. }
  assert (returns (after stories_of_three (sequential stories_of_three))
            (Some [toy_item 5%N StoryType; toy_item 7%N StoryType]) None)
    as Hret by (vm_compute; reflexivity).
  assert (faithful stories_of_three) as Hfaith.
  { intros id item Hid.
    repeat (apply elem_of_cons in Hid as [->|Hid]);
      [by (vm_compute; intros Heq; simplify_eq)..|by apply elem_of_nil in Hid]. }
  destruct (proj2 (List_includes_iff_accepted stories_of_three) _ _ _ Hs Hret)
    as (_ & _ & _ & Hiff).
  split; [done|]. split.
  - refine (Hiff Hfaith _ 200%N _ _ _);
      [vm_compute; reflexivity| |vm_compute; reflexivity].
    apply elem_of_cons. right. by left.
  - refine (Hiff Hfaith _ 7%N _ _ _);
      [vm_compute; reflexivity| |vm_compute; reflexivity].
    do 2 (apply elem_of_cons; right). by left.
Qed.

(** C4 is what [List] is written to do, and the collector breaks it.
    Identifiers 5, 200 and 7 under the story predicate, every fetch
    succeeds, the caller's context stays live: the records of items 5 and 7
    are fetched and accepted by the predicate (the comment 200 is not),
    and under [losing_story_schedule] the call returns the record of item 5
    alone, without error; the record of item 7 is still in [processed]. *)
Theorem List_loses_accepted_record_to_ctx_done :
  Get (upstream stories_of_three) 5%N = inl (toy_item 5%N StoryType)
  ∧ Get (upstream stories_of_three) 200%N = inl (toy_item 200%N CommentType)
  ∧ Get (upstream stories_of_three) 7%N = inl (toy_item 7%N StoryType)
  ∧ is_story (toy_item 5%N StoryType) = true
  ∧ is_story (toy_item 200%N CommentType) = false
  ∧ is_story (toy_item 7%N StoryType) = true
  ∧ List stories_of_three losing_story_schedule
    = Some (Some [toy_item 5%N StoryType], None)
  ∧ run stories_of_three losing_story_schedule (List_start stories_of_three)
    = Some (after stories_of_three losing_story_schedule)
  ∧ processed (after stories_of_three losing_story_schedule)
    = [toy_item 7%N StoryType]
  ∧ caller_canceled (after stories_of_three losing_story_schedule) = false
  ∧ List stories_of_three (sequential stories_of_three)
    = Some (Some [toy_item 5%N StoryType; toy_item 7%N StoryType], None).
Proof. split_and!; vm_compute; reflexivity. Qed.

(** C10 as stated fails: the upstream answers the request for item 1 with
    the record of item 2 and the request for item 2 with the record of
    item 3.  The record fetched for identifier 1 decodes to [ID] 2, which
    differs from 1, and the call returns it, at the place of identifier 2;
    the record fetched for identifier 2 is the one that is left out. *)
Lemma List_returns_record_of_other_id :
  Get (upstream shifted_pair) 1%N = inl (toy_item 2%N StoryType)
  ∧ Get (upstream shifted_pair) 2%N = inl (toy_item 3%N StoryType)
  ∧ Item_ID (toy_item 2%N StoryType) ≠ 1%N
  ∧ List shifted_pair (sequential shifted_pair)
    = Some (Some [toy_item 2%N StoryType], None)
  ∧ processed (after shifted_pair (sequential shifted_pair)) = [].
Proof. split_and!; try (vm_compute; reflexivity). vm_compute. discriminate. Qed.

(** C10, as the code has it.  The collector files every record under the
    record's own [ID] and the final loop looks the requested identifiers
    up.  So a returned list comes without error and is the list of the
    records found under the requested identifiers, in the order of [ids];
    every record in it was fetched and forwarded for some requested
    identifier and has a requested identifier as its [ID]; and a record
    whose [ID] is not a requested identifier is not in it.  When every
    fetch succeeds and [g.Go] can start a task, the sequential run returns
    such a list, without error. *)
Theorem List_files_records_under_their_ID (c : Call) :
  (∀ s l err,
     reachable c s → returns s (Some l) err →
     err = None
     ∧ l = collect (ids c) (itemsMap s)
     ∧ (∀ k r, itemsMap s !! k = Some r → k = Item_ID r ∧ fetched c r)
     ∧ (∀ r, r ∈ l → fetched c r ∧ Item_ID r ∈ ids c)
     ∧ (∀ r, Item_ID r ∉ ids c → r ∉ l)
     ∧ sublist (Item_ID <$> l) (ids c))
  ∧ (first_error c (ids c) = None →
     admits (SetLimit (maxWorkers c)) 0 = true →
     ∃ s l, reachable c s ∧ returns s (Some l) None).
Proof.
  split.
  - intros s l err Hs Hret.
    destruct (List_sound _ _ _ _ Hs Hret) as (Herr & Hl & Hfetched & Hsub).
    split_and!; try done.
    + apply (itemsMap_fetched c s Hs).
    + intros r Hid Hr. by destruct (Hfetched r Hr).
  - intros Hok Hadm.
    destruct (sequential_returns c Hadm) as (s & Hrun & _ & _ & Hres).
    rewrite Hok in Hres. exists s. eexists.
    split; [by exists (sequential c)|done].
Qed.

(** Against the upstream that is off by one, with identifier 1 alone: the
    record that comes back has [ID] 2, which was not requested; the
    sequential run returns the empty list without error. *)
Lemma List_files_records_under_their_ID_witness :
  List shifted_story (sequential shifted_story) = Some (Some [], None)
  ∧ (toy_item 2%N StoryType ∉ ([] : list Item))
  ∧ (∃ s l, reachable shifted_story s ∧ returns s (Some l) None).
Proof.
  assert (reachable shifted_story
            (after shifted_story (sequential shifted_story))) as Hs.
  { exists (sequential shifted_story). vm_compute. reflexivity. }
  assert (returns (after shifted_story (sequential shifted_story))
            (Some []) None) as Hret by (vm_compute; reflexivity).
  destruct (List_files_records_under_their_ID shifted_story) as [Hall Hex].
  destruct (Hall _ _ _ Hs Hret) as (_ & _ & _ & _ & Hout & _).
  split_and!.
  - vm_compute. reflexivity.
  - apply Hout. intros Hid.
    apply elem_of_cons in Hid as [Hid|Hid]; [done|].
    by apply elem_of_nil in Hid.
  - apply Hex; vm_compute; reflexivity.
Defined.

(** ** [List]: the concurrency cap *)

Lemma SetLimit_negative (n : Z) : n < 0 → SetLimit n = None.
Proof. unfold SetLimit. intros Hn. by destruct (Z.ltb_spec n 0); [|lia]. Qed.

Lemma all_started (c : Call) (l : list uint) (s : state) :
  maxWorkers c < 0 →
  main s = AtGo l →
  ∃ s', run c (replicate (length l) ActGo) s = Some s'
        ∧ main s' = AtGo []
        ∧ tasks s' = tasks s ++ (Fetching <$> l).
Proof.
  intros Hneg. revert s. induction l as [|id l IH]; intros s Hmain; simpl.
  - exists s. by rewrite app_nil_r.
  - rewrite Hmain, (SetLimit_negative _ Hneg). simpl.
    destruct (IH (set_main (AtGo l) (set_tasks (tasks s ++ [Fetching id]) s)))
      as (s' & Hrun & Hmain' & Htasks'); [done|].
    exists s'. split; [done|]. split; [done|].
    rewrite Htasks'. simpl. by rewrite <- app_assoc.
Qed.

Lemma never_returns_invariant (c : Call) (s : state) (P : state → Prop) :
  P s →
  (∀ a s1 s2, P s1 → step c a s1 = Some s2 → P s2) →
  (∀ s1, P s1 → ∀ items err, ¬ returns s1 items err) →
  never_returns c s.
Proof.
  intros Hs Hstep Hnot sched. revert s Hs.
  induction sched as [|a sched IH]; intros s Hs s' Hrun; simpl in Hrun.
  - injection Hrun as <-. by apply Hnot.
  - destruct (step c a s) as [s1|] eqn:Hs1; [|done].
    eapply IH; [|done]. by eapply Hstep.
Qed.

(** C6 as stated fails at [maxWorkers = 0]: [g.Go] cannot start the first
    task (an uncapped group would), no goroutine can move, and the call
    never returns. *)
Lemma List_zero_workers_never_returns :
  step one_story_zero_workers ActGo (List_start one_story_zero_workers) = None
  ∧ step_unbounded one_story_zero_workers ActGo
      (List_start one_story_zero_workers) ≠ None
  ∧ blocked one_story_zero_workers (List_start one_story_zero_workers)
  ∧ never_returns one_story_zero_workers (List_start one_story_zero_workers).
Proof.
  split_and!.
  - vm_compute. reflexivity.
  - vm_compute. discriminate.
  - intros a Hne.
    destruct a as [| | |i r|i| | | |]; try done; vm_compute; reflexivity.
  - apply (never_returns_invariant _ _
             (λ s, main s = AtGo [1%N] ∧ tasks s = [])).
    + done.
    + intros a s1 s2 [Hmain Htasks] Hstep.
      step_cases Hstep; simplify_eq; try done.
    + intros s1 [Hmain _] items err. unfold returns. by rewrite Hmain.
Qed.

(** C6, as the code has it.  For every negative [maxWorkers] the group has
    no semaphore: every transition is the one of an uncapped group, the
    tasks of all identifiers can be in flight at once, and the sequential
    run returns. *)
Theorem List_negative_maxWorkers_unbounded (c : Call) :
  maxWorkers c < 0 →
  SetLimit (maxWorkers c) = None
  ∧ (∀ a s, step c a s = step_unbounded c a s)
  ∧ (∀ sched s, run c sched s
                = run (SetMaxWorkers maxWorkers_default c) sched s)
  ∧ (∃ s, run c (replicate (length (ids c)) ActGo) (List_start c) = Some s
          ∧ tasks s = Fetching <$> ids c)
  ∧ (∃ s items err, run c (sequential c) (List_start c) = Some s
                    ∧ returns s items err).
Proof.
  intros Hneg. pose proof (SetLimit_negative _ Hneg) as Hlim.
  split_and!.
  - done.
  - intros a s. destruct a; try done. simpl. by rewrite Hlim.
  - intros sched. induction sched as [|a sched IH]; intros s; simpl; [done|].
    assert (step c a s = step (SetMaxWorkers maxWorkers_default c) a s) as ->.
    { destruct a; try done. simpl. by rewrite Hlim. }
    destruct (step _ a s); [apply IH|done].
  - destruct (ids c) as [|id l] eqn:Hids.
    + exists (List_start c). done.
    + destruct (all_started c (id :: l) (List_start c) Hneg) as (s & Hr & _ & Ht).
      * unfold List_start. by rewrite Hids.
      * exists s. split; [done|]. rewrite Ht. unfold List_start. by rewrite Hids.
  - destruct (sequential_returns c) as (s & Hrun & _ & _ & Hres).
    { by rewrite Hlim. }
    exists s. destruct (first_error c (ids c)); eauto.
Qed.

(** After [SetMaxWorkers(-5)]. *)
Lemma List_negative_maxWorkers_unbounded_witness :
  SetLimit (maxWorkers (SetMaxWorkers (-5) stories_of_three)) = None
  ∧ (∀ a s, step (SetMaxWorkers (-5) stories_of_three) a s
            = step_unbounded (SetMaxWorkers (-5) stories_of_three) a s)
  ∧ (∀ sched s,
       run (SetMaxWorkers (-5) stories_of_three) sched s
       = run (SetMaxWorkers maxWorkers_default
                (SetMaxWorkers (-5) stories_of_three)) sched s)
  ∧ (∃ s, run (SetMaxWorkers (-5) stories_of_three)
            (replicate (length (ids (SetMaxWorkers (-5) stories_of_three)))
               ActGo)
            (List_start (SetMaxWorkers (-5) stories_of_three)) = Some s
          ∧ tasks s = Fetching <$> ids (SetMaxWorkers (-5) stories_of_three))
  ∧ (∃ s items err,
       run (SetMaxWorkers (-5) stories_of_three)
         (sequential (SetMaxWorkers (-5) stories_of_three))
         (List_start (SetMaxWorkers (-5) stories_of_three)) = Some s
       ∧ returns s items err).
Proof.
  apply (List_negative_maxWorkers_unbounded
           (SetMaxWorkers (-5) stories_of_three)).
  reflexivity.
Defined.

(** ** Projection of lists *)

Lemma ToList_filter_fmap {C : Type} `{Convertible C} (tag : string)
    (fn : Item → ConvertibleValue) (narrow : Item → C) (items : list Item) :
  Convertible_Type (Convertible_zero : C) = tag →
  converters !! tag = Some fn →
  (∀ i, Convertible_assert (fn i) = Some (narrow i)) →
  ToList items = Some (narrow <$> filter (λ i, Item_Type i = tag) items).
Proof.
  intros Htag Hfn Hassert.
  induction items as [|item items IH]; [done|].
  cbn [ToList]. rewrite (To_known item tag fn narrow Htag Hfn Hassert), IH.
  rewrite filter_cons. by destruct (decide (Item_Type item = tag)).
Qed.

(** X1.  [ToList] never panics on the six types of the package, and its
    result is the input with the items of other type tags left out and
    every remaining item converted by the type's own converter, in the
    order of the input. *)
Theorem ToList_filters_by_type_and_converts (items : list Item) :
  ToList items
  = Some (ToStory <$> filter (λ i, Item_Type i = StoryType) items)
  ∧ ToList items
    = Some (ToComment <$> filter (λ i, Item_Type i = CommentType) items)
  ∧ ToList items = Some (ToAsk <$> filter (λ i, Item_Type i = AskType) items)
  ∧ ToList items = Some (ToJob <$> filter (λ i, Item_Type i = JobType) items)
  ∧ ToList items
    = Some (ToPoll <$> filter (λ i, Item_Type i = PollType) items)
  ∧ ToList items
    = Some (ToPollOption
              <$> filter (λ i, Item_Type i = PollOptionType) items).
Proof.
  split_and!.
  - by apply (ToList_filter_fmap StoryType (λ i, OfStory (ToStory i))).
  - by apply (ToList_filter_fmap CommentType (λ i, OfComment (ToComment i))).
  - by apply (ToList_filter_fmap AskType (λ i, OfAsk (ToAsk i))).
  - by apply (ToList_filter_fmap JobType (λ i, OfJob (ToJob i))).
  - by apply (ToList_filter_fmap PollType (λ i, OfPoll (ToPoll i))).
  - by apply (ToList_filter_fmap PollOptionType
                (λ i, OfPollOption (ToPollOption i))).
Qed.

(** X2.  The table [converters] has the six type tags as its keys, and the
    converter registered under a tag builds a value whose [Type()] is that
    tag and whose embedded [baseItem] is the item's. *)
Theorem converters_build_their_tag (tag : string) :
  (is_Some (converters !! tag) ↔ tag ∈ known_types)
  ∧ ∀ fn item,
      converters !! tag = Some fn →
      ConvertibleValue_Type (fn item) = tag
      ∧ ConvertibleValue_base (fn item) = Item_base item.
Proof.
  split.
  - rewrite <- not_eq_None_Some, converters_lookup_None.
    split; [apply dec_stable|by intros ? ?].
  - intros fn item. unfold converters.
    repeat (rewrite lookup_insert; case_decide;
            [intros [= <-]; by subst tag|]).
    by rewrite lookup_empty.
Qed.

Lemma known_types_filters (items : list Item) :
  (length (filter (λ i, Item_Type i = StoryType) items)
   + length (filter (λ i, Item_Type i = CommentType) items)
   + length (filter (λ i, Item_Type i = AskType) items)
   + length (filter (λ i, Item_Type i = JobType) items)
   + length (filter (λ i, Item_Type i = PollType) items)
   + length (filter (λ i, Item_Type i = PollOptionType) items))%nat
  = length (filter (λ i, Item_Type i ∈ known_types) items).
Proof.
  induction items as [|item items IH]; [done|].
  rewrite !filter_cons.
  destruct (decide (Item_Type item ∈ known_types)) as [Hin|Hout].
  - unfold known_types in Hin.
    repeat (apply elem_of_cons in Hin as [Hin|Hin]);
      [rewrite Hin; repeat case_decide; try done; cbn [length]; lia..
      |by apply elem_of_nil in Hin].
  - unfold known_types in Hout. rewrite !not_elem_of_cons in Hout.
    destruct Hout as (? & ? & ? & ? & ? & ? & _).
    rewrite !decide_False by done. exact IH.
Qed.

(** X3.  The six projections of a list split its items with a known type
    tag among them: every such item is in exactly one projection, so the
    lengths of the six results of [ToList] add up to the number of items
    whose tag is one of the six. *)
Theorem ToList_projections_partition (items : list Item) :
  ∃ (stories : list Story) (comments : list Comment) (asks : list Ask)
    (jobs : list Job) (polls : list Poll) (options : list PollOption),
    ToList items = Some stories ∧ ToList items = Some comments
    ∧ ToList items = Some asks ∧ ToList items = Some jobs
    ∧ ToList items = Some polls ∧ ToList items = Some options
    ∧ (length stories + length comments + length asks + length jobs
       + length polls + length options)%nat
      = length (filter (λ i, Item_Type i ∈ known_types) items).
Proof.
  eexists _, _, _, _, _, _. split_and!.
  - by apply (ToList_filter_fmap StoryType (λ i, OfStory (ToStory i)) ToStory).
  - by apply (ToList_filter_fmap CommentType (λ i, OfComment (ToComment i))
                ToComment).
  - by apply (ToList_filter_fmap AskType (λ i, OfAsk (ToAsk i)) ToAsk).
  - by apply (ToList_filter_fmap JobType (λ i, OfJob (ToJob i)) ToJob).
  - by apply (ToList_filter_fmap PollType (λ i, OfPoll (ToPoll i)) ToPoll).
  - by apply (ToList_filter_fmap PollOptionType
                (λ i, OfPollOption (ToPollOption i)) ToPollOption).
  - rewrite !length_fmap. apply known_types_filters.
Qed.

(** ** More on sorting *)

Lemma sorters_sort_by {S : Type} `{Sortable S} (items : list S)
    (order : Order) :
  SortID items order = sort_by getID items order
  ∧ SortScore items order = sort_by getScore items order
  ∧ SortTime items order = sort_by (λ x, UnixNano (getTime x)) items order
  ∧ SortType items order = sort_by getType items order.
Proof. done. Qed.

Lemma StronglySorted_filter {A : Type} (R : relation A) (P : A → Prop)
    `{∀ x, Decision (P x)} (l : list A) :
  StronglySorted R l → StronglySorted R (filter P l).
Proof.
  induction 1 as [|a l Hs IH Hall]; [constructor|].
  rewrite filter_cons. destruct (decide (P a)); [|done].
  constructor; [done|].
  apply Forall_forall. intros b [_ Hb]%list_elem_of_filter.
  by eapply Forall_forall in Hall.
Qed.

Lemma StronglySorted_impl_elem_of {A : Type} (R R' : relation A) (l : list A) :
  (∀ a b, a ∈ l → b ∈ l → R a b → R' a b) →
  StronglySorted R l → StronglySorted R' l.
Proof.
  intros Himpl Hs. induction Hs as [|a l Hs IH Hall]; [constructor|].
  constructor.
  - apply IH. intros x y Hx Hy. apply Himpl; by right.
  - apply Forall_forall. intros b Hb. apply Himpl; [by left|by right|].
    by eapply Forall_forall in Hall.
Qed.

Lemma filter_fmap_pre {A B : Type} (f : A → B) (P : B → Prop)
    `{∀ y, Decision (P y)} (l : list A) :
  filter P (f <$> l) = f <$> filter (λ x, P (f x)) l.
Proof.
  induction l as [|x l IH]; [done|].
  rewrite fmap_cons, !filter_cons, IH. by destruct (decide (P (f x))).
Qed.

Lemma filter_swap {A : Type} (P Q : A → Prop) `{∀ x, Decision (P x)}
    `{∀ x, Decision (Q x)} (l : list A) :
  filter P (filter Q l) = filter Q (filter P l).
Proof.
  induction l as [|x l IH]; [done|].
  rewrite !filter_cons.
  destruct (decide (P x)), (decide (Q x)); rewrite ?filter_cons;
    repeat case_decide; try done; by rewrite IH.
Qed.

Lemma filter_rev {A : Type} (P : A → Prop) `{∀ x, Decision (P x)} (l : list A) :
  filter P (rev l) = rev (filter P l).
Proof.
  induction l as [|x l IH]; [done|].
  cbn [rev]. rewrite filter_app, IH, !filter_cons, filter_nil.
  destruct (decide (P x)); [done|].
  by rewrite app_nil_r.
Qed.

Lemma filter_key_NoDup {A K : Type} `{EqDecision K} (key : A → K) (k : K)
    (l : list A) :
  NoDup (key <$> l) → (length (filter (λ x, key x = k) l) ≤ 1)%nat.
Proof.
  induction l as [|x l IH]; [simpl; lia|].
  rewrite fmap_cons, NoDup_cons. intros [Hx Hl].
  rewrite filter_cons. destruct (decide (key x = k)) as [Hk|Hk]; [|by apply IH].
  assert (filter (λ y, key y = k) l = []) as ->; [|simpl; lia].
  destruct (filter (λ y, key y = k) l) as [|y l'] eqn:Hf; [done|].
  assert (y ∈ filter (λ y, key y = k) l) as [Hy Hin]%list_elem_of_filter
    by (rewrite Hf; by left).
  destruct Hx. rewrite Hk, <- Hy. by apply list_elem_of_fmap_2.
Qed.

Section sort_by.
Context {S K : Type} `{Sortable S} `{OrderedLaws K} `{EqDecision K}.
Context (key : S → K).

Lemma sort_by_stable (items : list S) (order : Order) :
  order = Ascending ∨ order = Descending →
  stably_sorted key order items (sort_by key items order).1.
Proof.
  intros [-> | ->].
  - apply Sort_ascending_stable.
  - apply Sort_descending_stable.
Qed.

Lemma sort_by_invalid (items : list S) (order : Order) :
  order ≠ Ascending → order ≠ Descending →
  sort_by key items order = (items, [InvalidSortOrder order]).
Proof.
  intros Ha Hd. unfold sort_by.
  destruct (Z.eqb_spec order Ascending); [done|].
  by destruct (Z.eqb_spec order Descending).
Qed.

Lemma sort_by_valid (items : list S) (order : Order) :
  order = Ascending ∨ order = Descending →
  (sort_by key items order).2 = [].
Proof. by intros [-> | ->]. Qed.

Lemma order_cases (order : Order) :
  (order = Ascending ∨ order = Descending)
  ∨ (order ≠ Ascending ∧ order ≠ Descending).
Proof.
  destruct (decide (order = Ascending)); [by left; left|].
  destruct (decide (order = Descending)); [by left; right|by right].
Qed.

Lemma stably_sorted_refl (order : Order) (before l : list S) :
  stably_sorted key order before l → stably_sorted key order l l.
Proof. intros (_ & Hs & _). by split. Qed.

Lemma sort_by_idempotent (items : list S) (order : Order) :
  sort_by key (sort_by key items order).1 order = sort_by key items order.
Proof.
  destruct (order_cases order) as [Hv|[Ha Hd]].
  - pose proof (sort_by_stable items order Hv) as Hst.
    pose proof (sort_by_stable (sort_by key items order).1 order Hv) as Hst'.
    pose proof (stably_sorted_unique key order _ _ _ Hst'
                  (stably_sorted_refl _ _ _ Hst)) as Heq.
    apply injective_projections; [done|].
    by rewrite !sort_by_valid.
  - by rewrite !sort_by_invalid.
Qed.

Lemma sort_by_sorted_input (items : list S) (order : Order) :
  StronglySorted
    (λ a b, if order =? Ascending then key_le key a b else key_le key b a)
    items →
  (sort_by key items order).1 = items.
Proof.
  intros Hs. destruct (order_cases order) as [Hv|[Ha Hd]].
  - eapply (stably_sorted_unique key order items).
    + by apply sort_by_stable.
    + by split.
  - by rewrite sort_by_invalid.
Qed.

Lemma sort_by_descending_rev (items : list S) :
  NoDup (key <$> items) →
  (sort_by key items Descending).1 = rev (sort_by key items Ascending).1.
Proof.
  intros Hnd.
  destruct (sort_by_stable items Ascending) as (Hp & Hs & Ht); [by left|].
  eapply (stably_sorted_unique key Descending items).
  - apply sort_by_stable. by right.
  - split_and!.
    + by rewrite <- Permutation_rev.
    + apply StronglySorted_flip_rev. exact Hs.
    + intros k. rewrite filter_rev, Ht.
      pose proof (filter_key_NoDup key k items Hnd) as Hlen.
      destruct (filter (λ x, key x = k) items) as [|x [|y l]]; try done.
      simpl in Hlen. lia.
Qed.
End sort_by.

Section sort_by_projection.
Context {S1 S2 K : Type} `{Sortable S1} `{Sortable S2} `{OrderedLaws K}
  `{EqDecision K}.
Context (key1 : S1 → K) (key2 : S2 → K) (proj : S1 → S2) (P : S1 → Prop)
  `{∀ x, Decision (P x)}.
Hypothesis key_proj : ∀ x, key2 (proj x) = key1 x.

Lemma sort_by_projection (items : list S1) (order : Order) :
  (sort_by key2 (proj <$> filter P items) order).1
  = proj <$> filter P (sort_by key1 items order).1.
Proof.
  destruct (order_cases order) as [Hv|[Ha Hd]]; [|by rewrite !sort_by_invalid].
  destruct (sort_by_stable key1 items order Hv) as (Hp & Hs & Ht).
  eapply (stably_sorted_unique key2 order (proj <$> filter P items)).
  - by apply sort_by_stable.
  - split_and!.
    + by rewrite Hp.
    + eapply StronglySorted_fmap; [|by apply StronglySorted_filter].
      intros x y. unfold key_le. by rewrite !key_proj.
    + intros k. rewrite !filter_fmap_pre.
      rewrite (list_filter_iff _ (λ x, key1 x = k))
        by (intros x; by rewrite key_proj).
      rewrite (list_filter_iff (λ x, key2 (proj x) = k) (λ x, key1 x = k)
                 (filter P items)) by (intros x; by rewrite key_proj).
      by rewrite !(filter_swap _ P), Ht.
Qed.
End sort_by_projection.

(** X4.  [Sort] with [cmp.Compare] on any key of an ordered type is a
    stable sort by that key, ascending, and descending when the comparator
    swaps its arguments.  On at most 20 items, where
    [slices.SortStableFunc] is the insertion sort alone, [Sort] only
    rearranges the items whatever the comparator, also one that is not an
    order. *)
Theorem Sort_by_any_key_stable {S K : Type} `{Sortable S} `{OrderedLaws K}
    `{EqDecision K} (key : S → K) (items : list S) :
  stably_sorted key Ascending items
    (Sort items (λ a b, cmp_Compare (key a) (key b)))
  ∧ stably_sorted key Descending items
      (Sort items (λ a b, cmp_Compare (key b) (key a)))
  ∧ ((length items ≤ 20)%nat →
     ∀ sort : S → S → Z, Sort items sort ≡ₚ items).
Proof.
  split_and!.
  - apply Sort_ascending_stable.
  - apply Sort_descending_stable.
  - intros _ sort. apply insertionSortCmpFunc_Permutation.
Qed.

(** Sorting by author, the custom order of the package's introduction. *)
Lemma Sort_by_any_key_stable_witness :
  stably_sorted getBy Ascending [scored 5 "b"; scored 3 "a"; scored 1 "b"]
    (Sort [scored 5 "b"; scored 3 "a"; scored 1 "b"]
       (λ a b, cmp_Compare (getBy a) (getBy b)))
  ∧ stably_sorted getBy Descending [scored 5 "b"; scored 3 "a"; scored 1 "b"]
      (Sort [scored 5 "b"; scored 3 "a"; scored 1 "b"]
         (λ a b, cmp_Compare (getBy b) (getBy a)))
  ∧ ∀ sort : baseItem → baseItem → Z,
      Sort [scored 5 "b"; scored 3 "a"; scored 1 "b"] sort
      ≡ₚ [scored 5 "b"; scored 3 "a"; scored 1 "b"].
Proof.
  destruct (Sort_by_any_key_stable getBy
              [scored 5 "b"; scored 3 "a"; scored 1 "b"])
    as (Hup & Hdown & Hany).
  split; [exact Hup|]. split; [exact Hdown|].
  apply Hany. simpl. lia.
Defined.

(** X5.  An order that is neither [Ascending] nor [Descending] makes each
    of the four sorters leave the items as they are and print the
    invalid-order message, once; the two valid orders print nothing. *)
Theorem sorters_invalid_order {S : Type} `{Sortable S} (items : list S)
    (order : Order) :
  (order ≠ Ascending → order ≠ Descending →
   SortID items order = (items, [InvalidSortOrder order])
   ∧ SortScore items order = (items, [InvalidSortOrder order])
   ∧ SortTime items order = (items, [InvalidSortOrder order])
   ∧ SortType items order = (items, [InvalidSortOrder order]))
  ∧ (order = Ascending ∨ order = Descending →
     (SortID items order).2 = [] ∧ (SortScore items order).2 = []
     ∧ (SortTime items order).2 = [] ∧ (SortType items order).2 = []).
Proof.
  destruct (sorters_sort_by items order) as (-> & -> & -> & ->).
  split.
  - intros Ha Hd. by rewrite !sort_by_invalid.
  - intros Hv. by rewrite !sort_by_valid.
Qed.

Lemma sorters_invalid_order_witness :
  SortID [scored 5 "a"; scored 3 "b"] 2
  = ([scored 5 "a"; scored 3 "b"], [InvalidSortOrder 2])
  ∧ SortScore [scored 5 "a"; scored 3 "b"] 2
    = ([scored 5 "a"; scored 3 "b"], [InvalidSortOrder 2])
  ∧ SortTime [scored 5 "a"; scored 3 "b"] 2
    = ([scored 5 "a"; scored 3 "b"], [InvalidSortOrder 2])
  ∧ SortType [scored 5 "a"; scored 3 "b"] 2
    = ([scored 5 "a"; scored 3 "b"], [InvalidSortOrder 2]).
Proof.
  apply (sorters_invalid_order [scored 5 "a"; scored 3 "b"] 2); discriminate.
Defined.

(** X6.  Each of the four sorters is idempotent: sorting its own result
    again, in the same order, changes nothing (and prints what the first
    call printed). *)
Theorem sorters_idempotent {S : Type} `{Sortable S} (items : list S)
    (order : Order) :
  SortID (SortID items order).1 order = SortID items order
  ∧ SortScore (SortScore items order).1 order = SortScore items order
  ∧ SortTime (SortTime items order).1 order = SortTime items order
  ∧ SortType (SortType items order).1 order = SortType items order.
Proof.
  split_and!.
  - apply (sort_by_idempotent getID).
  - apply (sort_by_idempotent getScore).
  - apply (sort_by_idempotent (λ x, UnixNano (getTime x))).
  - apply (sort_by_idempotent getType).
Qed.

(** X7.  When no two items share the key, the descending result of a
    sorter is the reverse of its ascending result.  (With ties it is not:
    stability keeps tied items in their input order in both directions.) *)
Theorem sorters_descending_reverses_ascending {S : Type} `{Sortable S}
    (items : list S) :
  (NoDup (getID <$> items) →
   (SortID items Descending).1 = rev (SortID items Ascending).1)
  ∧ (NoDup (getScore <$> items) →
     (SortScore items Descending).1 = rev (SortScore items Ascending).1)
  ∧ (NoDup ((λ x, UnixNano (getTime x)) <$> items) →
     (SortTime items Descending).1 = rev (SortTime items Ascending).1)
  ∧ (NoDup (getType <$> items) →
     (SortType items Descending).1 = rev (SortType items Ascending).1).
Proof.
  split_and!.
  - apply (sort_by_descending_rev getID).
  - apply (sort_by_descending_rev getScore).
  - apply (sort_by_descending_rev (λ x, UnixNano (getTime x))).
  - apply (sort_by_descending_rev getType).
Qed.

Lemma sorters_descending_reverses_ascending_witness :
  (SortID [timed 7%N 30; timed 5%N 10; timed 9%N 20] Descending).1
  = rev (SortID [timed 7%N 30; timed 5%N 10; timed 9%N 20] Ascending).1
  ∧ (SortTime [timed 7%N 30; timed 5%N 10; timed 9%N 20] Descending).1
    = rev (SortTime [timed 7%N 30; timed 5%N 10; timed 9%N 20] Ascending).1.
Proof.
  pose proof (sorters_descending_reverses_ascending
                [timed 7%N 30; timed 5%N 10; timed 9%N 20])
    as (HID & _ & HTime & _).
  split.
  - apply HID. apply (bool_decide_unpack _). vm_compute. exact I.
  - apply HTime. apply (bool_decide_unpack _). vm_compute. exact I.
Defined.

Lemma ToList_commutes {C : Type} `{Convertible C} `{Sortable C} (tag : string)
    (fn : Item → ConvertibleValue) (narrow : Item → C) :
  Convertible_Type (Convertible_zero : C) = tag →
  converters !! tag = Some fn →
  (∀ i, Convertible_assert (fn i) = Some (narrow i)) →
  (∀ i, getID (narrow i) = getID i ∧ getScore (narrow i) = getScore i
        ∧ getTime (narrow i) = getTime i ∧ getType (narrow i) = getType i) →
  ToList_commutes_with_sorters C.
Proof.
  intros Htag Hfn Hassert Hkeys items order.
  destruct (sorters_sort_by items order) as (-> & -> & -> & ->).
  rewrite !(ToList_filter_fmap tag fn narrow) by done.
  cbn [fmap option_fmap option_map].
  destruct (sorters_sort_by
              (narrow <$> filter (λ i, Item_Type i = tag) items) order)
    as (-> & -> & -> & ->).
  split_and!; f_equal; symmetry; apply sort_by_projection; intros i;
    destruct (Hkeys i) as (? & ? & ? & ?); congruence.
Qed.

(** X8.  For each of the six types of the package, projecting a list with
    [ToList] and sorting it with one of the four sorters can be done in
    either order, with the same result, whatever the order argument. *)
Theorem ToList_commutes_with_sorting :
  ToList_commutes_with_sorters Story
  ∧ ToList_commutes_with_sorters Comment
  ∧ ToList_commutes_with_sorters Ask
  ∧ ToList_commutes_with_sorters Job
  ∧ ToList_commutes_with_sorters Poll
  ∧ ToList_commutes_with_sorters PollOption.
Proof.
  split_and!.
  - by apply (ToList_commutes StoryType (λ i, OfStory (ToStory i)) ToStory).
  - by apply (ToList_commutes CommentType (λ i, OfComment (ToComment i))
                ToComment).
  - by apply (ToList_commutes AskType (λ i, OfAsk (ToAsk i)) ToAsk).
  - by apply (ToList_commutes JobType (λ i, OfJob (ToJob i)) ToJob).
  - by apply (ToList_commutes PollType (λ i, OfPoll (ToPoll i)) ToPoll).
  - by apply (ToList_commutes PollOptionType
                (λ i, OfPollOption (ToPollOption i)) ToPollOption).
Qed.

(** ** Time order *)

Lemma in_int64_bounds (z : Z) : in_int64 z = true ↔ - 2 ^ 63 ≤ z ≤ 2 ^ 63 - 1.
Proof.
  unfold in_int64, int64_min, int64_max.
  rewrite andb_true_iff, !Z.leb_le. done.
Qed.

Lemma UnixNano_of_seconds (sec : Z) :
  nanoseconds_fit sec →
  UnixNano (Timestamp_of_seconds sec) = sec * 1000000000.
Proof.
  unfold nanoseconds_fit. intros Hsec.
  unfold UnixNano, Timestamp_of_seconds, Time_UnixNano. cbn [Timestamp_Time].
  change (Time_unixSec (time_Unix sec 0)) with (Time_Unix (time_Unix sec 0)).
  rewrite Time_Unix_time_Unix by (apply in_int64_bounds; lia).
  change (Time_nsec (time_Unix sec 0)) with 0.
  rewrite Z.add_0_r. apply wrap64_id, in_int64_bounds. lia.
Qed.

(** X9.  For items whose times were decoded from epoch seconds between
    -9223372036 and 9223372036 (the years 1677 to 2262), the key of
    [SortTime] is the seconds times 10^9, and [SortTime] leaves the items
    in time order: earliest first under [Ascending], latest first under
    [Descending]. *)
Theorem SortTime_chronological {S : Type} `{Sortable S} (items : list S)
    (sec : S → Z) :
  (∀ x, x ∈ items →
        nanoseconds_fit (sec x) ∧ getTime x = Timestamp_of_seconds (sec x)) →
  Forall (λ x, UnixNano (getTime x) = sec x * 1000000000) items
  ∧ StronglySorted (λ a b, sec a ≤ sec b) (SortTime items Ascending).1
  ∧ StronglySorted (λ a b, sec b ≤ sec a) (SortTime items Descending).1.
Proof.
  intros Hitems.
  assert (∀ x, x ∈ items → UnixNano (getTime x) = sec x * 1000000000) as Hkey.
  { intros x Hx. destruct (Hitems x Hx) as [Hfit ->].
    by apply UnixNano_of_seconds. }
  assert (∀ a b, a ∈ items → b ∈ items →
            key_le (λ x, UnixNano (getTime x)) a b → sec a ≤ sec b) as Hle.
  { intros a b Ha Hb. unfold key_le, ordered_compare, int_Ordered.
    rewrite (Hkey a Ha), (Hkey b Hb), Z.compare_gt_iff. lia. }
  split; [by apply Forall_forall|]. split.
  - destruct (Sort_ascending_stable (λ x, UnixNano (getTime x)) items)
      as (Hp & Hs & _).
    eapply StronglySorted_impl_elem_of; [|exact Hs].
    intros a b Ha Hb. rewrite Hp in Ha, Hb. by apply Hle.
  - destruct (Sort_descending_stable (λ x, UnixNano (getTime x)) items)
      as (Hp & Hs & _).
    eapply StronglySorted_impl_elem_of; [|exact Hs].
    intros a b Ha Hb. rewrite Hp in Ha, Hb. by apply Hle.
Qed.

Lemma SortTime_chronological_witness :
  Forall (λ x, UnixNano (getTime x) = Time_Unix (Timestamp_Time (Time_ x))
                                      * 1000000000)
    [timed 7%N 1160418111; timed 5%N (-86400); timed 9%N 9223372036]
  ∧ StronglySorted
      (λ a b, Time_Unix (Timestamp_Time (Time_ a))
              ≤ Time_Unix (Timestamp_Time (Time_ b)))
      (SortTime
         [timed 7%N 1160418111; timed 5%N (-86400); timed 9%N 9223372036]
         Ascending).1
  ∧ StronglySorted
      (λ a b, Time_Unix (Timestamp_Time (Time_ b))
              ≤ Time_Unix (Timestamp_Time (Time_ a)))
      (SortTime
         [timed 7%N 1160418111; timed 5%N (-86400); timed 9%N 9223372036]
         Descending).1.
Proof.
  apply (SortTime_chronological
           [timed 7%N 1160418111; timed 5%N (-86400); timed 9%N 9223372036]
           (λ x, Time_Unix (Timestamp_Time (Time_ x)))).
  intros x Hx. unfold nanoseconds_fit.
  repeat (apply elem_of_cons in Hx as [->|Hx]);
    [by vm_compute..|by apply elem_of_nil in Hx].
Defined.

(** ** Sorting by two keys *)

Section two_keys.
Context {S K1 K2 : Type} `{Sortable S}.
Context `{OrderedLaws K1} `{EqDecision K1} `{OrderedLaws K2} `{EqDecision K2}.
Context (key1 : S → K1) (key2 : S → K2).

Lemma lex_sorted (order1 order2 : Order) (l : list S) :
  StronglySorted (dir_le order1 key1) l →
  (∀ k, StronglySorted (dir_le order2 key2) (filter (λ x, key1 x = k) l)) →
  StronglySorted (lex_le order1 key1 order2 key2) l.
Proof.
  induction 1 as [|a l Hs IH Hall]; intros Hties; [constructor|].
  constructor.
  - apply IH. intros k. specialize (Hties k).
    rewrite filter_cons in Hties.
    destruct (decide (key1 a = k)); [|done].
    by apply StronglySorted_inv in Hties as [? _].
  - apply Forall_forall. intros b Hb.
    destruct (decide (key1 a = key1 b)) as [Heq|Hne].
    + right. split; [done|].
      specialize (Hties (key1 a)). rewrite filter_cons_True in Hties by done.
      apply StronglySorted_inv in Hties as [_ Hties].
      eapply Forall_forall in Hties; [exact Hties|].
      by apply list_elem_of_filter.
    + left. split; [done|]. by eapply Forall_forall in Hall.
Qed.

Lemma sort_by_two_keys (items : list S) (order1 order2 : Order) :
  order1 = Ascending ∨ order1 = Descending →
  order2 = Ascending ∨ order2 = Descending →
  StronglySorted (lex_le order1 key1 order2 key2)
    (sort_by key1 (sort_by key2 items order2).1 order1).1.
Proof.
  intros Hv1 Hv2.
  destruct (sort_by_stable key2 items order2 Hv2) as (_ & Hs2 & _).
  destruct (sort_by_stable key1 (sort_by key2 items order2).1 order1 Hv1)
    as (_ & Hs1 & Ht1).
  apply lex_sorted; [exact Hs1|].
  intros k. rewrite Ht1. by apply StronglySorted_filter.
Qed.
End two_keys.

(** X10.  Sorting by a second key and then by a first key sorts by both:
    the result is ordered by the first key, and items that agree on the
    first key are ordered by the second, each key in the direction given
    to its sorter.  So for the type with the identifier, the score with
    the time, the time with the identifier and the score with the
    identifier. *)
Theorem sorters_compose_to_two_keys {S : Type} `{Sortable S} (items : list S)
    (order1 order2 : Order) :
  order1 = Ascending ∨ order1 = Descending →
  order2 = Ascending ∨ order2 = Descending →
  StronglySorted (lex_le order1 getType order2 getID)
    (SortType (SortID items order2).1 order1).1
  ∧ StronglySorted
      (lex_le order1 getScore order2 (λ x, UnixNano (getTime x)))
      (SortScore (SortTime items order2).1 order1).1
  ∧ StronglySorted
      (lex_le order1 (λ x, UnixNano (getTime x)) order2 getID)
      (SortTime (SortID items order2).1 order1).1
  ∧ StronglySorted (lex_le order1 getScore order2 getID)
      (SortScore (SortID items order2).1 order1).1.
Proof.
  intros Hv1 Hv2. split_and!.
  - by apply (sort_by_two_keys getType getID).
  - by apply (sort_by_two_keys getScore (λ x, UnixNano (getTime x))).
  - by apply (sort_by_two_keys (λ x, UnixNano (getTime x)) getID).
  - by apply (sort_by_two_keys getScore getID).
Qed.

(** Best score first, and the earlier item first among equal scores. *)
Lemma sorters_compose_to_two_keys_witness :
  (SortScore
     (SortTime [scored_at 5 30; scored_at 3 10; scored_at 5 20] Ascending).1
     Descending).1
  = [scored_at 5 20; scored_at 5 30; scored_at 3 10]
  ∧ StronglySorted
      (lex_le Descending getScore Ascending (λ x, UnixNano (getTime x)))
      (SortScore
         (SortTime [scored_at 5 30; scored_at 3 10; scored_at 5 20]
            Ascending).1
         Descending).1.
Proof.
  split; [vm_compute; reflexivity|].
  refine (proj1 (proj2 (sorters_compose_to_two_keys
                          [scored_at 5 30; scored_at 3 10; scored_at 5 20]
                          Descending Ascending _ _))).
  - by right.
  - by left.
Defined.

(** ** [Fetch] and [Get] *)

(** X11.  What [Fetch] returns tells how the round trip went, for every
    result type: a value exactly when a body arrived that is not the
    literal [null] and decodes, [ErrNotFound] exactly when the body is the
    literal [null] (also for a type whose decoder would accept [null]), the
    decode error exactly when another body does not decode, and each of the
    three transport errors exactly at its stage. *)
Theorem Fetch_outcomes {T : Type} (unmarshal : string → option T)
    (resp : Response) :
  (∀ t, Fetch unmarshal resp = inl t
        ↔ ∃ body, resp = Body body ∧ body ≠ "null" ∧ unmarshal body = Some t)
  ∧ (Fetch unmarshal resp = inr ErrNotFound ↔ resp = Body "null")
  ∧ (Fetch unmarshal resp = inr ErrDecodeResponse
     ↔ ∃ body, resp = Body body ∧ body ≠ "null" ∧ unmarshal body = None)
  ∧ (Fetch unmarshal resp = inr ErrCreateRequest ↔ resp = RequestRejected)
  ∧ (∀ c, Fetch unmarshal resp = inr (ErrSendRequest c) ↔ resp = SendFailed c)
  ∧ (∀ c, Fetch unmarshal resp = inr (ErrReadResponse c) ↔ resp = ReadFailed c).
Proof.
  destruct resp as [|c|c|body]; simpl.
  1-3: split_and!; try intros ?; split; try done; try (by intros (? & ? & _));
    congruence.
  destruct (decide (body = "null")) as [->|Hne].
  - split_and!; try intros ?; split; try done.
    + by intros (? & [= <-] & ? & _).
    + by intros (? & [= <-] & ? & _).
  - destruct (unmarshal body) as [t|] eqn:Hbody.
    + split_and!; try intros ?; split; try done; try congruence.
      * intros [= <-]. by exists body.
      * intros (? & [= <-] & _ & ?). congruence.
      * intros (? & [= <-] & _ & ?). congruence.
    + split_and!; try intros ?; split; try done; try congruence.
      * intros (? & [= <-] & _ & ?). congruence.
      * intros _. by exists body.
Qed.

(** X12.  [Get] fails exactly as its [Fetch] fails, with the same error.
    When the fetch succeeds, [Get] returns the decoded item with [Text] and
    [Title] passed through [html.UnescapeString] when they are not empty,
    and every other field, [ID], [Type] and [URL] among them, as
    decoded. *)
Theorem Get_unescapes_Text_and_Title (up : Upstream) (id : uint) :
  match Fetch (json_Unmarshal_Item up) (roundtrip up id) with
  | inr err => Get up id = inr err
  | inl item =>
      ∃ item',
        Get up id = inl item'
        ∧ Item_Text item'
          = (if decide (Item_Text item = "") then ""
             else html_UnescapeString up (Item_Text item))
        ∧ Item_Title item'
          = (if decide (Item_Title item = "") then ""
             else html_UnescapeString up (Item_Title item))
        ∧ Item_base item' = Item_base item
        ∧ Item_Descendants item' = Item_Descendants item
        ∧ Item_Parts item' = Item_Parts item
        ∧ Item_Parent item' = Item_Parent item
        ∧ Item_Kids item' = Item_Kids item
        ∧ Item_Poll item' = Item_Poll item
        ∧ Item_URL item' = Item_URL item
  end.
Proof.
  unfold Get, Get_on.
  destruct (Fetch (json_Unmarshal_Item up) (roundtrip up id)) as [item|err];
    [|done].
  eexists. split; [done|].
  destruct (decide (Item_Text item ≠ "")) as [Ht|Ht];
    destruct (decide (Item_Text item = "")) as [Ht'|Ht']; try done;
    cbn; destruct (decide (Item_Title item ≠ "")) as [Hi|Hi];
    destruct (decide (Item_Title item = "")) as [Hi'|Hi']; try done;
    by split_and!.
Qed.

(** ** [List]: empty input, zero workers, progress *)

(** X13.  With no identifiers [List] returns the empty list and no error at
    once, whatever the predicate and [maxWorkers]: no goroutine exists, so
    no transition is possible and nothing is fetched. *)
Theorem List_no_ids_returns_at_once (c : Call) :
  ids c = [] →
  List c [] = Some (Some [], None)
  ∧ (∀ a, step c a (List_start c) = None)
  ∧ (∀ s, reachable c s → s = List_start c).
Proof.
  intros Hids.
  assert (∀ a, step c a (List_start c) = None) as Hstep.
  { intros a. unfold List_start. rewrite Hids. by destruct a. }
  split_and!.
  - unfold List, List_start. by rewrite Hids.
  - done.
  - intros s [sched Hrun]. destruct sched as [|a sched]; simpl in Hrun.
    + by injection Hrun.
    + by rewrite Hstep in Hrun.
Qed.

Lemma List_no_ids_returns_at_once_witness :
  List no_ids_zero_workers [] = Some (Some [], None)
  ∧ (∀ a, step no_ids_zero_workers a (List_start no_ids_zero_workers) = None)
  ∧ (∀ s, reachable no_ids_zero_workers s
          → s = List_start no_ids_zero_workers).
Proof.
  apply (List_no_ids_returns_at_once no_ids_zero_workers). reflexivity.
Defined.

(** X14.  After [SetMaxWorkers(0)] a call of [List] with at least one
    identifier never starts a task and never returns: [g.Go] waits for a
    slot of a semaphore that has none. *)
Theorem List_without_workers_hangs (c : Call) :
  maxWorkers c = 0 →
  ids c ≠ [] →
  (∀ s, reachable c s → main s = AtGo (ids c) ∧ tasks s = [])
  ∧ never_returns c (List_start c).
Proof.
  intros HW Hids.
  assert (List_start c = set_main (AtGo (ids c)) (List_start c)) as Hstart.
  { unfold List_start. by destruct (ids c). }
  assert (∀ a s1 s2,
            main s1 = AtGo (ids c) ∧ tasks s1 = [] →
            step c a s1 = Some s2 →
            main s2 = AtGo (ids c) ∧ tasks s2 = []) as Hinv.
  { intros a s1 s2 [Hmain Htasks] Hstep.
    step_cases Hstep; simplify_eq; try done.
    match goal with Ha : admits _ _ = true |- _ => by rewrite HW in Ha end. }
  split.
  - apply (reachable_invariant c
             (λ s, main s = AtGo (ids c) ∧ tasks s = [])).
    + by rewrite Hstart.
    + intros a s s' _. apply Hinv.
  - apply (never_returns_invariant _ _
             (λ s, main s = AtGo (ids c) ∧ tasks s = [])).
    + by rewrite Hstart.
    + apply Hinv.
    + intros s1 [Hmain _] items err. unfold returns. by rewrite Hmain.
Qed.

Lemma List_without_workers_hangs_witness :
  (∀ s, reachable (SetMaxWorkers 0 stories_of_three) s →
        main s = AtGo [5; 200; 7]%N ∧ tasks s = [])
  ∧ never_returns (SetMaxWorkers 0 stories_of_three)
      (List_start (SetMaxWorkers 0 stories_of_three)).
Proof.
  apply (List_without_workers_hangs (SetMaxWorkers 0 stories_of_three));
    [reflexivity|discriminate].
Defined.

(** While the derived context is live no task has failed, nobody has
    canceled, [processed] is open, and the call is still starting tasks
    with its collector alive (or it had nothing to do). *)
Lemma live_context_shape (c : Call) (s : state) :
  reachable c s →
  ctx_done s = false →
  errs s = [] ∧ caller_canceled s = false ∧ processed_closed s = false
  ∧ ((∃ rest, main s = AtGo rest ∧ collecting s = true)
     ∨ (main s = Returned (Some []) None ∧ processed s = []
        ∧ tasks s = [])).
Proof.
  revert s.
  apply (reachable_invariant c
    (λ s, ctx_done s = false →
          errs s = [] ∧ caller_canceled s = false ∧ processed_closed s = false
          ∧ ((∃ rest, main s = AtGo rest ∧ collecting s = true)
             ∨ (main s = Returned (Some []) None ∧ processed s = []
                ∧ tasks s = [])))).
  - intros _. unfold List_start. simpl. split_and!; try done.
    destruct (ids c); [by right|left; by eexists].
  - intros a s s' _ IH Hstep.
    step_cases Hstep; try done; intros Hctx; specialize (IH Hctx);
      destruct IH as (He & Hc & Hp & [(rest' & Hm & Hcol)|(Hm & Hb & Ht)]);
      simplify_eq; split_and!; try done; try (left; by eexists).
  all: try match goal with
           | Hi : tasks ?s !! _ = Some _, Ht : tasks ?s = [] |- _ =>
               by rewrite Ht in Hi
           end.
  all: match goal with
       | Hb : _ && ctx_done _ = true |- _ =>
           by rewrite Hctx, andb_false_r in Hb
       end.
Qed.

Lemma live_state_eq (s : state) (rest : list uint) :
  main s = AtGo rest → collecting s = true → errs s = [] →
  ctx_done s = false → caller_canceled s = false →
  processed_closed s = false →
  s = live_state rest (tasks s) (processed s) (itemsMap s).
Proof. destruct s. simpl. by intros -> -> -> -> -> ->. Qed.

Lemma drain_run (c : Call) (rest : list uint) (ts : list task)
    (buf : list Item) (m : gmap uint Item) :
  ∃ m', run c (replicate (length buf) ActRecv) (live_state rest ts buf m)
        = Some (live_state rest ts [] m').
Proof.
  revert m. induction buf as [|item buf IH]; intros m.
  - by exists m.
  - destruct (IH (<[Item_ID item := item]> m)) as [m' Hrun].
    exists m'. exact Hrun.
Qed.

Lemma finish_tasks_run (c : Call) (rest : list uint) (ts : list task)
    (m : gmap uint Item) :
  (∀ id, id ∈ ids c → ∃ item, Get (upstream c) id = inl item) →
  Forall (task_ok c) ts →
  ∃ sched m', run c sched (live_state rest ts [] m)
              = Some (live_state rest [] [] m').
Proof.
  intros Hget Hts. revert m.
  induction Hts as [|t ts Ht Hts IH]; intros m.
  - by exists [], m.
  - destruct t as [id|id item].
    + destruct (Hget id Ht) as [item Hitem]. unfold Get in Hitem.
      destruct (forwards (filter_ c) item) eqn:Hfw.
      * destruct (IH (<[Item_ID item := item]> m)) as (sched & m' & Hrun).
        exists ([ActGet 0 Served; ActSend 0; ActRecv] ++ sched), m'.
        rewrite run_app. cbn. rewrite Hitem, Hfw. cbn. exact Hrun.
      * destruct (IH m) as (sched & m' & Hrun).
        exists (ActGet 0 Served :: sched), m'.
        cbn. rewrite Hitem, Hfw. cbn. exact Hrun.
    + destruct (IH (<[Item_ID item := item]> m)) as (sched & m' & Hrun).
      exists ([ActSend 0; ActRecv] ++ sched), m'.
      rewrite run_app. cbn. exact Hrun.
Qed.

Lemma sequential_without_failures (c : Call) (l : list uint) :
  (∀ id, id ∈ l → ∃ item, Get (upstream c) id = inl item) →
  sequential_errors c false l = [] ∧ sequential_done c false l = false.
Proof.
  induction l as [|id l IH]; intros Hget; [done|].
  destruct (Hget id) as [item Hitem]; [by left|].
  simpl. rewrite Hitem. apply IH. intros id' Hid'. apply Hget. by right.
Qed.

(** X15.  When every requested fetch succeeds and [maxWorkers] is not
    zero, a call of [List] whose derived context is still live can always
    be completed: from every such state some continuation returns a list
    and no error with [processed] emptied, and when the records carry the
    identifiers they were requested under that list has every record the
    tasks forwarded, in the order of [ids]. *)
Theorem List_can_finish_without_failures (c : Call) (s : state) :
  maxWorkers c ≠ 0 →
  (∀ id, id ∈ ids c → ∃ item, Get (upstream c) id = inl item) →
  reachable c s →
  ctx_done s = false →
  ∃ sched s' l,
    run c sched s = Some s'
    ∧ returns s' (Some l) None
    ∧ processed s' = []
    ∧ caller_canceled s' = false
    ∧ (faithful c → l = omap (forwarded c) (ids c)).
Proof.
  intros HW Hget Hs Hctx.
  assert (admits (SetLimit (maxWorkers c)) 0 = true) as Hadm.
  { unfold admits, SetLimit.
    destruct (Z.ltb_spec (maxWorkers c) 0); [done|]. apply Z.ltb_lt. lia. }
  assert (∀ sched s' l,
            run c sched s = Some s' → returns s' (Some l) None →
            processed s' = [] → caller_canceled s' = false →
            ∃ sched s' l,
              run c sched s = Some s' ∧ returns s' (Some l) None
              ∧ processed s' = [] ∧ caller_canceled s' = false
              ∧ (faithful c → l = omap (forwarded c) (ids c))) as Hclose.
  { intros sched s' l Hrun Hret Hbuf Hcc. exists sched, s', l.
    split_and!; try done. intros Hfaith.
    assert (reachable c s') as Hs'.
    { destruct Hs as [sched0 Hrun0]. exists (sched0 ++ sched).
      rewrite run_app, Hrun0. exact Hrun. }
    by destruct (List_drained c s' l None Hfaith Hs' Hret Hbuf). }
  destruct (live_context_shape c s Hs Hctx)
    as (He & Hc & Hp & [(rest & Hm & Hcol)|(Hm & Hb & _)]).
  - rewrite (live_state_eq s rest Hm Hcol He Hctx Hc Hp).
    rewrite (live_state_eq s rest Hm Hcol He Hctx Hc Hp) in Hclose.
    destruct (drain_run c rest (tasks s) (processed s) (itemsMap s))
      as [m1 Hrun1].
    destruct (finish_tasks_run c rest (tasks s) m1 Hget (tasks_ok c s Hs))
      as (sched2 & m2 & Hrun2).
    pose proof (turns_run c rest [] [] m2 false Hadm) as Hrun3.
    rewrite app_nil_r in Hrun3.
    destruct (sequential_without_failures c rest) as [Herrs Hdone].
    { intros id Hid. apply Hget. by apply (pending_requested c s Hs);
        unfold pending; rewrite Hm. }
    rewrite Herrs, Hdone in Hrun3.
    eapply (Hclose (replicate (length (processed s)) ActRecv ++ sched2
                    ++ turns c false rest
                    ++ [ActWait; ActRecvClosed; ActReturn])).
    + rewrite run_app, Hrun1. cbn [mbind option_bind].
      rewrite run_app, Hrun2. cbn [mbind option_bind].
      change (live_state rest [] [] m2) with (between_turns rest [] m2 false).
      rewrite run_app, Hrun3. reflexivity.
    + reflexivity.
    + reflexivity.
    + reflexivity.
  - eapply (Hclose []); [reflexivity|done..].
Qed.

Lemma List_can_finish_without_failures_witness :
  ∃ sched s' l,
    run stories_of_three sched
      (after stories_of_three [ActGo; ActGo; ActGet 0 Served]) = Some s'
    ∧ returns s' (Some l) None
    ∧ processed s' = []
    ∧ caller_canceled s' = false
    ∧ (faithful stories_of_three
       → l = omap (forwarded stories_of_three) (ids stories_of_three)).
Proof.
  apply (List_can_finish_without_failures stories_of_three).
  - discriminate.
  - intros id Hid.
    repeat (apply elem_of_cons in Hid as [->|Hid]);
      [by eexists; vm_compute..|by apply elem_of_nil in Hid].
  - exists [ActGo; ActGo; ActGet 0 Served]. vm_compute. reflexivity.
  - vm_compute. reflexivity.
Defined.

(** X16.  An error that [List] returns comes with no list and is the first
    error a task reported.  Unless the caller canceled its context, it is
    an error the upstream caused for one of the requested identifiers, as
    [Get] reports it: the cancellation that [List] itself sets off after a
    failure never takes the place of the failure. *)
Theorem List_returns_the_upstream_error (c : Call) (s : state)
    (items : option (list Item)) (e : error) :
  reachable c s →
  returns s items (Some e) →
  items = None
  ∧ g_err s = Some e
  ∧ (caller_canceled s = false →
     ∃ id, id ∈ ids c ∧ Get (upstream c) id = inr e).
Proof.
  intros Hs Hret.
  destruct (returned_shape c s Hs) as [_ Hshape].
  destruct (Hshape _ _ Hret) as [(e' & [= <-] & -> & Hg)|([=] & _)].
  split_and!; [done..|].
  intros Hcc. exact (first_error_natural c s Hs Hcc e Hg).
Qed.

Lemma List_returns_the_upstream_error_witness :
  (None : option (list Item)) = None
  ∧ g_err (after twelve_ids_first_broken (sequential twelve_ids_first_broken))
    = Some (ErrSendRequest Failure)
  ∧ (caller_canceled
       (after twelve_ids_first_broken (sequential twelve_ids_first_broken))
     = false →
     ∃ id, id ∈ ids twelve_ids_first_broken
           ∧ Get (upstream twelve_ids_first_broken) id
             = inr (ErrSendRequest Failure)).
Proof.
  apply (List_returns_the_upstream_error twelve_ids_first_broken
           (after twelve_ids_first_broken
              (sequential twelve_ids_first_broken))).
  - exists (sequential twelve_ids_first_broken). vm_compute. reflexivity.
  - vm_compute. reflexivity.
Defined.

(** ** [List]: no deadlock within the buffer of [processed] *)

Lemma reachable_run (c : Call) (sched : list action) (s s' : state) :
  reachable c s → run c sched s = Some s' → reachable c s'.
Proof.
  intros [sched0 Hrun0] Hrun. exists (sched0 ++ sched).
  by rewrite run_app, Hrun0.
Qed.

Lemma reachable_step (c : Call) (a : action) (s s' : state) :
  reachable c s → step c a s = Some s' → reachable c s'.
Proof.
  intros Hs Hstep. apply (reachable_run c [a] s); [done|].
  cbn [run]. by rewrite Hstep.
Qed.

(** Every identifier is waiting to be started, in a task, in [processed],
    or done with. *)
Lemma work_bounded (c : Call) (s : state) :
  reachable c s →
  (length (pending s) + length (tasks s) + length (processed s)
   ≤ length (ids c))%nat.
Proof.
  revert s.
  apply (reachable_invariant c
    (λ s, (length (pending s) + length (tasks s) + length (processed s)
           ≤ length (ids c))%nat)).
  - unfold pending, List_start. simpl. destruct (ids c); simpl; lia.
  - intros a s s' _ IH Hstep.
    step_cases Hstep;
      rewrite ?length_app, ?length_insert;
      try (rewrite length_delete by eauto); simpl in *; try lia.
    all: match goal with
         | Hi : tasks ?s !! _ = Some _ |- _ =>
             apply lookup_lt_Some in Hi; lia
         end.
Qed.

Lemma closed_at_wait (c : Call) (s : state) :
  reachable c s → main s = AtWaitChan → processed_closed s = true.
Proof.
  revert s.
  apply (reachable_invariant c
           (λ s, main s = AtWaitChan → processed_closed s = true)).
  - unfold List_start. simpl. by destruct (ids c).
  - intros a s s' _ IH Hstep. step_cases Hstep; try done; eauto.
Qed.

Section few_ids.
Context (c : Call).
Hypothesis few : (length (ids c) ≤ processed_cap)%nat.
Hypothesis workers : maxWorkers c ≠ 0.

Lemma first_task_finishes (s : state) (t : task) (ts : list task) :
  reachable c s →
  tasks s = t :: ts →
  ∃ sched s',
    run c sched s = Some s' ∧ tasks s' = ts ∧ main s' = main s.
Proof.
  intros Hs Hts.
  assert (∀ s0 id item,
            reachable c s0 → tasks s0 = Sending id item :: ts →
            ∃ s', step c (ActSend 0) s0 = Some s' ∧ tasks s' = ts
                  ∧ main s' = main s0) as Hsend.
  { intros s0 id item Hs0 Hts0.
    pose proof (work_bounded c s0 Hs0) as Hbound.
    rewrite Hts0 in Hbound. cbn [length] in Hbound.
    unfold step. rewrite Hts0. cbn [lookup list_lookup].
    rewrite bool_decide_eq_true_2 by (unfold processed_cap in *; lia).
    eexists. split; [done|]. by simpl. }
  destruct t as [id|id item].
  - destruct (Get_on (upstream c) (response_of c id Served)) as [item|e]
      eqn:Hget.
    + destruct (forwards (filter_ c) item) eqn:Hfw.
      * assert (step c (ActGet 0 Served) s
                = Some (set_tasks (Sending id item :: ts) s)) as Hstep.
        { unfold step. rewrite Hts. cbn [lookup list_lookup].
          by rewrite Hget, Hfw. }
        destruct (Hsend (set_tasks (Sending id item :: ts) s) id item)
          as (s' & Hstep' & Hts' & Hmain'); [|done|].
        { by eapply reachable_step. }
        exists [ActGet 0 Served; ActSend 0], s'.
        cbn [mbind option_bind run]. rewrite Hstep.
        cbn [mbind option_bind run]. by rewrite Hstep'.
      * exists [ActGet 0 Served]. eexists. cbn [mbind option_bind run].
        unfold step. rewrite Hts. cbn [lookup list_lookup].
        rewrite Hget, Hfw. done.
    + exists [ActGet 0 Served]. eexists. cbn [mbind option_bind run].
      unfold step. rewrite Hts. cbn [lookup list_lookup].
      rewrite Hget. done.
  - destruct (Hsend s id item Hs Hts) as (s' & Hstep & Hts' & Hmain').
    exists [ActSend 0], s'. cbn [mbind option_bind run]. by rewrite Hstep.
Qed.

Lemma tasks_finish (s : state) :
  reachable c s →
  ∃ sched s', run c sched s = Some s' ∧ tasks s' = [] ∧ main s' = main s.
Proof.
  remember (length (tasks s)) as n eqn:Hn. revert s Hn.
  induction n as [|n IH]; intros s Hn Hs.
  - exists [], s. split; [done|]. split; [|done].
    by destruct (tasks s).
  - destruct (tasks s) as [|t ts] eqn:Hts; [done|].
    destruct (first_task_finishes s t ts Hs Hts)
      as (sched1 & s1 & H1 & Ht1 & Hm1).
    destruct (IH s1) as (sched2 & s2 & H2 & Ht2 & Hm2).
    { rewrite Ht1. simpl in Hn. lia. }
    { by eapply reachable_run. }
    exists (sched1 ++ sched2), s2. rewrite run_app, H1. split; [done|].
    split; [done|congruence].
Qed.

Lemma all_tasks_run (s : state) (rest : list uint) :
  reachable c s →
  main s = AtGo rest →
  ∃ sched s', run c sched s = Some s' ∧ tasks s' = [] ∧ main s' = AtGo [].
Proof.
  revert s. induction rest as [|id rest IH]; intros s Hs Hmain.
  - destruct (tasks_finish s Hs) as (sched & s' & Hrun & Hts & Hm).
    exists sched, s'. split; [done|]. split; [done|congruence].
  - destruct (tasks_finish s Hs) as (sched1 & s1 & H1 & Ht1 & Hm1).
    assert (reachable c s1) as Hs1 by (by eapply reachable_run).
    assert (step c ActGo s1
            = Some (set_main (AtGo rest)
                      (set_tasks (tasks s1 ++ [Fetching id]) s1))) as Hgo.
    { unfold step. rewrite Hm1, Hmain, Ht1. cbn [length].
      assert (admits (SetLimit (maxWorkers c)) 0 = true) as ->; [|done].
      unfold admits, SetLimit.
      destruct (Z.ltb_spec (maxWorkers c) 0); [done|]. apply Z.ltb_lt. lia. }
    destruct (IH (set_main (AtGo rest)
                    (set_tasks (tasks s1 ++ [Fetching id]) s1)))
      as (sched2 & s2 & H2 & Ht2 & Hm2); [|done|].
    { by eapply reachable_step. }
    exists (sched1 ++ ActGo :: sched2), s2.
    rewrite run_app, H1. cbn [mbind option_bind run]. by rewrite Hgo.
Qed.

Lemma collector_drains (s : state) :
  reachable c s →
  main s = AtWaitChan →
  collecting s = true →
  ∃ sched s', run c sched s = Some s' ∧ main s' = AtWaitChan
               ∧ collecting s' = false.
Proof.
  remember (processed s) as buf eqn:Hbuf. revert s Hbuf.
  induction buf as [|item buf IH]; intros s Hbuf Hs Hmain Hcol.
  - exists [ActRecvClosed]. eexists. cbn [mbind option_bind run]. unfold step.
    rewrite Hcol, <- Hbuf, (closed_at_wait c s Hs Hmain). done.
  - assert (step c ActRecv s
            = Some (set_itemsMap (<[Item_ID item := item]> (itemsMap s))
                      (set_processed buf s))) as Hrecv.
    { unfold step. by rewrite Hcol, <- Hbuf. }
    destruct (IH (set_itemsMap (<[Item_ID item := item]> (itemsMap s))
                    (set_processed buf s)))
      as (sched & s' & Hrun & Hm & Hc); [done| |done|done|].
    { by eapply reachable_step. }
    exists (ActRecv :: sched), s'. cbn [mbind option_bind run].
    by rewrite Hrecv.
Qed.
End few_ids.

(** X17.  With no more identifiers than [processed] has room for (ten),
    and [maxWorkers] not zero, a call of [List] cannot get stuck: from
    every state it can reach, whatever failed and whoever canceled, some
    continuation of the run makes it return. *)
Theorem List_cannot_hang_within_the_buffer (c : Call) (s : state) :
  (length (ids c) ≤ processed_cap)%nat →
  maxWorkers c ≠ 0 →
  reachable c s →
  ∃ sched s' items err, run c sched s = Some s' ∧ returns s' items err.
Proof.
  intros Hfew HW Hs.
  assert (∀ s0, reachable c s0 → main s0 = AtWaitChan →
                ∃ sched s' items err,
                  run c sched s0 = Some s' ∧ returns s' items err) as Hwait.
  { intros s0 Hs0 Hm0.
    assert (∀ s1, main s1 = AtWaitChan → collecting s1 = false →
                  ∃ s', step c ActReturn s1 = Some s'
                        ∧ ∃ items err, returns s' items err) as Hret.
    { intros s1 Hm1 Hc1. eexists. unfold step. rewrite Hm1, Hc1.
      split; [done|]. by eexists _, _. }
    destruct (collecting s0) eqn:Hc0.
    - destruct (collector_drains c s0 Hs0 Hm0 Hc0)
        as (sched & s1 & H1 & Hm1 & Hc1).
      destruct (Hret s1 Hm1 Hc1) as (s' & Hstep & items & err & Hr).
      exists (sched ++ [ActReturn]), s', items, err.
      rewrite run_app, H1. cbn [mbind option_bind run]. by rewrite Hstep.
    - destruct (Hret s0 Hm0 Hc0) as (s' & Hstep & items & err & Hr).
      exists [ActReturn], s', items, err. cbn [mbind option_bind run].
      by rewrite Hstep. }
  destruct (main s) as [rest| |items err] eqn:Hmain.
  - destruct (all_tasks_run c Hfew HW s rest Hs Hmain)
      as (sched1 & s1 & H1 & Ht1 & Hm1).
    assert (reachable c s1) as Hs1 by (by eapply reachable_run).
    destruct (g_err s1) as [e|] eqn:Herr.
    + exists (sched1 ++ [ActWait]). eexists _, None, (Some e).
      rewrite run_app, H1. cbn [mbind option_bind run]. unfold step.
      rewrite Hm1, Ht1, Herr. done.
    + assert (step c ActWait s1
              = Some (set_main AtWaitChan
                        (set_processed_closed (set_ctx_done s1)))) as Hstep.
      { unfold step. by rewrite Hm1, Ht1, Herr. }
      destruct (Hwait (set_main AtWaitChan
                         (set_processed_closed (set_ctx_done s1))))
        as (sched2 & s2 & items & err & H2 & Hr); [|done|].
      { by eapply reachable_step. }
      exists (sched1 ++ ActWait :: sched2), s2, items, err.
      rewrite run_app, H1. cbn [mbind option_bind run]. by rewrite Hstep.
  - by apply Hwait.
  - by exists [], s, items, err.
Qed.

(** Three identifiers, the second of which is absent upstream: all tasks
    have started, the second one has failed, and the collector has left
    through [<-ctx.Done()]. *)
Lemma List_cannot_hang_within_the_buffer_witness :
  ∃ sched s' items err,
    run second_of_three_absent sched
      (after second_of_three_absent
         [ActGo; ActGo; ActGo; ActGet 1 Served; ActCtxDone]) = Some s'
    ∧ returns s' items err.
Proof.
  apply (List_cannot_hang_within_the_buffer second_of_three_absent).
  - vm_compute. lia.
  - discriminate.
  - exists [ActGo; ActGo; ActGo; ActGet 1 Served; ActCtxDone].
    vm_compute. reflexivity.
Defined.

(** X18.  A cap of at least the number of identifiers never makes [g.Go]
    wait: in every state a call can reach, every transition is the one of a
    group without a cap. *)
Theorem List_cap_of_all_ids_never_waits (c : Call) (s : state) (a : action) :
  Z.of_nat (length (ids c)) ≤ maxWorkers c →
  reachable c s →
  step c a s = step_unbounded c a s.
Proof.
  intros Hcap Hs. destruct a; try done.
  pose proof (work_bounded c s Hs) as Hbound.
  unfold step, step_unbounded, pending in *.
  destruct (main s) as [[|id rest]| |]; try done.
  cbn [length] in Hbound.
  assert (admits (SetLimit (maxWorkers c)) (length (tasks s)) = true)
    as ->; [|done].
  unfold admits, SetLimit.
  destruct (Z.ltb_spec (maxWorkers c) 0); [done|]. apply Z.ltb_lt. lia.
Qed.

Lemma List_cap_of_all_ids_never_waits_witness :
  step (SetMaxWorkers 3 stories_of_three) ActGo
    (after (SetMaxWorkers 3 stories_of_three) [ActGo; ActGo])
  = step_unbounded (SetMaxWorkers 3 stories_of_three) ActGo
      (after (SetMaxWorkers 3 stories_of_three) [ActGo; ActGo]).
Proof.
  apply (List_cap_of_all_ids_never_waits (SetMaxWorkers 3 stories_of_three)).
  - vm_compute. discriminate.
  - exists [ActGo; ActGo]. vm_compute. reflexivity.
Defined.

(** ** The user and live services *)

(** What [List] returns under any schedule: an error and no list, or a
    list and no error, of records that the predicate accepts and whose
    [ID]s follow the order of the identifiers. *)
Lemma List_result_sound (c : Call) (sched : list action)
    (items : option (list Item)) (err : option error) :
  List c sched = Some (items, err) →
  (items = None ∧ err ≠ None)
  ∨ ∃ l, items = Some l ∧ err = None
         ∧ sublist (Item_ID <$> l) (ids c)
         ∧ Forall (accepted (filter_ c)) l.
Proof.
  unfold List. destruct (run c sched (List_start c)) as [s|] eqn:Hrun; [|done].
  destruct (main s) as [| |items' err'] eqn:Hmain; try done.
  intros [= -> ->].
  assert (reachable c s) as Hs by (by exists sched).
  destruct (returned_shape c s Hs) as [_ Hshape].
  destruct (Hshape _ _ Hmain) as [(e & -> & -> & _)|(-> & _ & _ & ->)].
  - by left.
  - right. eexists. split; [done|]. split; [done|].
    destruct (List_sound c s _ None Hs Hmain) as (_ & _ & Hfetched & Hsub).
    split; [done|]. apply Forall_forall. intros r Hr.
    destruct (Hfetched r Hr) as [(id & _ & Hfw) _].
    apply forwarded_Some in Hfw as [_ Hfw]. by apply forwards_accepted.
Qed.

Lemma at_once_Some {A : Type} (r r' : A) (sched : list action) :
  at_once r sched = Some r' → r' = r.
Proof. destruct sched; [by intros [= <-]|done]. Qed.





Lemma filter_all {A : Type} (P : A → Prop) `{∀ x, Decision (P x)} (l : list A) :
  Forall P l → filter P l = l.
Proof.
  induction 1 as [|x l Hx Hl IH]; [done|].
  by rewrite filter_cons_True, IH.
Qed.

Lemma ToList_or_error_result {C : Type} `{Convertible C} (tag : string)
    (fn : Item → ConvertibleValue) (convert : Item → C)
    (items : option (list Item)) (err : option error) :
  Convertible_Type (Convertible_zero : C) = tag →
  converters !! tag = Some fn →
  (∀ i, Convertible_assert (fn i) = Some (convert i)) →
  ToList_or_error (items, err)
  = match err with
    | Some e => Return None (Some e)
    | None =>
        Return
          (Some (convert
                   <$> filter (λ item, Item_Type item = tag)
                         (default [] items)))
          None
    end.
Proof.
  intros Htag Hfn Hassert. unfold ToList_or_error.
  destruct err; [done|].
  by rewrite (ToList_filter_fmap tag fn convert).
Qed.

Lemma typed_items {C : Type} `{Convertible C} (tag : string)
    (fn : Item → ConvertibleValue) (convert : Item → C) (net : Network)
    (W : Z) (username : string) (sched : list action) :
  Convertible_Type (Convertible_zero : C) = tag →
  converters !! tag = Some fn →
  (∀ i, Convertible_assert (fn i) = Some (convert i)) →
  typed_items_sound net W username tag convert sched
    (ToList_or_error
       <$> UserService_Items net W username
             (Some (λ item, bool_decide (Item_Type item = tag))) sched).
Proof.
  intros Htag Hfn Hassert o Ho.
  destruct (UserService_Items net W username _ sched) as [[items err]|] eqn:HI;
    [|done].
  assert (o = ToList_or_error (items, err)) as ->.
  { cbn [fmap option_fmap option_map] in Ho. congruence. }
  clear Ho. rewrite (ToList_or_error_result tag fn convert) by done.
  destruct err as [e|]; [left; by exists e|]. right.
  pose proof HI as Hitems. unfold UserService_Items in HI.
  destruct (UserService_Get net username) as [user|e] eqn:Huser.
  - apply List_result_sound in HI as [[_ ?]|(l & -> & _ & Hsub & Hacc)];
      [done|].
    assert (Forall (λ item, Item_Type item = tag) l) as Htags.
    { eapply Forall_impl; [exact Hacc|].
      intros item [?|(f & [= <-] & Hf)]; [done|].
      by apply bool_decide_eq_true in Hf. }
    exists user, l. split_and!; try done.
    cbn [default]. by rewrite filter_all.
  - by apply at_once_Some in HI.
Qed.

(** X20.  The typed methods of the user service ([Comments], [Stories],
    [Jobs], [Asks], [Polls], [PollOptions]) never panic.  Each returns an
    error and no list, or the list that [List] returned for the user's
    submissions under the predicate of the type, converted item by item:
    every record has the type, the [ID]s follow the order of the
    submissions, and the conversion drops nothing. *)
Theorem UserService_typed_methods_sound (net : Network) (W : Z)
    (username : string) (sched : list action) :
  typed_items_sound net W username CommentType ToComment sched
    (UserService_Comments net W username sched)
  ∧ typed_items_sound net W username StoryType ToStory sched
      (UserService_Stories net W username sched)
  ∧ typed_items_sound net W username JobType ToJob sched
      (UserService_Jobs net W username sched)
  ∧ typed_items_sound net W username AskType ToAsk sched
      (UserService_Asks net W username sched)
  ∧ typed_items_sound net W username PollType ToPoll sched
      (UserService_Polls net W username sched)
  ∧ typed_items_sound net W username PollOptionType ToPollOption sched
      (UserService_PollOptions net W username sched).
Proof.
  split_and!.
  - by apply (typed_items CommentType (λ i, OfComment (ToComment i))).
  - by apply (typed_items StoryType (λ i, OfStory (ToStory i))).
  - by apply (typed_items JobType (λ i, OfJob (ToJob i))).
  - by apply (typed_items AskType (λ i, OfAsk (ToAsk i))).
  - by apply (typed_items PollType (λ i, OfPoll (ToPoll i))).
  - by apply (typed_items PollOptionType (λ i, OfPollOption (ToPollOption i))).
Qed.

(** The stories of the user [pg] of the toy network, by the sequential
    schedule. *)
Lemma UserService_typed_methods_sound_witness :
  UserService_Stories toy_network maxWorkers_default "pg"
    (sequential (toy_call (Some is_story)))
  = Some (Return (Some [ToStory (toy_item 5%N StoryType);
                        ToStory (toy_item 7%N StoryType)]) None)
  ∧ ∃ user items,
      UserService_Get toy_network "pg" = inl user
      ∧ Forall (λ item, Item_Type item = StoryType) items
      ∧ sublist (Item_ID <$> items) (User_Submitted user)
      ∧ [ToStory (toy_item 5%N StoryType); ToStory (toy_item 7%N StoryType)]
        = ToStory <$> items.
Proof.
  assert (UserService_Stories toy_network maxWorkers_default "pg"
            (sequential (toy_call (Some is_story)))
          = Some (Return (Some [ToStory (toy_item 5%N StoryType);
                                ToStory (toy_item 7%N StoryType)]) None))
    as Hrun by (vm_compute; reflexivity).
  split; [exact Hrun|].
  destruct (UserService_typed_methods_sound toy_network maxWorkers_default
              "pg" (sequential (toy_call (Some is_story))))
    as (_ & HStories & _).
  destruct (HStories _ Hrun)
    as [[err [=]]|(user & items & Huser & _ & Htags & Hsub & [= Hl])].
  exists user, items. exact (conj Huser (conj Htags (conj Hsub Hl))).
Defined.

Lemma typed_listing {C : Type} `{Convertible C} (tag : string)
    (fn : Item → ConvertibleValue) (convert : Item → C) (net : Network)
    (W : Z) (identifiers : list uint + error) (filter : option (Item → bool))
    (sched : list action) :
  Convertible_Type (Convertible_zero : C) = tag →
  converters !! tag = Some fn →
  (∀ i, Convertible_assert (fn i) = Some (convert i)) →
  typed_listing_sound net W identifiers filter tag convert sched
    match identifiers with
    | inr err => at_once (Return None (Some err)) sched
    | inl l => ToList_or_error <$> ItemService_List net W l filter sched
    end.
Proof.
  intros Htag Hfn Hassert o Ho.
  destruct identifiers as [l|e].
  - destruct (ItemService_List net W l filter sched) as [[items err]|] eqn:HI;
      [|done].
    assert (o = ToList_or_error (items, err)) as ->.
    { cbn [fmap option_fmap option_map] in Ho. congruence. }
    clear Ho. rewrite (ToList_or_error_result tag fn convert) by done.
    destruct err as [e|]; [left; by exists e|]. right.
    apply List_result_sound in HI as HI'.
    destruct HI' as [[_ ?]|(items' & -> & _)]; [done|].
    by exists l, items'.
  - apply at_once_Some in Ho as ->. left. by exists e.
Qed.

(** X21.  The typed listings of the live service ([AskList], [ShowList],
    [JobList]) never panic.  Each returns an error and no list, or the list
    that [List] returned for the listed identifiers under the caller's
    predicate with the items of another type tag left out, whatever the
    predicate said about them, and the others converted, in order:
    [AskList] keeps the items tagged ["ask"], [ShowList] those tagged
    ["story"], [JobList] those tagged ["job"]. *)
Theorem LiveService_typed_listings_sound (net : Network) (W : Z)
    (filter : option (Item → bool)) (sched : list action) :
  typed_listing_sound net W (LiveService_Ask net) filter AskType ToAsk sched
    (LiveService_AskList net W filter sched)
  ∧ typed_listing_sound net W (LiveService_Show net) filter StoryType ToStory
      sched (LiveService_ShowList net W filter sched)
  ∧ typed_listing_sound net W (LiveService_Job net) filter JobType ToJob sched
      (LiveService_JobList net W filter sched).
Proof.
  split_and!.
  - by apply (typed_listing AskType (λ i, OfAsk (ToAsk i))).
  - by apply (typed_listing StoryType (λ i, OfStory (ToStory i))).
  - by apply (typed_listing JobType (λ i, OfJob (ToJob i))).
Qed.

(** The asks of the toy network, without predicate, by the sequential
    schedule: [List] returns the three listed items, none of them is
    tagged ["ask"], and [AskList] returns the empty list. *)
Lemma LiveService_typed_listings_sound_witness :
  LiveService_AskList toy_network maxWorkers_default None
    (sequential (toy_call None))
  = Some (Return (Some []) None)
  ∧ ItemService_List toy_network maxWorkers_default [5; 200; 7]%N None
      (sequential (toy_call None))
    = Some (Some [toy_item 5%N StoryType; toy_item 200%N CommentType;
                  toy_item 7%N StoryType], None)
  ∧ ∃ l items,
      LiveService_Ask toy_network = inl l
      ∧ ItemService_List toy_network maxWorkers_default l None
          (sequential (toy_call None))
        = Some (Some items, None)
      ∧ ([] : list Ask)
        = ToAsk <$> filter (λ item, Item_Type item = AskType) items.
Proof.
  assert (LiveService_AskList toy_network maxWorkers_default None
            (sequential (toy_call None))
          = Some (Return (Some []) None)) as Hrun by (vm_compute; reflexivity).
  split; [exact Hrun|]. split; [vm_compute; reflexivity|].
  destruct (LiveService_typed_listings_sound toy_network maxWorkers_default
              None (sequential (toy_call None))) as (HAsk & _).
  destruct (HAsk _ Hrun) as [[err [=]]|(l & items & Hl & Hlist & [= Heq])].
  exists l, items. exact (conj Hl (conj Hlist Heq)).
Defined.

(** ** [LiveService.Recent] *)

Lemma uint_wrap_small (p : Platform) (z : Z) :
  0 ≤ uint_bits p →
  0 ≤ z ≤ Z.of_N (uint_max p) → uint_wrap p z = Z.to_N z.
Proof.
  unfold uint_wrap, uint_max. intros Hbits Hz.
  assert (0 < 2 ^ uint_bits p) by (by apply Z.pow_pos_nonneg).
  rewrite Z.mod_small; [done|lia].
Qed.

Lemma uint_wrap_max (p : Platform) (z : Z) :
  0 ≤ uint_bits p → (uint_wrap p z ≤ uint_max p)%N.
Proof.
  unfold uint_wrap, uint_max. intros Hbits.
  assert (0 < 2 ^ uint_bits p) by (by apply Z.pow_pos_nonneg).
  pose proof (Z.mod_pos_bound z (2 ^ uint_bits p)). lia.
Qed.

Lemma Recent_loop_counts (p : Platform) (latest : uint) (k : nat) :
  0 ≤ uint_bits p →
  (latest < uint_max p)%N →
  ∀ (fuel : nat) (i : uint) (acc : list uint),
    (i + N.of_nat k = latest + 1)%N →
    (k < fuel)%nat →
    Recent_loop p fuel latest i acc
    = Some (acc ++ ((λ j, i + N.of_nat j)%N <$> seq 0 k)).
Proof.
  intros Hbits Hlatest. induction k as [|k IH]; intros fuel i acc Hi Hfuel;
    (destruct fuel as [|fuel]; [lia|]); cbn [Recent_loop].
  - destruct (N.leb_spec i latest); [lia|]. by rewrite app_nil_r.
  - destruct (N.leb_spec i latest); [|lia].
    rewrite uint_wrap_small by lia.
    rewrite IH by lia. f_equal. rewrite <- app_assoc. f_equal.
    cbn [seq fmap list_fmap]. rewrite N.add_0_r. f_equal.
    rewrite <- fmap_S_seq, <- list_fmap_compose.
    apply list_fmap_ext. intros _ j _. simpl. lia.
Qed.

Lemma Recent_loop_forever (p : Platform) (fuel : nat) (i : uint)
    (acc : list uint) :
  0 ≤ uint_bits p →
  (i ≤ uint_max p)%N →
  Recent_loop p fuel (uint_max p) i acc = None.
Proof.
  intros Hbits. revert i acc.
  induction fuel as [|fuel IH]; intros i acc Hi; [done|].
  cbn [Recent_loop]. destruct (N.leb_spec i (uint_max p)); [|lia].
  apply IH. by apply uint_wrap_max.
Qed.

Lemma Recent_loop_more_fuel (p : Platform) (fuel extra : nat)
    (latest i : uint) (acc ids : list uint) :
  Recent_loop p fuel latest i acc = Some ids →
  Recent_loop p (fuel + extra) latest i acc = Some ids.
Proof.
  revert i acc. induction fuel as [|fuel IH]; intros i acc; [done|].
  cbn [Recent_loop Nat.add]. destruct (i <=? latest)%N; [apply IH|done].
Qed.

Lemma Recent_ids_enough_fuel (p : Platform) (fuel : nat)
    (latest offset : uint) :
  0 ≤ uint_bits p →
  (latest < uint_max p)%N →
  (offset ≤ uint_max p)%N →
  (length (Recent_window latest offset) < fuel)%nat →
  Recent_ids p fuel latest offset = Some (Recent_window latest offset).
Proof.
  intros Hbits Hlatest Hoffset. unfold Recent_ids, Recent_window.
  destruct (N.leb_spec offset latest) as [Hle|Hgt].
  - rewrite length_fmap, length_seq. intros Hfuel.
    rewrite uint_wrap_small by lia.
    rewrite (Recent_loop_counts p latest (S (N.to_nat offset))) by lia.
    cbn [app]. f_equal.
    apply list_fmap_ext. intros _ j _. lia.
  - intros Hfuel. destruct fuel as [|fuel]; [simpl in Hfuel; lia|].
    cbn [Recent_loop].
    assert (latest < uint_wrap p (Z.of_N latest - Z.of_N offset))%N as Hwrap.
    { unfold uint_wrap, uint_max in *.
      assert (0 < 2 ^ uint_bits p) by (by apply Z.pow_pos_nonneg).
      replace ((Z.of_N latest - Z.of_N offset) mod 2 ^ uint_bits p)
        with (Z.of_N latest - Z.of_N offset + 2 ^ uint_bits p); [lia|].
      apply Z.mod_unique with (-1); lia. }
    by destruct (N.leb_spec (uint_wrap p (Z.of_N latest - Z.of_N offset))
                  latest); [lia|].
Qed.

Lemma Recent_window_shape (latest offset : uint) :
  length (Recent_window latest offset)
  = (if (offset <=? latest)%N then S (N.to_nat offset) else 0)%nat
  ∧ StronglySorted N.lt (Recent_window latest offset)
  ∧ Forall (λ id, latest - offset ≤ id ≤ latest)%N
      (Recent_window latest offset).
Proof.
  unfold Recent_window. split_and!.
  - destruct (offset <=? latest)%N; [|done].
    by rewrite length_fmap, length_seq.
  - destruct (N.leb_spec offset latest); [|constructor].
    generalize (S (N.to_nat offset)) 0%nat. intros n.
    induction n as [|n IH]; intros j; [constructor|].
    cbn [seq fmap list_fmap]. constructor; [apply IH|].
    apply Forall_forall. intros id (k & -> & Hk)%list_elem_of_fmap.
    apply elem_of_seq in Hk. lia.
  - destruct (N.leb_spec offset latest); [|constructor].
    apply Forall_forall. intros id (k & -> & Hk)%list_elem_of_fmap.
    apply elem_of_seq in Hk. lia.
Qed.

(** X22.  The identifiers [Recent] asks for, on a platform whose [uint]
    has [uint_bits] bits.  When the newest identifier is below the largest
    [uint], the loop ends and yields the [offset + 1] identifiers from
    [latest - offset] to [latest] in ascending order, or none at all when
    [offset] exceeds [latest] (the subtraction wraps around).  When the
    newest identifier is the largest [uint] the loop never ends. *)
Theorem Recent_ids_window (p : Platform) (latest offset : uint) :
  0 ≤ uint_bits p →
  (latest ≤ uint_max p)%N →
  (offset ≤ uint_max p)%N →
  ((latest < uint_max p)%N →
   length (Recent_window latest offset)
   = (if (offset <=? latest)%N then S (N.to_nat offset) else 0)%nat
   ∧ StronglySorted N.lt (Recent_window latest offset)
   ∧ Forall (λ id, latest - offset ≤ id ≤ latest)%N
       (Recent_window latest offset)
   ∧ ∀ fuel, (length (Recent_window latest offset) < fuel)%nat →
             Recent_ids p fuel latest offset
             = Some (Recent_window latest offset))
  ∧ (latest = uint_max p → ∀ fuel, Recent_ids p fuel latest offset = None).
Proof.
  intros Hbits Hlatest Hoffset. split.
  - intros Hlt.
    destruct (Recent_window_shape latest offset) as (Hlen & Hsorted & Hrange).
    split_and!; try done.
    intros fuel. by apply Recent_ids_enough_fuel.
  - intros -> fuel. unfold Recent_ids.
    apply Recent_loop_forever; [done|]. by apply uint_wrap_max.
Qed.

Lemma Recent_ids_window_witness :
  (length (Recent_window 7%N 2%N) = 3%nat
   ∧ StronglySorted N.lt (Recent_window 7%N 2%N)
   ∧ Forall (λ id, 7 - 2 ≤ id ≤ 7)%N (Recent_window 7%N 2%N)
   ∧ ∀ fuel, (length (Recent_window 7%N 2%N) < fuel)%nat →
             Recent_ids toy_platform fuel 7%N 2%N = Some [5; 6; 7]%N)
  ∧ Recent_ids toy_platform 4 7%N 9%N = Some []
  ∧ ∀ fuel,
      Recent_ids toy_platform fuel 18446744073709551615%N 2%N = None.
Proof.
  destruct (Recent_ids_window toy_platform 7%N 2%N) as [Hwindow _];
    [by vm_compute..|].
  destruct (Recent_ids_window toy_platform 7%N 9%N) as [Hnone _];
    [by vm_compute..|].
  destruct (Recent_ids_window toy_platform 18446744073709551615%N 2%N)
    as [_ Hloop]; [by vm_compute..|].
  split; [apply Hwindow; by vm_compute|].
  split; [|by apply Hloop].
  apply Hnone; [by vm_compute|]. vm_compute. lia.
Defined.

Lemma Fetch_inl_unmarshal {T : Type} (unmarshal : string → option T)
    (resp : Response) (t : T) :
  Fetch unmarshal resp = inl t → ∃ body, unmarshal body = Some t.
Proof.
  destruct resp as [| | |body]; try done. simpl.
  destruct (decide (body = "null")); [done|].
  destruct (unmarshal body) as [t'|] eqn:Hbody; [|done].
  intros [= <-]. by exists body.
Qed.

Lemma StronglySorted_sublist {A : Type} (R : relation A) (l1 l2 : list A) :
  sublist l1 l2 → StronglySorted R l2 → StronglySorted R l1.
Proof.
  induction 1 as [|x l1 l2 Hsub IH|x l1 l2 Hsub IH]; intros Hs; [done| |].
  - apply StronglySorted_inv in Hs as [Hs Hall].
    constructor; [by apply IH|].
    apply Forall_forall. intros y Hy.
    eapply Forall_forall in Hall; [done|]. by eapply elem_of_sublist.
  - apply StronglySorted_inv in Hs as [Hs _]. by apply IH.
Qed.

Lemma Recent_ids_Some (p : Platform) (fuel : nat) (latest offset : uint)
    (l : list uint) :
  0 ≤ uint_bits p →
  (latest ≤ uint_max p)%N →
  (offset ≤ uint_max p)%N →
  Recent_ids p fuel latest offset = Some l →
  (latest < uint_max p)%N ∧ l = Recent_window latest offset.
Proof.
  intros Hbits Hlatest Hoffset Hids.
  assert (latest < uint_max p)%N as Hlt.
  { destruct (decide (latest = uint_max p)) as [->|]; [|lia].
    unfold Recent_ids in Hids.
    rewrite Recent_loop_forever in Hids; [done..|]. by apply uint_wrap_max. }
  split; [done|].
  apply (Recent_loop_more_fuel p fuel
           (S (length (Recent_window latest offset)))) in Hids.
  fold (Recent_ids p (fuel + S (length (Recent_window latest offset)))
          latest offset) in Hids.
  rewrite Recent_ids_enough_fuel in Hids by (done || lia). congruence.
Qed.

(** X23.  What [Recent] returns, on a platform whose decoder yields
    [uint]s: a panic only when [make] refuses the capacity [offset]; an
    error and no list; or a list without error whose records have [ID]s
    between [latest - offset] and [latest], in strictly ascending order of
    [ID] (oldest first), at most [offset + 1] of them. *)
Theorem Recent_returns_the_window_oldest_first (net : Network) (W : Z)
    (p : Platform) (fuel : nat) (offset : uint) (sched : list action)
    (o : outcome (option (list Item))) :
  0 ≤ uint_bits p →
  (∀ body n, json_uint net body = Some n → (n ≤ uint_max p)%N) →
  (offset ≤ uint_max p)%N →
  LiveService_Recent net W p fuel offset sched = Some o →
  match o with
  | Panic => (makeslice_max p < offset)%N
  | Return None err => err ≠ None
  | Return (Some l) err =>
      err = None
      ∧ ∃ latest,
          LiveService_MaxID net = inl latest
          ∧ sublist (Item_ID <$> l) (Recent_window latest offset)
          ∧ StronglySorted N.lt (Item_ID <$> l)
          ∧ Forall (λ r, latest - offset ≤ Item_ID r ≤ latest)%N l
          ∧ (length l ≤ S (N.to_nat offset))%nat
  end.
Proof.
  intros Hbits Hjson Hoffset. unfold LiveService_Recent.
  destruct (LiveService_MaxID net) as [latest|e] eqn:Hmax.
  - assert (latest ≤ uint_max p)%N as Hlatest.
    { unfold LiveService_MaxID, Fetch_from in Hmax.
      apply Fetch_inl_unmarshal in Hmax as [body Hbody]. by eapply Hjson. }
    destruct (N.ltb_spec (makeslice_max p) offset) as [Hcap|Hcap].
    { intros ->%at_once_Some. done. }
    destruct (Recent_ids p fuel latest offset) as [l0|] eqn:Hids; [|done].
    apply Recent_ids_Some in Hids as [Hlt ->]; [|done..].
    destruct (ItemService_List net W _ None sched) as [[items err]|] eqn:HL;
      [|done].
    intros [= <-]. cbn [fst snd].
    apply List_result_sound in HL as [[-> ?]|(l & -> & -> & Hsub & _)];
      [done|].
    cbn [ids] in Hsub.
    destruct (Recent_window_shape latest offset) as (Hlen & Hsorted & Hrange).
    split; [done|]. exists latest. split_and!; try done.
    + by eapply StronglySorted_sublist.
    + apply Forall_forall. intros r Hr.
      eapply Forall_forall in Hrange; [exact Hrange|].
      eapply elem_of_sublist; [|exact Hsub]. by apply list_elem_of_fmap_2.
    + apply sublist_length in Hsub. rewrite length_fmap, Hlen in Hsub.
      destruct (offset <=? latest)%N; lia.
  - intros ->%at_once_Some. done.
Qed.

(** The three newest items of the toy network, by the sequential
    schedule. *)
Lemma Recent_returns_the_window_oldest_first_witness :
  LiveService_Recent toy_network maxWorkers_default toy_platform 10 2%N
    (sequential toy_recent_call)
  = Some (Return (Some [toy_item 5%N StoryType; toy_item 6%N StoryType;
                        toy_item 7%N StoryType]) None)
  ∧ ∃ latest,
      LiveService_MaxID toy_network = inl latest
      ∧ sublist
          (Item_ID <$> [toy_item 5%N StoryType; toy_item 6%N StoryType;
                        toy_item 7%N StoryType])
          (Recent_window latest 2%N)
      ∧ StronglySorted N.lt
          (Item_ID <$> [toy_item 5%N StoryType; toy_item 6%N StoryType;
                        toy_item 7%N StoryType])
      ∧ Forall (λ r, latest - 2 ≤ Item_ID r ≤ latest)%N
          [toy_item 5%N StoryType; toy_item 6%N StoryType;
           toy_item 7%N StoryType]
      ∧ (length [toy_item 5%N StoryType; toy_item 6%N StoryType;
                 toy_item 7%N StoryType] ≤ S (N.to_nat 2))%nat.
Proof.
  assert (LiveService_Recent toy_network maxWorkers_default toy_platform 10 2%N
            (sequential toy_recent_call)
          = Some (Return (Some [toy_item 5%N StoryType; toy_item 6%N StoryType;
                                toy_item 7%N StoryType]) None))
    as Hrun by (vm_compute; reflexivity).
  split; [exact Hrun|].
  refine (proj2 (Recent_returns_the_window_oldest_first toy_network
                   maxWorkers_default toy_platform 10 2%N
                   (sequential toy_recent_call) _ _ _ _ Hrun)).
  - by vm_compute.
  - intros body n. cbn. case_decide; [|done]. intros [= <-]. by vm_compute.
  - by vm_compute.
Defined.
